(** * Brand matching engine (src/common/brands.ts)

    A shallow embedding of the brand-matching engine: the alias graph built
    from the brand connections, the canonical lookup, the compiled match
    patterns, the title normalizer and the per-product disambiguation, with
    the properties of the engine stated and proved over these definitions.

    Modelling conventions.
    - A JavaScript string is the list of its UTF-16 code units ([jsstring]).
    - [Map], [Set] and plain objects used as dictionaries are association
      lists and duplicate-free lists kept in insertion order, because the
      code iterates over them; [objectEntries] gives the enumeration order
      of an object's own keys (array indices first, in ascending order).
    - The key [__proto__] names no own property. On [brandsMapping] an
      assignment under it makes the assigned array the prototype of the
      object; the entry under [__proto__] of the association list is that
      prototype link, which a read of the key returns, which
      [Object.entries] and [Object.values] leave out, and whose index keys
      [for ... in] meets after the own keys ([forInValues]). On
      [canonicalLookup] an assignment under it stores nothing
      ([lookupAssign]). A read of [canonicalLookup] is a read of its own
      properties: the members [__proto__] and [constructor] that
      [Object.prototype] answers when the object has no own property of
      that name are not values of [assignedBrand].
    - The Unicode tables behind [toLowerCase], [toUpperCase] and
      [normalize("NFD")] are the fields of the class [Unicode]; theorems
      are stated for every instance, closed examples are evaluated in the
      instance [UnicodeFragment].
    - A [RegExp] is its syntax tree; [test] is the set-of-end-positions
      semantics of the patterns the engine builds (no captures are read). *)

From Stdlib Require Import String Ascii List NArith Bool Lia Arith Permutation.
Import ListNotations.

Set Implicit Arguments.

(* ------------------------------------------------------------------ *)
(** ** Strings *)

Definition jsstring := list N.

(** The code units of an ASCII literal. *)
Definition js (s : string) : jsstring :=
  map N_of_ascii (list_ascii_of_string s).

Fixpoint streq (a b : jsstring) : bool :=
  match a, b with
  | [], [] => true
  | x :: a', y :: b' => (x =? y)%N && streq a' b'
  | _, _ => false
  end.

Definition isAscii (c : N) : bool := (c <? 128)%N.

Definition asciiLower (c : N) : N :=
  if ((65 <=? c) && (c <=? 90))%N then (c + 32)%N else c.

Definition asciiUpper (c : N) : N :=
  if ((97 <=? c) && (c <=? 122))%N then (c - 32)%N else c.

(** WhiteSpace and LineTerminator code units: what [trim] removes and what
    the class escape [\s] accepts. *)
Definition isWhiteSpace (c : N) : bool :=
  ((9 <=? c) && (c <=? 13) || (c =? 32) || (c =? 160) || (c =? 5760)
   || (8192 <=? c) && (c <=? 8202) || (c =? 8232) || (c =? 8233)
   || (c =? 8239) || (c =? 8287) || (c =? 12288) || (c =? 65279))%N.

Definition isLineTerminator (c : N) : bool :=
  ((c =? 10) || (c =? 13) || (c =? 8232) || (c =? 8233))%N.

(** The word characters of [\b] and [\w]: [A-Za-z0-9_]. *)
Definition isWordChar (c : N) : bool :=
  ((48 <=? c) && (c <=? 57) || (65 <=? c) && (c <=? 90) || (c =? 95)
   || (97 <=? c) && (c <=? 122))%N.

Fixpoint dropWhile (p : N -> bool) (s : jsstring) : jsstring :=
  match s with
  | [] => []
  | c :: s' => if p c then dropWhile p s' else s
  end.

(** [String.prototype.trim]. *)
Definition trim (s : jsstring) : jsstring :=
  rev (dropWhile isWhiteSpace (rev (dropWhile isWhiteSpace s))).

(** [String.prototype.split] with a one-unit separator: never empty. *)
Fixpoint split (sep : N) (s : jsstring) : list jsstring :=
  match s with
  | [] => [[]]
  | c :: s' =>
      if (c =? sep)%N then [] :: split sep s'
      else match split sep s' with
           | [] => [[c]]
           | p :: ps => (c :: p) :: ps
           end
  end.

Fixpoint startsWith (s p : jsstring) : bool :=
  match p, s with
  | [], _ => true
  | x :: p', y :: s' => (x =? y)%N && startsWith s' p'
  | _ :: _, [] => false
  end.

(** [String.prototype.indexOf]: [None] stands for [-1]. *)
Fixpoint indexOf (s p : jsstring) : option nat :=
  if startsWith s p then Some 0
  else match s with
       | [] => None
       | _ :: s' => option_map S (indexOf s' p)
       end.

(** [String.prototype.includes]. *)
Definition includes (s p : jsstring) : bool :=
  match indexOf s p with Some _ => true | None => false end.

(* ------------------------------------------------------------------ *)
(** ** Unicode tables *)

(** The case mappings and the canonical decomposition of the host's
    Unicode tables. On ASCII strings the case mappings are the ASCII ones. *)
Class Unicode := {
  toLowerCase : jsstring -> jsstring;
  toUpperCase : jsstring -> jsstring;
  normalizeNFD : jsstring -> jsstring;
  toLowerCase_ascii :
    forall s, forallb isAscii s = true -> toLowerCase s = map asciiLower s;
  toUpperCase_ascii :
    forall s, forallb isAscii s = true -> toUpperCase s = map asciiUpper s
}.

(* ------------------------------------------------------------------ *)
(** ** Map, Set and object dictionaries *)

Section Dictionaries.
Variable V : Type.

Definition jsmap := list (jsstring * V).

Fixpoint mapGet (m : jsmap) (k : jsstring) : option V :=
  match m with
  | [] => None
  | (k', v) :: m' => if streq k' k then Some v else mapGet m' k
  end.

Definition mapHas (m : jsmap) (k : jsstring) : bool :=
  match mapGet m k with Some _ => true | None => false end.

(** [m.set(k, v)] and [o[k] = v]: an existing key keeps its place. *)
Fixpoint mapSet (m : jsmap) (k : jsstring) (v : V) : jsmap :=
  match m with
  | [] => [(k, v)]
  | (k', v') :: m' =>
      if streq k' k then (k', v) :: m' else (k', v') :: mapSet m' k v
  end.

(** [f] applied in place to the value stored under [k]. *)
Fixpoint mapAdjust (m : jsmap) (k : jsstring) (f : V -> V) : jsmap :=
  match m with
  | [] => []
  | (k', v) :: m' =>
      if streq k' k then (k', f v) :: m' else (k', v) :: mapAdjust m' k f
  end.

End Dictionaries.

Abbreviation jsset := (list jsstring).

Definition setHas (s : jsset) (x : jsstring) : bool := existsb (streq x) s.

Definition setAdd (s : jsset) (x : jsstring) : jsset :=
  if setHas s x then s else s ++ [x].

(** An array index as an object key: the canonical decimal numeral of an
    integer below [2^32 - 1]. *)
Fixpoint digitsValue (acc : N) (s : jsstring) : option N :=
  match s with
  | [] => Some acc
  | c :: s' =>
      if ((48 <=? c) && (c <=? 57))%N
      then digitsValue (10 * acc + (c - 48))%N s'
      else None
  end.

Definition arrayIndex (k : jsstring) : option N :=
  match k with
  | [] => None
  | c :: rest =>
      if ((c =? 48)%N && negb (length rest =? 0)) || (10 <? length k) then None
      else match digitsValue 0 k with
           | Some n => if (n <? 4294967295)%N then Some n else None
           | None => None
           end
  end.

(** The key [__proto__]. On an object created by [{}] it names no property
    of the object: [o["__proto__"] = v] calls the setter that
    [Object.prototype] defines, which makes [v] the prototype of [o] when
    [v] is an object and does nothing when [v] is a string, and
    [o["__proto__"]] reads the prototype. In the association list of an
    object the entry under [__proto__], if there is one, is therefore the
    prototype link of the object: a read of that key finds it ([mapGet]),
    and the enumerations of the own properties leave it out. *)
Definition protoKey : jsstring := js "__proto__"%string.

Section ObjectOrder.
Variable V : Type.

Fixpoint insertIndexed (e : N * (jsstring * V)) (l : list (N * (jsstring * V)))
  : list (N * (jsstring * V)) :=
  match l with
  | [] => [e]
  | e' :: l' =>
      if (fst e <? fst e')%N then e :: l else e' :: insertIndexed e l'
  end.

Fixpoint indexedKeys (o : jsmap V) : list (N * (jsstring * V)) :=
  match o with
  | [] => []
  | (k, v) :: o' =>
      match arrayIndex k with
      | Some n => insertIndexed (n, (k, v)) (indexedKeys o')
      | None => indexedKeys o'
      end
  end.

Definition namedKeys (o : jsmap V) : jsmap V :=
  filter (fun kv => match arrayIndex (fst kv) with
                    | Some _ => false
                    | None => negb (streq (fst kv) protoKey)
                    end) o.

(** [Object.entries]: the own properties, array-index keys in ascending
    order, then the other keys in the order they were created. The entry
    under [__proto__] is the prototype link and no own property. *)
Definition objectEntries (o : jsmap V) : jsmap V :=
  map snd (indexedKeys o) ++ namedKeys o.

Definition objectValues (o : jsmap V) : list V := map snd (objectEntries o).

End ObjectOrder.

(* ------------------------------------------------------------------ *)
(** ** Regular expressions *)

Inductive charClass := ClassSpace | ClassNonSpace | ClassDot.

(** The syntax of the patterns the engine compiles. *)
Inductive regex :=
| Eps
| Chr (c : N)
| Class (k : charClass)
| Bol
| Eol
| WordB
| Seq (a b : regex)
| Alt (a b : regex)
| Star (a : regex).

(** A position in the input: the units before it, nearest first, and the
    units after it. *)
Definition cursor := (jsstring * jsstring)%type.

Definition inClass (k : charClass) (c : N) : bool :=
  match k with
  | ClassSpace => isWhiteSpace c
  | ClassNonSpace => negb (isWhiteSpace c)
  | ClassDot => negb (isLineTerminator c)
  end.

Definition wordAt (s : jsstring) : bool :=
  match s with
  | [] => false
  | c :: _ => isWordChar c
  end.

Definition isNil (s : jsstring) : bool :=
  match s with [] => true | _ :: _ => false end.

Definition remaining (c : cursor) : nat := length (snd c).

(** The iterations of a starred atom [f] from [c]; an iteration that
    consumes nothing adds no end position. *)
Fixpoint starEnds (fuel : nat) (f : cursor -> list cursor) (c : cursor)
  : list cursor :=
  c :: match fuel with
       | O => []
       | S n =>
           flat_map (starEnds n f)
             (filter (fun c' => remaining c' <? remaining c) (f c))
       end.

Section Matcher.
Context {U : Unicode}.

(** Canonicalize of the ignoreCase flag (without the unicode flag). *)
Definition canonicalize (ch : N) : N :=
  match toUpperCase [ch] with
  | [cu] => if ((128 <=? ch) && (cu <? 128))%N then ch else cu
  | _ => ch
  end.

(** The positions at which a match of [r] that starts at [c] can end. *)
Fixpoint ends (r : regex) (c : cursor) : list cursor :=
  match r with
  | Eps => [c]
  | Chr x =>
      match snd c with
      | y :: rest =>
          if (canonicalize x =? canonicalize y)%N then [(y :: fst c, rest)]
          else []
      | [] => []
      end
  | Class k =>
      match snd c with
      | y :: rest => if inClass k y then [(y :: fst c, rest)] else []
      | [] => []
      end
  | Bol => if isNil (fst c) then [c] else []
  | Eol => if isNil (snd c) then [c] else []
  | WordB => if xorb (wordAt (fst c)) (wordAt (snd c)) then [c] else []
  | Seq a b => flat_map (ends b) (ends a c)
  | Alt a b => ends a c ++ ends b c
  | Star a => starEnds (remaining c) (ends a) c
  end.

Definition matchesAt (r : regex) (c : cursor) : bool :=
  match ends r c with [] => false | _ :: _ => true end.

(** Every position of the input, leftmost first. *)
Fixpoint cursorsFrom (before after : jsstring) : list cursor :=
  (before, after) ::
  match after with
  | [] => []
  | y :: rest => cursorsFrom (y :: before) rest
  end.

(** [RegExp.prototype.test] for a pattern with the flag [i] alone. *)
Definition test (r : regex) (input : jsstring) : bool :=
  existsb (matchesAt r) (cursorsFrom [] input).

(** The atoms of a pattern text made of pattern characters and identity
    escapes: a backslash makes the next unit a literal. *)
Fixpoint atoms (p : jsstring) : regex :=
  match p with
  | [] => Eps
  | c :: p' =>
      match p' with
      | d :: p'' => if (c =? 92)%N then Seq (Chr d) (atoms p'')
                    else Seq (Chr c) (atoms p')
      | [] => Seq (Chr c) Eps
      end
  end.

(** [+] *)
Definition Plus (a : regex) : regex := Seq a (Star a).

End Matcher.

(* ------------------------------------------------------------------ *)
(** ** The engine: configuration and data *)

Open Scope string_scope.

Definition firstWordBrandValidationList : jsset :=
  map js ["rich"; "rff"; "flex"; "ultra"; "gum"; "beauty"; "orto"; "free";
          "112"; "kin"; "happy"; "HAPPY"].

Definition firstOrSecondWordBrandValidationList : jsset :=
  map js ["heel"; "contour"; "nero"; "rsv"].

Definition ignoreBrandsList : jsset := map js ["bio"; "neb"].

Close Scope string_scope.

(** A row of brandConnections.json. *)
Record BrandConnection := {
  manufacturer_p1 : jsstring;
  manufacturers_p2 : jsstring
}.

(** A row of pharmacyItems.json. *)
Record Product := {
  title : jsstring;
  source_id : jsstring
}.

Abbreviation BrandsMapping := (jsmap (list jsstring)).

Inductive PositionCheck := First | FirstOrSecond.

Record BrandMatchCache := {
  brand : jsstring;
  pattern : regex;
  positionCheck : option PositionCheck
}.

(** One element of the results array. *)
Record MatchResult := {
  product : jsstring;
  matchedBrands : list jsstring;
  assignedBrand : option jsstring;
  priorityBrand : option jsstring
}.

(** The class [[.*+?^${}()|[\]\\]] of the escaping [replace]. *)
Definition regexSpecial (c : N) : bool :=
  existsb (N.eqb c) [46; 42; 43; 63; 94; 36; 123; 125; 40; 41; 124; 91; 93; 92]%N.

(** [brand.replace(/[.*+?^${}()|[\]\\]/g, "\\$&")] *)
Definition escapeRegExp (b : jsstring) : jsstring :=
  flat_map (fun c => if regexSpecial c then [92; c] else [c])%N b.

(** [(\b|\s|$)] *)
Definition boundaryTail : regex := Alt WordB (Alt (Class ClassSpace) Eol).

(** The class of the accent test: U+0300..U+036F and U+00C0..U+017F. *)
Definition accentRange (c : N) : bool :=
  ((768 <=? c) && (c <=? 879) || (192 <=? c) && (c <=? 383))%N.

(** The class of the stripping [replace]: U+0300..U+036F. *)
Definition combiningMark (c : N) : bool := ((768 <=? c) && (c <=? 879))%N.

(** [normalized.replace(/[U+0300-U+036F]/g, "")] *)
Definition stripMarks (s : jsstring) : jsstring :=
  filter (fun c => negb (combiningMark c)) s.

Definition shorter (shortest current : jsstring) : jsstring :=
  if length current <? length shortest then current else shortest.

(** [l.reduce((shortest, current) => ...)] without an initial value: a
    TypeError ([None]) on the empty array. *)
Definition reduceShortest (l : list jsstring) : option jsstring :=
  match l with
  | [] => None
  | x :: xs => Some (fold_left shorter xs x)
  end.

Fixpoint insertByLength (e : BrandMatchCache) (l : list BrandMatchCache)
  : list BrandMatchCache :=
  match l with
  | [] => [e]
  | x :: l' =>
      if length (brand x) <=? length (brand e) then e :: l
      else x :: insertByLength e l'
  end.

(** [cache.sort((a, b) => b.brand.length - a.brand.length)]: stable, longest
    brand first. *)
Definition sortByLengthDesc (l : list BrandMatchCache) : list BrandMatchCache :=
  fold_right insertByLength [] l.

(** [index < earliestIndex], where [None] is [Infinity]. *)
Definition beforeEarliest (index : nat) (earliestIndex : option nat) : bool :=
  match earliestIndex with
  | None => true
  | Some e => index <? e
  end.

(** [!priorityBrand]: [null] and the empty string are falsy. *)
Definition falsy (s : option jsstring) : bool :=
  match s with
  | None => true
  | Some [] => true
  | Some (_ :: _) => false
  end.

(** [a || b] on values that are a string or [null]/[undefined]. *)
Definition orElse (a b : option jsstring) : option jsstring :=
  if falsy a then b else a.

(** The property key a value is converted to. *)
Definition propertyKey (v : option jsstring) : jsstring :=
  match v with
  | Some s => s
  | None => js "null"
  end.

(** *** The patterns built around an escaped brand *)

(** [^(?:B\s|.*\sB\s.*|.*\sB)$] *)
Definition edgePattern `{Unicode} (escapedBrand : jsstring) : regex :=
  Seq Bol
    (Seq (Alt (Seq (atoms escapedBrand) (Class ClassSpace))
            (Alt (Seq (Star (Class ClassDot))
                    (Seq (Class ClassSpace)
                       (Seq (atoms escapedBrand)
                          (Seq (Class ClassSpace) (Star (Class ClassDot))))))
                 (Seq (Star (Class ClassDot))
                    (Seq (Class ClassSpace) (atoms escapedBrand)))))
       Eol).

(** [^B(\b|\s|$)] *)
Definition firstPattern `{Unicode} (escapedBrand : jsstring) : regex :=
  Seq Bol (Seq (atoms escapedBrand) boundaryTail).

(** [^\S+\s+B(\b|\s|$)] *)
Definition secondPattern `{Unicode} (escapedBrand : jsstring) : regex :=
  Seq Bol (Seq (Plus (Class ClassNonSpace))
             (Seq (Plus (Class ClassSpace))
                (Seq (atoms escapedBrand) boundaryTail))).

(** [\bB\b] *)
Definition termPattern `{Unicode} (escapedBrand : jsstring) : regex :=
  Seq WordB (Seq (atoms escapedBrand) WordB).

(* ------------------------------------------------------------------ *)
(** ** The engine: graph builder, canonical lookup, pattern cache *)

Section Engine.
Context {U : Unicode}.

(** The body of [brand2Array.forEach]: both directions of one pair. The
    two sets exist when they are extended ([brandMap.get(...)!]). *)
Definition linkBrand (brand1 : jsstring) (brandMap : jsmap jsset)
  (brand2 : jsstring) : jsmap jsset :=
  let m := if mapHas brandMap brand2 then brandMap
           else mapSet brandMap brand2 [] in
  let m := mapAdjust m brand1 (fun s => setAdd s brand2) in
  mapAdjust m brand2 (fun s => setAdd s brand1).

(** The body of [brandConnections.forEach]. *)
Definition addConnection (brandMap : jsmap jsset) (c : BrandConnection)
  : jsmap jsset :=
  let brand1 := toLowerCase (manufacturer_p1 c) in
  let brands2 := toLowerCase (manufacturers_p2 c) in
  let brand2Array := map trim (split 59 brands2) in
  let m := if mapHas brandMap brand1 then brandMap
           else mapSet brandMap brand1 [] in
  fold_left (linkBrand brand1) brand2Array m.

Definition brandMapOf (connections : list BrandConnection) : jsmap jsset :=
  fold_left addConnection connections [].

(** [brandsMapping[brand] = Array.from(relatedBrands)] on the object
    [brandsMapping]. For [brand = "__proto__"] the array becomes the
    prototype of [brandsMapping], recorded under that key, and
    [brandsMapping] gets no own property; every other key becomes, or
    stays, an own property. *)
Definition objectAssign (o : BrandsMapping) (k : jsstring)
  (v : list jsstring) : BrandsMapping :=
  if streq k protoKey then mapSet o protoKey v else mapSet o k v.

(** The array that an assignment made the prototype of the object, if
    any. *)
Definition arrayPrototype (o : BrandsMapping) : option (list jsstring) :=
  mapGet o protoKey.

(** [getBrandsMapping]: the relation map turned into an object of arrays. *)
Definition getBrandsMapping (connections : list BrandConnection)
  : BrandsMapping :=
  fold_left (fun o e => objectAssign o (fst e) (snd e))
    (brandMapOf connections) [].

(** [brandsMapping[a] || []], the neighbours of an alias in the graph: the
    array stored under the own property [a], the array that is the
    prototype for [a = "__proto__"], and no neighbour for a key that the
    object does not have. *)
Definition neighbours (g : BrandsMapping) (a : jsstring) : list jsstring :=
  match mapGet g a with
  | Some l => l
  | None => []
  end.

Definition ignored (b : jsstring) : bool :=
  setHas ignoreBrandsList (toLowerCase b).

(** The constant [canonicalBrand] of one loop turn of
    [buildCanonicalLookup]. *)
Definition canonicalBrand (relatedBrands : list jsstring) : option jsstring :=
  let filteredBrands := filter (fun b => negb (ignored b)) relatedBrands in
  if 0 <? length filteredBrands then reduceShortest filteredBrands
  else reduceShortest relatedBrands.

(** [canonicalLookup[k] = label] for a string [label] on the object
    [canonicalLookup]: for [k = "__proto__"] the setter ignores the string
    and nothing is stored; every other key becomes, or stays, an own
    property. *)
Definition lookupAssign (canonicalLookup : jsmap jsstring)
  (k label : jsstring) : jsmap jsstring :=
  if streq k protoKey then canonicalLookup else mapSet canonicalLookup k label.

(** One turn of the loop over [Object.entries(brandsMapping)]. *)
Definition canonicalStep (acc : option (jsmap jsstring))
  (entry : jsstring * list jsstring) : option (jsmap jsstring) :=
  match acc with
  | None => None
  | Some canonicalLookup =>
      match canonicalBrand (snd entry) with
      | None => None
      | Some cb =>
          Some (fold_left
                  (fun lk b =>
                     lookupAssign lk (toLowerCase b) (toLowerCase cb))
                  (snd entry) canonicalLookup)
      end
  end.

Definition buildCanonicalLookup (brandsMapping : BrandsMapping)
  : option (jsmap jsstring) :=
  fold_left canonicalStep (objectEntries brandsMapping) (Some []).

(** One turn of the loop of [buildBrandMatchCache] for a brand that is not
    ignored. *)
Definition compileBrand (b : jsstring) : BrandMatchCache :=
  let escapedBrand := escapeRegExp b in
  let escapedBrand :=
    if streq escapedBrand (js "happy") then toUpperCase escapedBrand
    else escapedBrand in
  if setHas firstWordBrandValidationList b then
    {| brand := b;
       pattern := firstPattern escapedBrand;
       positionCheck := Some First |}
  else if setHas firstOrSecondWordBrandValidationList b then
    {| brand := b;
       pattern := Alt (firstPattern escapedBrand) (secondPattern escapedBrand);
       positionCheck := Some FirstOrSecond |}
  else
    {| brand := b;
       pattern := termPattern escapedBrand;
       positionCheck := None |}.

Definition buildBrandMatchCache (brands : jsset) : list BrandMatchCache :=
  flat_map (fun b => if setHas ignoreBrandsList b then []
                     else [compileBrand b]) brands.

(** [normalizeInputIfAccentInsensitive], with the module's
    [normalizationCache] passed in and out. *)
Definition normalizeInputIfAccentInsensitive
  (normalizationCache : jsmap jsstring) (input : jsstring)
  : jsstring * jsmap jsstring :=
  match mapGet normalizationCache input with
  | Some cached => (cached, normalizationCache)
  | None =>
      let normalized := normalizeNFD input in
      let hasAccents := existsb accentRange normalized in
      let result :=
        if hasAccents then stripMarks normalized else input in
      (result, mapSet normalizationCache input result)
  end.

Definition checkBrandMatch (normalizedInput : jsstring)
  (cacheEntry : BrandMatchCache) : bool :=
  test (pattern cacheEntry) normalizedInput.

(* ------------------------------------------------------------------ *)
(** ** The engine: matching and disambiguation ([assignBrandIfKnown]) *)

(** [allBrands]: every alias of every neighbour list. *)
Definition allBrandsOf (brandsMapping : BrandsMapping) : jsset :=
  fold_left (fun all brands => fold_left setAdd brands all)
    (objectValues brandsMapping) [].

(** The network of one brand: its neighbours, then the brand itself. *)
Definition brandNetwork (brandsMapping : BrandsMapping) (b : jsstring)
  : jsset :=
  let related := neighbours brandsMapping (toLowerCase b) in
  setAdd (fold_left (fun network r => setAdd network (toLowerCase r))
            related [])
         (toLowerCase b).

Definition buildBrandNetworkCache (brandsMapping : BrandsMapping)
  (allBrands : jsset) : jsmap jsset :=
  fold_left (fun cache b =>
               mapSet cache (toLowerCase b) (brandNetwork brandsMapping b))
    allBrands [].

(** The loop over the cache entries: the aliases whose pattern matches, in
    cache order, each once. *)
Definition matchBrands (normalizedTitle : jsstring)
  (brandMatchCache : list BrandMatchCache) : list jsstring :=
  fold_left (fun matched cacheEntry =>
               if setHas matched (brand cacheEntry) then matched
               else if checkBrandMatch normalizedTitle cacheEntry
                    then matched ++ [brand cacheEntry]
                    else matched)
    brandMatchCache [].

(** [allConnectedBrands]: the networks of the matched aliases. *)
Definition connectedBrands (brandNetworkCache : jsmap jsset)
  (matched : list jsstring) : jsset :=
  fold_left (fun all b =>
               match mapGet brandNetworkCache (toLowerCase b) with
               | Some network => fold_left setAdd network all
               | None => all
               end)
    matched [].

(** One turn of the scan for the earliest candidate; the state is
    [(earliestIndex, priorityBrand)]. *)
Definition scanStep (lowerTitle : jsstring)
  (st : option nat * option jsstring) (b : jsstring)
  : option nat * option jsstring :=
  match indexOf lowerTitle b with
  | Some index =>
      if beforeEarliest index (fst st) then (Some index, Some b) else st
  | None => st
  end.

Definition scanEarliest (lowerTitle : jsstring) (candidates : jsset)
  : option jsstring :=
  snd (fold_left (scanStep lowerTitle) candidates (None, None)).

(** The priority alias chosen when [matched] is not empty. *)
Definition choosePriority (lowerTitle : jsstring)
  (brandNetworkCache : jsmap jsset) (matched : list jsstring)
  : option jsstring :=
  let earliest :=
    scanEarliest lowerTitle (connectedBrands brandNetworkCache matched) in
  if falsy earliest then Some (toLowerCase (hd [] matched)) else earliest.

(** The body of the loop over the products. *)
Definition processProduct (canonicalLookup : jsmap jsstring)
  (brandMatchCache : list BrandMatchCache)
  (brandNetworkCache : jsmap jsset)
  (normalizationCache : jsmap jsstring) (p : Product)
  : MatchResult * jsmap jsstring :=
  let (normalizedTitle, normalizationCache') :=
    normalizeInputIfAccentInsensitive normalizationCache (title p) in
  let lowerTitle := toLowerCase normalizedTitle in
  let matched := matchBrands normalizedTitle brandMatchCache in
  let (priority, mainBrand) :=
    if 0 <? length matched then
      let pb := choosePriority lowerTitle brandNetworkCache matched in
      (pb, orElse (mapGet canonicalLookup (propertyKey pb)) pb)
    else (None, None) in
  ({| product := title p;
      matchedBrands := matched;
      assignedBrand := mainBrand;
      priorityBrand := priority |},
   normalizationCache').

(** The results array written by [assignBrandIfKnown]; [None] when building
    the canonical lookup throws. The normalization cache starts empty and
    is threaded through the products. *)
Definition assignBrandIfKnown (connections : list BrandConnection)
  (items : list Product) : option (list MatchResult) :=
  let brandsMapping := getBrandsMapping connections in
  match buildCanonicalLookup brandsMapping with
  | None => None
  | Some canonicalLookup =>
      let allBrands := allBrandsOf brandsMapping in
      let brandMatchCache :=
        sortByLengthDesc (buildBrandMatchCache allBrands) in
      let brandNetworkCache :=
        buildBrandNetworkCache brandsMapping allBrands in
      Some (fst (fold_left
                   (fun st p =>
                      let (r, cache') :=
                        processProduct canonicalLookup brandMatchCache
                          brandNetworkCache (snd st) p in
                      (fst st ++ [r], cache'))
                   items ([], [])))
  end.

End Engine.

(** A property value of a result record. *)
Inductive jsvalue :=
| VNull
| VString (s : jsstring)
| VArray (l : list jsstring).

Definition stringOrNull (v : option jsstring) : jsvalue :=
  match v with
  | Some s => VString s
  | None => VNull
  end.

(** The object literal pushed to [results], as the list of its own
    properties. *)
Definition resultObject (r : MatchResult) : jsmap jsvalue :=
  [(js "product", VString (product r));
   (js "matchedBrands", VArray (matchedBrands r));
   (js "assignedBrand", stringOrNull (assignedBrand r));
   (js "priorityBrand", stringOrNull (priorityBrand r))]%string.

(** The truth value of a property read; [None] is [undefined]. *)
Definition truthy (v : option jsvalue) : bool :=
  match v with
  | None => false
  | Some VNull => false
  | Some (VString s) => negb (isNil s)
  | Some (VArray _) => true
  end.

(** [results.filter(r => r.brand).length], the count printed at the end of
    [assignBrandIfKnown]. *)
Definition brandsAssigned (results : list MatchResult) : nat :=
  length (filter (fun r => truthy (mapGet (resultObject r) (js "brand")))
            results).

(* ------------------------------------------------------------------ *)
(** ** Inherited properties of the mapping *)

(** The loops [for (const brandKey in brandsMapping)] of the earlier
    versions and their reads [brandsMapping[key]] have no own-property
    guard, so they also reach what the object inherits: the elements of the
    array that a row naming [__proto__] made its prototype. *)

Definition isHighSurrogate (c : N) : bool := ((55296 <=? c) && (c <=? 56319))%N.

Definition isLowSurrogate (c : N) : bool := ((56320 <=? c) && (c <=? 57343))%N.

(** What [for (const brand of s)] yields for a string [s]: its code points,
    a surrogate pair as one string of two units. *)
Fixpoint codePoints (s : jsstring) : list jsstring :=
  match s with
  | [] => []
  | c :: rest =>
      match rest with
      | d :: rest' =>
          if isHighSurrogate c && isLowSurrogate d
          then [c; d] :: codePoints rest'
          else [c] :: codePoints rest
      | [] => [[c]]
      end
  end.

(** The object has an own property whose key is the array index [i]. *)
Definition ownIndex (own : BrandsMapping) (i : N) : bool :=
  existsb (fun kv => match arrayIndex (fst kv) with
                     | Some n => (n =? i)%N
                     | None => false
                     end) own.

(** The elements of the prototype array, from index [i] on, whose index is
    not the key of an own property. *)
Fixpoint inheritedFrom (own : BrandsMapping) (i : N) (elements : list jsstring)
  : list jsstring :=
  match elements with
  | [] => []
  | s :: rest =>
      if ownIndex own i then inheritedFrom own (i + 1) rest
      else s :: inheritedFrom own (i + 1) rest
  end.

Definition inheritedElements (o : BrandsMapping) : list jsstring :=
  match arrayPrototype o with
  | Some elements => inheritedFrom (objectEntries o) 0 elements
  | None => []
  end.

(** What the loop [for (const brandKey in o)] followed by
    [for (const brand of o[brandKey])] iterates over: the arrays of the own
    properties in the order of [Object.entries], then, for each inherited
    index key in ascending order, the code points of the string that the
    prototype array holds there. The properties of [Array.prototype] and of
    [Object.prototype] are not enumerable. *)
Definition forInValues (o : BrandsMapping) : list (list jsstring) :=
  objectValues o ++ map codePoints (inheritedElements o).

Open Scope string_scope.

(** The string keys of [Object.prototype]. *)
Definition objectPrototypeKeys : jsset :=
  map js ["constructor"; "__defineGetter__"; "__defineSetter__";
          "hasOwnProperty"; "__lookupGetter__"; "__lookupSetter__";
          "isPrototypeOf"; "propertyIsEnumerable"; "toString"; "valueOf";
          "__proto__"; "toLocaleString"].

(** The string keys of [Array.prototype] (ECMAScript 2023), [length]
    apart. *)
Definition arrayPrototypeKeys : jsset :=
  map js ["constructor"; "at"; "concat"; "copyWithin"; "fill"; "find";
          "findIndex"; "findLast"; "findLastIndex"; "lastIndexOf"; "pop";
          "push"; "reverse"; "shift"; "unshift"; "slice"; "sort"; "splice";
          "includes"; "indexOf"; "join"; "keys"; "entries"; "values";
          "forEach"; "filter"; "flat"; "flatMap"; "map"; "every"; "some";
          "reduce"; "reduceRight"; "toLocaleString"; "toString";
          "toReversed"; "toSorted"; "toSpliced"; "with"].

Close Scope string_scope.

(** [brandsMapping[k] || []] as [forEach] is called on it: the array to
    iterate over, or [None] when the value has no [forEach] and the call
    throws a TypeError. An own property holds an array. [__proto__] reads
    the prototype: the array that was installed, or [Object.prototype].
    A key that is not an own property is looked up in the prototype chain:
    an index of the installed array gives a string (falsy when empty), its
    [length] a number (falsy when 0), a key of [Array.prototype] or of
    [Object.prototype] a function; any other key is [undefined]. *)
Definition relatedArray (brandsMapping : BrandsMapping) (k : jsstring)
  : option (list jsstring) :=
  if streq k protoKey then arrayPrototype brandsMapping
  else
    match mapGet brandsMapping k with
    | Some own => Some own
    | None =>
        match arrayPrototype brandsMapping with
        | Some elements =>
            match arrayIndex k with
            | Some i =>
                if (i <? N.of_nat (length elements))%N then
                  match nth_error elements (N.to_nat i) with
                  | Some [] => Some []
                  | _ => None
                  end
                else Some []
            | None =>
                if streq k (js "length")
                then (if length elements =? 0 then Some [] else None)
                else if setHas arrayPrototypeKeys k
                        || setHas objectPrototypeKeys k
                     then None
                     else Some []
            end
        | None => if setHas objectPrototypeKeys k then None else Some []
        end
    end.

(* ------------------------------------------------------------------ *)
(** ** The earlier versions: the per-call matchers and their callers *)

(** The earlier version that calls the regular expressions per title and
    lets a position list replace the generic test
    ([checkBrandIsSeparateTerm] returns the position verdict). *)
Module Direct.
Section Direct.
Context {U : Unicode}.

Definition normalizeInputIfAccentInsensitive (input : jsstring) : jsstring :=
  let hasAccentMarking := existsb accentRange (normalizeNFD input) in
  if hasAccentMarking then stripMarks (normalizeNFD input) else input.

Definition checkBrandIsSeparateTerm (input b : jsstring) : bool :=
  let escapedBrand := escapeRegExp b in
  let escapedBrand :=
    if streq escapedBrand (js "happy") then toUpperCase escapedBrand
    else escapedBrand in
  let input := normalizeInputIfAccentInsensitive input in
  let atBeginningOrEndOrMiddle := test (edgePattern escapedBrand) input in
  if setHas firstWordBrandValidationList b then
    let atBeginning := test (firstPattern escapedBrand) input in
    atBeginning
  else if setHas firstOrSecondWordBrandValidationList b then
    let atBeginning := test (firstPattern escapedBrand) input in
    let atSecondPosition := test (secondPattern escapedBrand) input in
    atBeginning || atSecondPosition
  else
    let separateTerm := test (termPattern escapedBrand) input in
    atBeginningOrEndOrMiddle || separateTerm.

(** The loop over [allBrands]: an alias is skipped when it is matched
    already or ignored, and pushed when [checkBrandIsSeparateTerm] accepts
    it. *)
Definition matchBrands (title : jsstring) (allBrands : jsset)
  : list jsstring :=
  fold_left
    (fun matched b =>
       if setHas matched b || setHas ignoreBrandsList b then matched
       else if checkBrandIsSeparateTerm title b then matched ++ [b]
       else matched)
    allBrands [].

(** The loop that collects [allConnected]: the lower-cased neighbours of
    the matched aliases. *)
Definition allConnected (brandsMapping : BrandsMapping)
  (matched : list jsstring) : jsset :=
  fold_left
    (fun all b =>
       fold_left (fun all r => setAdd all (toLowerCase r))
         (neighbours brandsMapping (toLowerCase b)) all)
    matched [].

(** [allPossible]: the set made of the lower-cased matched aliases followed
    by the connected ones. *)
Definition allPossible (brandsMapping : BrandsMapping)
  (matched : list jsstring) : jsset :=
  fold_left setAdd
    (map toLowerCase matched ++ allConnected brandsMapping matched) [].

(** The priority alias of a product with a non-empty matched list: the scan
    of [allPossible] over the lower-cased title, then the fallback. *)
Definition choosePriority (title : jsstring) (brandsMapping : BrandsMapping)
  (matched : list jsstring) : jsstring :=
  match scanEarliest (toLowerCase title) (allPossible brandsMapping matched)
  with
  | Some (c :: b) => c :: b
  | _ => toLowerCase (hd [] matched)
  end.

(** One element of the results array. *)
Record Result := {
  productTitle : jsstring;
  matchedBrands : list jsstring;
  priorityBrand : option jsstring;
  assignedBrand : option jsstring
}.

(** The body of the loop over the products. *)
Definition processProduct (canonicalLookup : jsmap jsstring)
  (brandsMapping : BrandsMapping) (allBrands : jsset) (p : Product)
  : Result :=
  let matched := matchBrands (title p) allBrands in
  if 0 <? length matched then
    let pb := choosePriority (title p) brandsMapping matched in
    {| productTitle := title p;
       matchedBrands := matched;
       priorityBrand := Some pb;
       assignedBrand :=
         orElse (mapGet canonicalLookup (toLowerCase pb))
                (Some (toLowerCase pb)) |}
  else
    {| productTitle := title p;
       matchedBrands := matched;
       priorityBrand := None;
       assignedBrand := None |}.

(** The results array written by this version of [assignBrandIfKnown];
    [None] when building the canonical lookup throws. *)
Definition assignBrandIfKnown (connections : list BrandConnection)
  (items : list Product) : option (list Result) :=
  let brandsMapping := getBrandsMapping connections in
  match buildCanonicalLookup brandsMapping with
  | None => None
  | Some canonicalLookup =>
      let allBrands := allBrandsOf brandsMapping in
      Some (fold_left
              (fun results p =>
                 results
                 ++ [processProduct canonicalLookup brandsMapping allBrands p])
              items [])
  end.

End Direct.
End Direct.

(** The earlier version that keeps the position lists as a gate in front
    of the generic test ([checkBrandIsSeparateTerm] returns [false] when the
    position test fails and goes on otherwise). *)
Module Gated.
Section Gated.
Context {U : Unicode}.

Definition normalizeInputIfAccentInsensitive (input : jsstring) : jsstring :=
  let isAccentInsensitive := existsb accentRange (normalizeNFD input) in
  if isAccentInsensitive then stripMarks (normalizeNFD input) else input.

Definition checkBrandIsSeparateTerm (input b : jsstring) : bool :=
  let escapedBrand := escapeRegExp b in
  let escapedBrand :=
    if streq escapedBrand (js "happy") then toUpperCase escapedBrand
    else escapedBrand in
  let input := normalizeInputIfAccentInsensitive input in
  let atBeginningOrEndOrMiddle := test (edgePattern escapedBrand) input in
  if setHas firstWordBrandValidationList b
     && negb (test (firstPattern escapedBrand) input)
  then false
  else if setHas firstOrSecondWordBrandValidationList b
          && negb (test (firstPattern escapedBrand) input)
          && negb (test (secondPattern escapedBrand) input)
  then false
  else
    let separateTerm := test (termPattern escapedBrand) input in
    atBeginningOrEndOrMiddle || separateTerm.

(** The nested loop [for (const brandKey in brandsMapping)],
    [for (const brand of brandsMapping[brandKey])]: an alias is skipped when
    it is matched already or ignored, and pushed when
    [checkBrandIsSeparateTerm] accepts it. *)
Definition matchBrands (title : jsstring) (brandsMapping : BrandsMapping)
  : list jsstring :=
  fold_left
    (fun matched relatedBrands =>
       fold_left
         (fun matched b =>
            if setHas matched b || setHas ignoreBrandsList b then matched
            else if checkBrandIsSeparateTerm title b then matched ++ [b]
            else matched)
         relatedBrands matched)
    (forInValues brandsMapping) [].

(** The loop that collects [allConnected]: the lower-cased neighbours of
    the matched aliases; [None] when a [related.forEach] throws. *)
Definition allConnected (brandsMapping : BrandsMapping)
  (matched : list jsstring) : option jsset :=
  fold_left
    (fun all b =>
       match all, relatedArray brandsMapping (toLowerCase b) with
       | Some all, Some related =>
           Some (fold_left (fun all r => setAdd all (toLowerCase r))
                   related all)
       | _, _ => None
       end)
    matched (Some []).

(** [allPossible]: the set made of the lower-cased matched aliases followed
    by the connected ones. *)
Definition allPossible (brandsMapping : BrandsMapping)
  (matched : list jsstring) : option jsset :=
  match allConnected brandsMapping matched with
  | Some connected =>
      Some (fold_left setAdd (map toLowerCase matched ++ connected) [])
  | None => None
  end.

(** The callback of the [reduce] that picks the priority alias; [None] is
    [null], and a missing index is [-1]. *)
Definition reduceStep (lowerTitle : jsstring) (best : option jsstring)
  (b : jsstring) : option jsstring :=
  match indexOf lowerTitle b with
  | None => best
  | Some idx =>
      match best with
      | None => Some b
      | Some bst =>
          match indexOf lowerTitle bst with
          | None => best
          | Some i => if i <? idx then best else Some b
          end
      end
  end.

(** The priority alias of a product with a non-empty matched list: the
    [reduce] over [allPossible], then the fallback; [None] when collecting
    the connected aliases throws. *)
Definition choosePriority (title : jsstring) (brandsMapping : BrandsMapping)
  (matched : list jsstring) : option jsstring :=
  match allPossible brandsMapping matched with
  | Some candidates =>
      match fold_left (reduceStep (toLowerCase title)) candidates None with
      | Some (c :: b) => Some (c :: b)
      | _ => Some (toLowerCase (hd [] matched))
      end
  | None => None
  end.

(** One element of the results array. *)
Record Result := {
  productTitle : jsstring;
  matchedBrands : list jsstring;
  priorityBrand : option jsstring;
  assignedBrand : option jsstring
}.

(** The body of the loop over the products: a record is pushed only for a
    product with a match; [None] when the body throws. *)
Definition processProduct (canonicalLookup : jsmap jsstring)
  (brandsMapping : BrandsMapping) (results : option (list Result))
  (p : Product) : option (list Result) :=
  match results with
  | None => None
  | Some results =>
      let matched := matchBrands (title p) brandsMapping in
      if 0 <? length matched then
        match choosePriority (title p) brandsMapping matched with
        | Some pb =>
            Some (results
                  ++ [{| productTitle := title p;
                         matchedBrands := matched;
                         priorityBrand := Some pb;
                         assignedBrand :=
                           orElse (mapGet canonicalLookup (toLowerCase pb))
                                  (Some (toLowerCase pb)) |}])
        | None => None
        end
      else Some results
  end.

(** The results array written by this version of [assignBrandIfKnown];
    [None] when building the canonical lookup or the body of the loop
    throws. *)
Definition assignBrandIfKnown (connections : list BrandConnection)
  (items : list Product) : option (list Result) :=
  let brandsMapping := getBrandsMapping connections in
  match buildCanonicalLookup brandsMapping with
  | None => None
  | Some canonicalLookup =>
      fold_left (processProduct canonicalLookup brandsMapping) items
        (Some [])
  end.

End Gated.
End Gated.

(** The first version: one position list in front of the generic test, no
    ignore list, no canonical lookup; the brand of a product is the first
    matched alias. *)
Module Oldest.

Open Scope string_scope.

Definition firstWordValidationList : jsset :=
  map js ["rich"; "rff"; "flex"; "ultra"; "gum"; "beauty"; "orto"; "free";
          "112"; "kin"; "happy"; "heel"; "contour"; "nero"; "rsv"].

Definition secondWordValidationList : jsset :=
  map js ["heel"; "contour"; "nero"; "rsv"].

Close Scope string_scope.

Section Oldest.
Context {U : Unicode}.

Definition normalizeInputIfAccentInsensitive (input : jsstring) : jsstring :=
  let isAccentInsensitive := existsb accentRange (normalizeNFD input) in
  if isAccentInsensitive then stripMarks (normalizeNFD input) else input.

(** [at2ndPosition] is computed and only logged. *)
Definition checkBrandIsSeparateTerm (input b : jsstring) : bool :=
  let escapedBrand := escapeRegExp b in
  let input := normalizeInputIfAccentInsensitive input in
  let atBeginningOrEndOrMiddle := test (edgePattern escapedBrand) input in
  if setHas firstWordValidationList b
     && negb (test (firstPattern escapedBrand) input)
  then false
  else
    let at2ndPosition := test (secondPattern escapedBrand) input in
    let separateTerm := test (termPattern escapedBrand) input in
    atBeginningOrEndOrMiddle || separateTerm.

(** The nested loop [for (const brandKey in brandsMapping)],
    [for (const brand of brandsMapping[brandKey])]. *)
Definition matchBrands (title : jsstring) (brandsMapping : BrandsMapping)
  : list jsstring :=
  fold_left
    (fun matched relatedBrands =>
       fold_left
         (fun matched b =>
            if setHas matched b then matched
            else if checkBrandIsSeparateTerm title b then matched ++ [b]
            else matched)
         relatedBrands matched)
    (forInValues brandsMapping) [].

(** The constant [brand] of each product, in the order of the products:
    [matchedBrands[0]], or [null]. *)
Definition assignBrandIfKnown (connections : list BrandConnection)
  (items : list Product) : list (option jsstring) :=
  let brandsMapping := getBrandsMapping connections in
  map (fun p =>
         let matched := matchBrands (title p) brandsMapping in
         if 0 <? length matched then Some (hd [] matched) else None)
    items.

End Oldest.
End Oldest.

(* ------------------------------------------------------------------ *)
(** ** A fragment of the Unicode tables *)

(** Canonical decomposition and combining classes of the code points that
    the closed examples of this file use; every other unit decomposes to
    itself and is taken as a starter. Case mappings are those of Basic
    Latin. *)
Module Fragment.

Definition decomposition (c : N) : jsstring :=
  (if c =? 233 then [101; 769]          (* e, acute *)
   else if c =? 269 then [99; 780]      (* c, caron *)
   else if c =? 353 then [115; 780]     (* s, caron *)
   else if c =? 382 then [122; 780]     (* z, caron *)
   else if c =? 261 then [97; 808]      (* a, ogonek *)
   else if c =? 279 then [101; 775]     (* e, dot above *)
   else if c =? 363 then [117; 772]     (* u, macron *)
   else [c])%N.

Definition combiningClass (c : N) : N :=
  (if (c =? 769) || (c =? 772) || (c =? 775) || (c =? 780) then 230
   else if c =? 808 then 202
   else if c =? 1425 then 220           (* U+0591 *)
   else if c =? 1456 then 10            (* U+05B0 *)
   else 0)%N.

(** A mark moves left over the marks of a higher class. *)
Fixpoint insertMark (c : N) (out : jsstring) : jsstring :=
  match out with
  | [] => [c]
  | x :: rest =>
      if ((0 <? combiningClass c) && (combiningClass c <? combiningClass x))%N
      then x :: insertMark c rest
      else c :: out
  end.

(** Canonical ordering; [out] holds the ordered units, last first. *)
Definition canonicalOrder (s : jsstring) : jsstring :=
  rev (fold_left (fun out c => insertMark c out) s []).

Definition nfd (s : jsstring) : jsstring :=
  canonicalOrder (flat_map decomposition s).

End Fragment.

#[export] Instance UnicodeFragment : Unicode := {|
  toLowerCase := map asciiLower;
  toUpperCase := map asciiUpper;
  normalizeNFD := Fragment.nfd;
  toLowerCase_ascii := fun s _ => eq_refl;
  toUpperCase_ascii := fun s _ => eq_refl
|}.

(* ------------------------------------------------------------------ *)
(** ** Vocabulary of the properties *)

(** [m] is the shortest string of [l], the first one among those of its
    length. *)
Definition firstShortest (m : jsstring) (l : list jsstring) : Prop :=
  exists l1 l2, l = l1 ++ m :: l2
    /\ (forall x, In x l1 -> length m < length x)
    /\ (forall x, In x l2 -> length m <= length x).

(** What the scan has found after the candidates [seen]. *)
Definition scanned (lowerTitle : jsstring) (seen : list jsstring)
  (st : option nat * option jsstring) : Prop :=
  match st with
  | (None, None) => forall c, In c seen -> indexOf lowerTitle c = None
  | (Some i, Some p) =>
      In p seen /\ indexOf lowerTitle p = Some i
      /\ forall c j, In c seen -> indexOf lowerTitle c = Some j -> i <= j
  | _ => False
  end.

(** The pattern of a literal text. *)
Fixpoint lit (w : jsstring) : regex :=
  match w with
  | [] => Eps
  | c :: w' => Seq (Chr c) (lit w')
  end.

(** [c'] is a later position of the input of [c]. *)
Definition advances (c c' : cursor) : Prop :=
  exists mid, snd c = mid ++ snd c' /\ fst c' = rev mid ++ fst c.

(** What [(\b|\s|$)] asks of a position. *)
Definition tailOk (c : cursor) : bool :=
  xorb (wordAt (fst c)) (wordAt (snd c))
  || match snd c with y :: _ => isWhiteSpace y | [] => false end
  || isNil (snd c).

(** The strings of [l] stand longest first: no string is longer than one
    that stands before it. *)
Fixpoint longestFirst (l : list jsstring) : Prop :=
  match l with
  | [] => True
  | x :: l' => (forall y, In y l' -> length y <= length x) /\ longestFirst l'
  end.

(** Every value of the relation map is a set. *)
Definition setValued (m : jsmap (list jsstring)) : Prop :=
  forall k l, In (k, l) m -> NoDup l.

(** After the spec's words: the whitespace-delimited tokens of a title. *)
Fixpoint tokensFrom (current : jsstring) (t : jsstring) : list jsstring :=
  match t with
  | [] => if isNil current then [] else [rev current]
  | c :: t' =>
      if isWhiteSpace c
      then (if isNil current then tokensFrom [] t'
            else rev current :: tokensFrom [] t')
      else tokensFrom (c :: current) t'
  end.

Definition tokens (t : jsstring) : list jsstring := tokensFrom [] t.

(** After the spec's words: the title contains the token, in its exact
    case. *)
Definition containsToken (token t : jsstring) : bool :=
  existsb (streq token) (tokens t).

(** After the spec's words: the alias is the first whitespace-delimited
    token of the title, letter case apart. *)
Definition isFirstToken (alias t : jsstring) : bool :=
  streq (map asciiLower (hd [] (tokens t))) (map asciiLower alias).

Open Scope string_scope.

(** A row of the connections table, from ASCII literals. *)
Definition connection (p1 p2 : string) : BrandConnection :=
  {| manufacturer_p1 := js p1; manufacturers_p2 := js p2 |}.

(** A product with the given title. *)
Definition item (t : string) : Product :=
  {| title := js t; source_id := js "1" |}.

Close Scope string_scope.

Section Vocabulary.
Context {U : Unicode}.

(** The matches of a pattern, as a relation between the position where a
    match starts and the position where it ends. *)
Inductive Matches : regex -> cursor -> cursor -> Prop :=
| MEps c : Matches Eps c c
| MChr x y before after :
    canonicalize x = canonicalize y ->
    Matches (Chr x) (before, y :: after) (y :: before, after)
| MClass k y before after :
    inClass k y = true ->
    Matches (Class k) (before, y :: after) (y :: before, after)
| MBol after : Matches Bol ([], after) ([], after)
| MEol before : Matches Eol (before, []) (before, [])
| MWordB c :
    xorb (wordAt (fst c)) (wordAt (snd c)) = true -> Matches WordB c c
| MSeq a b c1 c2 c3 :
    Matches a c1 c2 -> Matches b c2 c3 -> Matches (Seq a b) c1 c3
| MAltL a b c c' : Matches a c c' -> Matches (Alt a b) c c'
| MAltR a b c c' : Matches b c c' -> Matches (Alt a b) c c'
| MStarNil a c : Matches (Star a) c c
| MStarStep a c1 c2 c3 :
    Matches a c1 c2 -> Matches (Star a) c2 c3 -> Matches (Star a) c1 c3.

(** The lower-cased primary alias of a row. *)
Definition primary (c : BrandConnection) : jsstring :=
  toLowerCase (manufacturer_p1 c).

(** The lower-cased, trimmed secondary aliases of a row. *)
Definition secondaries (c : BrandConnection) : list jsstring :=
  map trim (split 59 (toLowerCase (manufacturers_p2 c))).

(** [x] and [y] are the two ends of a pair declared by row [c]. *)
Definition declares (c : BrandConnection) (x y : jsstring) : Prop :=
  exists b2, In b2 (secondaries c) /\
             ((x = primary c /\ y = b2) \/ (x = b2 /\ y = primary c)).

(** No row names the alias [__proto__], as it stands or lower-cased
    again. *)
Definition plainAliases (connections : list BrandConnection) : Prop :=
  forall c a, In c connections ->
    a = primary c \/ In a (secondaries c) ->
    a <> protoKey /\ toLowerCase a <> protoKey.

(** The candidate pool of a neighbour list: its aliases that are not
    ignored, or the whole list when all of them are. *)
Definition pool (relatedBrands : list jsstring) : list jsstring :=
  match filter (fun b => negb (ignored b)) relatedBrands with
  | [] => relatedBrands
  | b :: bs => b :: bs
  end.

(** [c] is the label chosen for a neighbour list of [es] that holds [a]. *)
Definition labelled (es : BrandsMapping) (a c : jsstring) : Prop :=
  exists k l b m, In (k, l) es /\ In b l /\ a = toLowerCase b
    /\ canonicalBrand l = Some m /\ c = toLowerCase m.

(** The text that the compiler and the per-call matchers embed in their
    patterns. *)
Definition escapedBrandOf (b : jsstring) : jsstring :=
  if streq (escapeRegExp b) (js "happy") then toUpperCase (escapeRegExp b)
  else escapeRegExp b.

(** Every entry of the normalization cache is the normal form of its key:
    true of the empty cache and kept by every call of the normalizer. *)
Definition cacheSound (cache : jsmap jsstring) : Prop :=
  forall k v, mapGet cache k = Some v ->
              v = Direct.normalizeInputIfAccentInsensitive k.

(** The normalizer called on the strings of [inputs] one after the other,
    each call with the cache the call before left. *)
Fixpoint normalizeEach (cache : jsmap jsstring) (inputs : list jsstring)
  : list jsstring * jsmap jsstring :=
  match inputs with
  | [] => ([], cache)
  | s :: rest =>
      let (r, cache') := normalizeInputIfAccentInsensitive cache s in
      let (rs, cache'') := normalizeEach cache' rest in
      (r :: rs, cache'')
  end.

(** The candidates of the scan: the matched aliases and their direct
    neighbours in the graph, lower-cased. *)
Definition candidate (g : BrandsMapping) (matched : list jsstring)
  (c : jsstring) : Prop :=
  exists m, In m matched
    /\ (c = toLowerCase m
        \/ exists r, In r (neighbours g (toLowerCase m)) /\ c = toLowerCase r).

End Vocabulary.

(* ------------------------------------------------------------------ *)
(** ** Vocabulary of the loops *)

Section Loops.
Context {U : Unicode}.

(** The loop of the matching pass, from the matched list [acc]. *)
Definition matchLoop (t : jsstring) (cache : list BrandMatchCache)
  (acc : list jsstring) : list jsstring :=
  fold_left
    (fun matched cacheEntry =>
       if setHas matched (brand cacheEntry) then matched
       else if checkBrandMatch t cacheEntry
            then matched ++ [brand cacheEntry]
            else matched) cache acc.

(** The loop over the products, from the results [acc] and the cache
    [nc]. *)
Definition productLoop (lookup : jsmap jsstring)
  (cache : list BrandMatchCache) (net : jsmap (list jsstring))
  (items : list Product) (st : list MatchResult * jsmap jsstring)
  : list MatchResult * jsmap jsstring :=
  fold_left
    (fun st p =>
       let (r, cache') := processProduct lookup cache net (snd st) p in
       (fst st ++ [r], cache'))
    items st.

End Loops.

(** The matching loop of the per-call versions over the aliases [l], from
    the matched list [acc]: [skip] is the ignore test, [accept] the verdict
    of the matcher. *)
Definition collect (skip accept : jsstring -> bool) (l acc : list jsstring)
  : list jsstring :=
  fold_left
    (fun matched b =>
       if setHas matched b || skip b then matched
       else if accept b then matched ++ [b]
       else matched)
    l acc.

(** The loop has dealt with the alias [b]: meeting it again changes
    nothing. *)
Definition settled (skip accept : jsstring -> bool) (acc : list jsstring)
  (b : jsstring) : Prop :=
  In b acc \/ skip b = true \/ accept b = false.

(** The text that a pattern text of escaped characters stands for: a
    syntax character must be escaped, and only a syntax character may
    be. *)
Fixpoint unescape (p : jsstring) : option jsstring :=
  match p with
  | [] => Some []
  | c :: p' =>
      if (c =? 92)%N then
        match p' with
        | d :: p'' =>
            if regexSpecial d then option_map (cons d) (unescape p'')
            else None
        | [] => None
        end
      else if regexSpecial c then None
      else option_map (cons c) (unescape p')
  end.

(** Among the candidates [cands] that occur in [t] at the smallest index,
    [b] is the one that stands first. *)
Definition firstOfLeftmost (t : jsstring) (cands : list jsstring)
  (b : jsstring) : Prop :=
  exists pre post i,
    cands = pre ++ b :: post /\ indexOf t b = Some i
    /\ (forall c j, In c pre -> indexOf t c = Some j -> i < j)
    /\ (forall c j, In c post -> indexOf t c = Some j -> i <= j).

(** Among the candidates [cands] that occur in [t] at the smallest index,
    [b] is the one that stands last. *)
Definition lastOfLeftmost (t : jsstring) (cands : list jsstring)
  (b : jsstring) : Prop :=
  exists pre post i,
    cands = pre ++ b :: post /\ indexOf t b = Some i
    /\ (forall c j, In c pre -> indexOf t c = Some j -> i <= j)
    /\ (forall c j, In c post -> indexOf t c = Some j -> i < j).

(* ------------------------------------------------------------------ *)
(** ** Strings, sets and dictionaries: basic facts *)

Unset Implicit Arguments.

Lemma streq_eq a b : streq a b = true <-> a = b.
Proof.
  revert b; induction a as [|x a IH]; intros [|y b]; simpl; split;
    try congruence; try reflexivity.
  - intros H; apply andb_true_iff in H as [Hx Hs].
    apply N.eqb_eq in Hx; apply IH in Hs; congruence.
  - intros H; injection H as -> ->.
    rewrite N.eqb_refl; simpl; apply IH; reflexivity.
Qed.

Lemma streq_refl a : streq a a = true.
Proof. apply streq_eq; reflexivity. Qed.

Lemma streq_neq a b : streq a b = false <-> a <> b.
Proof.
  split.
  - intros H E; apply streq_eq in E; congruence.
  - intros H; destruct (streq a b) eqn:E; [apply streq_eq in E; tauto | easy].
Qed.

Lemma streq_sym a b : streq a b = streq b a.
Proof.
  destruct (streq a b) eqn:E1, (streq b a) eqn:E2; try reflexivity.
  - apply streq_eq in E1; subst; rewrite streq_refl in E2; discriminate.
  - apply streq_eq in E2; subst; rewrite streq_refl in E1; discriminate.
Qed.

Lemma setHas_In s x : setHas s x = true <-> In x s.
Proof.
  unfold setHas; rewrite existsb_exists; split.
  - intros (y & Hy & E); apply streq_eq in E; subst; exact Hy.
  - intros H; exists x; split; [exact H | apply streq_refl].
Qed.

Lemma setHas_not_In s x : setHas s x = false <-> ~ In x s.
Proof.
  rewrite <- setHas_In; destruct (setHas s x); split; congruence.
Qed.

Lemma setAdd_In s x y : In y (setAdd s x) <-> In y s \/ y = x.
Proof.
  unfold setAdd; destruct (setHas s x) eqn:E.
  - apply setHas_In in E; split; [tauto | intros [H | ->]; assumption].
  - rewrite in_app_iff; simpl; split; intros [H | H]; auto.
    + destruct H as [H | []]; auto.
Qed.

Lemma fold_setAdd_In l : forall s y,
  In y (fold_left setAdd l s) <-> In y s \/ In y l.
Proof.
  induction l as [|x l IH]; intros s y; simpl.
  - tauto.
  - rewrite IH, setAdd_In; split; intros H; intuition (subst; auto).
Qed.

Section DictionaryFacts.
Variable V : Type.
Implicit Types (m : jsmap V) (k : jsstring).

Lemma mapGet_mapSet m k v k' :
  mapGet (mapSet m k v) k' = if streq k k' then Some v else mapGet m k'.
Proof.
  induction m as [|[k0 v0] m IH]; simpl.
  - reflexivity.
  - destruct (streq k0 k) eqn:E0; simpl.
    + apply streq_eq in E0; subst k0.
      destruct (streq k k'); reflexivity.
    + destruct (streq k0 k') eqn:E1; [|exact IH].
      apply streq_eq in E1; subst k0.
      rewrite streq_sym, E0; reflexivity.
Qed.

Lemma mapGet_mapAdjust m k f k' :
  mapGet (mapAdjust m k f) k' =
  if streq k k' then option_map f (mapGet m k) else mapGet m k'.
Proof.
  induction m as [|[k0 v0] m IH]; simpl.
  - destruct (streq k k'); reflexivity.
  - destruct (streq k0 k) eqn:E0; simpl.
    + apply streq_eq in E0; subst k0.
      destruct (streq k k'); reflexivity.
    + destruct (streq k0 k') eqn:E1.
      * apply streq_eq in E1; subst k0.
        rewrite streq_sym, E0; reflexivity.
      * exact IH.
Qed.

Lemma mapGet_In m k v : mapGet m k = Some v -> In (k, v) m.
Proof.
  induction m as [|[k0 v0] m IH]; simpl; [discriminate|].
  destruct (streq k0 k) eqn:E.
  - apply streq_eq in E; subst; intros H; injection H as ->; auto.
  - auto.
Qed.

Lemma In_mapHas m k v : In (k, v) m -> mapHas m k = true.
Proof.
  unfold mapHas; induction m as [|[k0 v0] m IH]; simpl; [tauto|].
  intros [H | H].
  - injection H as -> ->; rewrite streq_refl; reflexivity.
  - destruct (streq k0 k); [reflexivity | auto].
Qed.

Lemma map_fst_mapAdjust m k f : map fst (mapAdjust m k f) = map fst m.
Proof.
  induction m as [|[k0 v0] m IH]; simpl; [reflexivity|].
  destruct (streq k0 k); simpl; congruence.
Qed.

Lemma mapHas_keys m k : mapHas m k = true <-> In k (map fst m).
Proof.
  unfold mapHas; induction m as [|[k0 v0] m IH]; simpl.
  - split; [discriminate | tauto].
  - destruct (streq k0 k) eqn:E.
    + apply streq_eq in E; subst; tauto.
    + apply streq_neq in E; rewrite IH; tauto.
Qed.

Lemma mapSet_fresh m k v : mapHas m k = false -> mapSet m k v = m ++ [(k, v)].
Proof.
  unfold mapHas; induction m as [|[k0 v0] m IH]; simpl; [reflexivity|].
  destruct (streq k0 k); [discriminate|].
  intros H; rewrite IH by exact H; reflexivity.
Qed.

Lemma NoDup_keys_get m k v :
  NoDup (map fst m) -> In (k, v) m -> mapGet m k = Some v.
Proof.
  induction m as [|[k0 v0] m IH]; simpl; [tauto|].
  intros Hnd [H | H].
  - injection H as -> ->; rewrite streq_refl; reflexivity.
  - inversion Hnd as [|? ? Hnot Hnd']; subst.
    destruct (streq k0 k) eqn:E.
    + apply streq_eq in E; subst.
      exfalso; apply Hnot; apply in_map_iff; exists (k, v); auto.
    + auto.
Qed.

(** Copying a dictionary with distinct keys entry by entry rebuilds it. *)
Lemma rebuild_NoDup l : forall acc : jsmap V,
  NoDup (map fst (acc ++ l)) ->
  fold_left (fun o e => mapSet o (fst e) (snd e)) l acc = acc ++ l.
Proof.
  induction l as [|[k v] l IH]; intros acc Hnd; simpl.
  - rewrite app_nil_r; reflexivity.
  - assert (Hfresh : mapHas acc k = false).
    { destruct (mapHas acc k) eqn:E; [|reflexivity].
      apply mapHas_keys in E.
      rewrite map_app in Hnd; simpl in Hnd.
      apply NoDup_remove_2 in Hnd; exfalso; apply Hnd.
      apply in_or_app; auto. }
    rewrite mapSet_fresh by exact Hfresh.
    rewrite IH; rewrite <- app_assoc; simpl; [reflexivity | exact Hnd].
Qed.

End DictionaryFacts.

(* ------------------------------------------------------------------ *)
(** ** The alias graph: edges and keys *)

Lemma split_nonempty sep s : split sep s <> [].
Proof.
  destruct s as [|c s]; simpl; [discriminate|].
  destruct (c =? sep)%N; [discriminate|].
  destruct (split sep s); discriminate.
Qed.

Section GraphFacts.
Context {U : Unicode}.

Lemma secondaries_nonempty c : secondaries c <> [].
Proof.
  unfold secondaries; intros H; apply map_eq_nil in H.
  exact (split_nonempty _ _ H).
Qed.

Lemma mapHas_ensure (m : jsmap jsset) k k' :
  mapHas (if mapHas m k then m else mapSet m k []) k' =
  mapHas m k' || streq k k'.
Proof.
  destruct (mapHas m k) eqn:E.
  - destruct (streq k k') eqn:E'; [|rewrite orb_false_r; reflexivity].
    apply streq_eq in E'; subst; rewrite E; reflexivity.
  - unfold mapHas at 1; rewrite mapGet_mapSet.
    destruct (streq k k') eqn:E'; [rewrite orb_true_r; reflexivity|].
    rewrite orb_false_r; reflexivity.
Qed.

Lemma neighbours_ensure (m : jsmap jsset) k x :
  neighbours (if mapHas m k then m else mapSet m k []) x = neighbours m x.
Proof.
  destruct (mapHas m k) eqn:E; [reflexivity|].
  unfold neighbours; rewrite mapGet_mapSet.
  destruct (streq k x) eqn:E'; [|reflexivity].
  apply streq_eq in E'; subst x.
  unfold mapHas in E; destruct (mapGet m k); [discriminate | reflexivity].
Qed.

Lemma mapHas_mapAdjust (m : jsmap jsset) k f k' :
  mapHas (mapAdjust m k f) k' = mapHas m k'.
Proof.
  unfold mapHas; rewrite mapGet_mapAdjust.
  destruct (streq k k') eqn:E; [|reflexivity].
  apply streq_eq in E; subst k'; destruct (mapGet m k); reflexivity.
Qed.

Lemma neighbours_add (m : jsmap jsset) k z x y :
  mapHas m k = true ->
  In y (neighbours (mapAdjust m k (fun s => setAdd s z)) x) <->
  In y (neighbours m x) \/ (x = k /\ y = z).
Proof.
  intros Hk; unfold neighbours; rewrite mapGet_mapAdjust.
  unfold mapHas in Hk.
  destruct (streq k x) eqn:E.
  - apply streq_eq in E; subst x.
    destruct (mapGet m k) as [s|]; [|discriminate]; simpl.
    rewrite setAdd_In; intuition.
  - apply streq_neq in E.
    split; [auto | intros [H | [-> _]]; [exact H | congruence]].
Qed.

Lemma linkBrand_has brand1 m brand2 k :
  mapHas (linkBrand brand1 m brand2) k = mapHas m k || streq brand2 k.
Proof.
  unfold linkBrand; rewrite !mapHas_mapAdjust; apply mapHas_ensure.
Qed.

Lemma linkBrand_neighbours brand1 m brand2 x y :
  mapHas m brand1 = true ->
  In y (neighbours (linkBrand brand1 m brand2) x) <->
  In y (neighbours m x)
  \/ (x = brand1 /\ y = brand2) \/ (x = brand2 /\ y = brand1).
Proof.
  intros H1; unfold linkBrand.
  set (m1 := if mapHas m brand2 then m else mapSet m brand2 []).
  assert (H11 : mapHas m1 brand1 = true)
    by (unfold m1; rewrite mapHas_ensure, H1; reflexivity).
  assert (H12 : mapHas m1 brand2 = true)
    by (unfold m1; rewrite mapHas_ensure, streq_refl, orb_true_r; reflexivity).
  rewrite neighbours_add by (rewrite mapHas_mapAdjust; exact H12).
  rewrite neighbours_add by exact H11.
  unfold m1; rewrite neighbours_ensure; tauto.
Qed.

Lemma fold_link brand1 l : forall m x y,
  mapHas m brand1 = true ->
  mapHas (fold_left (linkBrand brand1) l m) brand1 = true /\
  (In y (neighbours (fold_left (linkBrand brand1) l m) x) <->
   In y (neighbours m x)
   \/ exists b2, In b2 l /\
        ((x = brand1 /\ y = b2) \/ (x = b2 /\ y = brand1))).
Proof.
  induction l as [|b l IH]; intros m x y H1; simpl.
  - split; [exact H1|]. split; [auto | intros [H | (b2 & [] & _)]; exact H].
  - assert (H1' : mapHas (linkBrand brand1 m b) brand1 = true)
      by (rewrite linkBrand_has, H1; reflexivity).
    destruct (IH _ x y H1') as [Hh Hn]; split; [exact Hh|].
    rewrite Hn, linkBrand_neighbours by exact H1.
    split.
    + intros [[H | H] | (b2 & Hb & H)]; auto.
      * right; exists b; auto.
      * right; exists b2; auto.
    + intros [H | (b2 & [-> | Hb] & H)]; auto.
      right; exists b2; auto.
Qed.

Lemma fold_link_has brand1 l : forall m k,
  mapHas (fold_left (linkBrand brand1) l m) k =
  mapHas m k || setHas l k.
Proof.
  induction l as [|b l IH]; intros m k; simpl.
  - rewrite orb_false_r; reflexivity.
  - rewrite IH, linkBrand_has, (streq_sym k b), orb_assoc; reflexivity.
Qed.

Lemma addConnection_neighbours m c x y :
  In y (neighbours (addConnection m c) x) <->
  In y (neighbours m x) \/ declares c x y.
Proof.
  unfold addConnection.
  set (m1 := if mapHas m _ then m else _).
  assert (H1 : mapHas m1 (toLowerCase (manufacturer_p1 c)) = true)
    by (unfold m1; rewrite mapHas_ensure, streq_refl, orb_true_r; reflexivity).
  destruct (fold_link _ (map trim (split 59 (toLowerCase (manufacturers_p2 c))))
              m1 x y H1) as [_ Hn].
  rewrite Hn; unfold m1; rewrite neighbours_ensure; reflexivity.
Qed.

Lemma addConnection_has m c k :
  mapHas (addConnection m c) k =
  mapHas m k || streq (primary c) k || setHas (secondaries c) k.
Proof.
  unfold addConnection; rewrite fold_link_has, mapHas_ensure; reflexivity.
Qed.

Lemma brandMap_neighbours cs : forall m x y,
  In y (neighbours (fold_left addConnection cs m) x) <->
  In y (neighbours m x) \/ exists c, In c cs /\ declares c x y.
Proof.
  induction cs as [|c cs IH]; intros m x y; simpl.
  - split; [auto | intros [H | (c & [] & _)]; exact H].
  - rewrite IH, addConnection_neighbours; split.
    + intros [[H | H] | (c' & Hc & H)]; eauto.
    + intros [H | (c' & [-> | Hc] & H)]; eauto.
Qed.

Lemma brandMap_has cs : forall m k,
  mapHas (fold_left addConnection cs m) k = true <->
  mapHas m k = true
  \/ exists c, In c cs /\ (k = primary c \/ In k (secondaries c)).
Proof.
  induction cs as [|c cs IH]; intros m k; simpl.
  - split; [auto | intros [H | (c & [] & _)]; exact H].
  - rewrite IH, addConnection_has, !orb_true_iff, streq_eq, setHas_In; split.
    + intros [[[H | H] | H] | (c' & Hc & H)]; eauto 6.
    + intros [H | (c' & [-> | Hc] & [H | H])]; eauto 6.
Qed.

End GraphFacts.

Section GraphKeys.
Context {U : Unicode}.

Lemma NoDup_ensure (m : jsmap jsset) k :
  NoDup (map fst m) ->
  NoDup (map fst (if mapHas m k then m else mapSet m k [])).
Proof.
  intros H; destruct (mapHas m k) eqn:E; [exact H|].
  rewrite mapSet_fresh by exact E.
  rewrite map_app; simpl.
  apply NoDup_app_remove_l with (l := []); simpl.
  apply NoDup_rev in H; rewrite <- (rev_involutive (map fst m ++ [k])).
  apply NoDup_rev; rewrite rev_app_distr; simpl.
  constructor; [|exact H].
  rewrite <- in_rev; intros Hin; apply mapHas_keys in Hin; congruence.
Qed.

Lemma NoDup_linkBrand brand1 m brand2 :
  NoDup (map fst m) -> NoDup (map fst (linkBrand brand1 m brand2)).
Proof.
  intros H; unfold linkBrand; rewrite !map_fst_mapAdjust.
  apply NoDup_ensure; exact H.
Qed.

Lemma NoDup_fold_link brand1 l : forall m,
  NoDup (map fst m) -> NoDup (map fst (fold_left (linkBrand brand1) l m)).
Proof.
  induction l as [|b l IH]; intros m H; simpl; [exact H|].
  apply IH, NoDup_linkBrand; exact H.
Qed.

Lemma NoDup_addConnection m c :
  NoDup (map fst m) -> NoDup (map fst (addConnection m c)).
Proof.
  intros H; unfold addConnection; cbv zeta.
  apply NoDup_fold_link, NoDup_ensure; exact H.
Qed.

Lemma NoDup_brandMapOf cs : NoDup (map fst (brandMapOf cs)).
Proof.
  unfold brandMapOf.
  assert (H : NoDup (map fst (@nil (jsstring * list jsstring))))
    by constructor.
  revert H; generalize (@nil (jsstring * list jsstring)).
  induction cs as [|c cs IH]; intros m H; simpl; [exact H|].
  apply IH, NoDup_addConnection; exact H.
Qed.

(** The object returned by [getBrandsMapping] has the entries of the
    relation map, in the same order. *)
Lemma objectAssign_mapSet (o : BrandsMapping) k v :
  objectAssign o k v = mapSet o k v.
Proof.
  unfold objectAssign; destruct (streq k protoKey) eqn:E; [|reflexivity].
  apply streq_eq in E; subst k; reflexivity.
Qed.

Lemma getBrandsMapping_brandMapOf cs : getBrandsMapping cs = brandMapOf cs.
Proof.
  unfold getBrandsMapping.
  transitivity
    (fold_left (fun o e => mapSet o (fst e) (snd e)) (brandMapOf cs) []).
  - generalize (@nil (jsstring * list jsstring)).
    induction (brandMapOf cs) as [|e m IH]; intros o; simpl; [reflexivity|].
    rewrite objectAssign_mapSet; apply IH.
  - rewrite rebuild_NoDup; [reflexivity | apply NoDup_brandMapOf].
Qed.

(** The edges of the graph are the pairs the rows declare. *)
Lemma graph_edges cs x y :
  In y (neighbours (getBrandsMapping cs) x) <->
  exists c, In c cs /\ declares c x y.
Proof.
  rewrite getBrandsMapping_brandMapOf; unfold brandMapOf.
  rewrite brandMap_neighbours; simpl; tauto.
Qed.

(** The keys of the graph are the aliases the rows name. *)
Lemma graph_keys cs k :
  mapHas (getBrandsMapping cs) k = true <->
  exists c, In c cs /\ (k = primary c \/ In k (secondaries c)).
Proof.
  rewrite getBrandsMapping_brandMapOf; unfold brandMapOf.
  rewrite brandMap_has; simpl.
  split; [intros [H | H]; [discriminate | exact H] | auto].
Qed.

Lemma declares_sym c x y : declares c x y -> declares c y x.
Proof. intros (b2 & Hb & H); exists b2; tauto. Qed.

Lemma neighbours_sym cs a b :
  In b (neighbours (getBrandsMapping cs) a) ->
  In a (neighbours (getBrandsMapping cs) b).
Proof.
  rewrite !graph_edges; intros (c & Hc & Hd).
  exists c; split; auto using declares_sym.
Qed.

(** Every key of the graph has a neighbour. *)
Lemma graph_key_has_neighbour cs k :
  mapHas (getBrandsMapping cs) k = true ->
  exists y, In y (neighbours (getBrandsMapping cs) k).
Proof.
  intros H; apply graph_keys in H as (c & Hc & [-> | Hk]).
  - destruct (secondaries c) as [|b l] eqn:E;
      [exfalso; exact (secondaries_nonempty c E)|].
    exists b; apply graph_edges; exists c; split; [exact Hc|].
    exists b; rewrite E; simpl; auto.
  - exists (primary c); apply graph_edges; exists c; split; [exact Hc|].
    exists k; auto.
Qed.

End GraphKeys.

(* ------------------------------------------------------------------ *)
(** ** The canonical lookup *)

Lemma firstShortest_In m l : firstShortest m l -> In m l.
Proof.
  intros (l1 & l2 & -> & _); apply in_or_app; simpl; auto.
Qed.

Lemma fold_shorter xs : forall seen m,
  firstShortest m seen ->
  firstShortest (fold_left shorter xs m) (seen ++ xs).
Proof.
  induction xs as [|x xs IH]; intros seen m H; simpl.
  - rewrite app_nil_r; exact H.
  - replace (seen ++ x :: xs) with ((seen ++ [x]) ++ xs)
      by (rewrite <- app_assoc; reflexivity).
    apply IH; unfold shorter.
    destruct H as (l1 & l2 & -> & H1 & H2).
    destruct (length x <? length m) eqn:E.
    + apply Nat.ltb_lt in E.
      exists (l1 ++ m :: l2), []; split; [reflexivity|]; split; [|easy].
      intros y Hy; apply in_app_iff in Hy as [Hy | [<- | Hy]].
      * specialize (H1 _ Hy); lia.
      * exact E.
      * specialize (H2 _ Hy); lia.
    + apply Nat.ltb_ge in E.
      exists l1, (l2 ++ [x]); split; [|split; [exact H1|]].
      * rewrite <- app_assoc; reflexivity.
      * intros y Hy; apply in_app_iff in Hy as [Hy | [<- | []]]; auto.
Qed.

Lemma reduceShortest_spec l m :
  reduceShortest l = Some m -> firstShortest m l.
Proof.
  destruct l as [|x xs]; simpl; [discriminate|].
  intros H; injection H as <-.
  apply (fold_shorter xs [x]).
  exists [], []; simpl; split; [reflexivity | split; easy].
Qed.

Lemma reduceShortest_some l : l <> [] -> exists m, reduceShortest l = Some m.
Proof. destruct l; [congruence | simpl; eauto]. Qed.

Section ObjectFacts.
Variable V : Type.

Lemma In_insertIndexed (e x : N * (jsstring * V)) l :
  In x (insertIndexed e l) <-> x = e \/ In x l.
Proof.
  induction l as [|e' l IH]; simpl.
  - intuition.
  - destruct (fst e <? fst e')%N; simpl; [intuition|].
    rewrite IH; intuition.
Qed.

Lemma In_indexedKeys (o : jsmap V) n kv :
  In (n, kv) (indexedKeys o) <-> In kv o /\ arrayIndex (fst kv) = Some n.
Proof.
  induction o as [|[k v] o IH]; simpl.
  - tauto.
  - destruct (arrayIndex k) as [i|] eqn:E.
    + rewrite In_insertIndexed, IH; split.
      * intros [H | [H1 H2]]; [|auto].
        injection H as -> ->; simpl; auto.
      * intros [[<- | H1] H2]; [|auto].
        simpl in H2; left; congruence.
    + rewrite IH; split; [tauto|].
      intros [[<- | H1] H2]; [simpl in H2; congruence | auto].
Qed.

(** [Object.entries] lists exactly the own properties: the entries of the
    object, the prototype link apart. *)
Lemma In_objectEntries (o : jsmap V) kv :
  In kv (objectEntries o) <-> In kv o /\ fst kv <> protoKey.
Proof.
  unfold objectEntries, namedKeys.
  rewrite in_app_iff, in_map_iff, filter_In; split.
  - intros [([n kv'] & <- & H) | [H Hf]].
    + apply In_indexedKeys in H as [H Hi]; simpl; split; [exact H|].
      intros E; rewrite E in Hi; discriminate.
    + split; [exact H|].
      destruct (arrayIndex (fst kv)); [discriminate|].
      apply streq_neq; destruct (streq (fst kv) protoKey);
        [discriminate | reflexivity].
  - intros [H Hn]; destruct (arrayIndex (fst kv)) as [n|] eqn:E.
    + left; exists (n, kv); split; [reflexivity|].
      apply In_indexedKeys; auto.
    + right; split; [exact H|].
      rewrite (proj2 (streq_neq _ _) Hn); reflexivity.
Qed.

Lemma insertIndexed_perm (e : N * (jsstring * V)) l :
  Permutation (e :: l) (insertIndexed e l).
Proof.
  induction l as [|x l IH]; simpl; [constructor; constructor|].
  destruct (fst e <? fst x)%N; [apply Permutation_refl|].
  etransitivity; [apply perm_swap | apply perm_skip, IH].
Qed.

(** [Object.entries] rearranges the own properties. *)
Lemma objectEntries_perm (o : jsmap V) :
  Permutation (objectEntries o)
    (filter (fun kv => negb (streq (fst kv) protoKey)) o).
Proof.
  unfold objectEntries, namedKeys.
  induction o as [|[k v] o IH]; simpl; [constructor|].
  destruct (arrayIndex k) as [n|] eqn:E; simpl.
  - assert (Hk : streq k protoKey = false).
    { apply streq_neq; intros ->; discriminate. }
    rewrite Hk; simpl.
    etransitivity; [|apply perm_skip, IH].
    etransitivity;
      [apply Permutation_app_tail, Permutation_map, Permutation_sym,
         insertIndexed_perm|].
    apply Permutation_refl.
  - destruct (streq k protoKey); simpl; [exact IH|].
    etransitivity; [apply Permutation_sym, Permutation_middle|].
    apply perm_skip, IH.
Qed.

Lemma NoDup_objectEntries (o : jsmap V) :
  NoDup (map fst o) -> NoDup (map fst (objectEntries o)).
Proof.
  intros H.
  apply (Permutation_NoDup
           (Permutation_map fst (Permutation_sym (objectEntries_perm o)))).
  clear - H; induction o as [|[k v] o IH]; simpl; [constructor|].
  simpl in H; inversion H as [|? ? Hk Ho]; subst.
  destruct (streq k protoKey); simpl; [exact (IH Ho)|].
  constructor; [|exact (IH Ho)].
  intros Hin; apply Hk.
  apply in_map_iff in Hin as (kv & <- & Hkv); apply filter_In in Hkv.
  apply in_map; tauto.
Qed.

Lemma objectEntries_In (o : jsmap V) kv : In kv (objectEntries o) -> In kv o.
Proof. intros H; apply In_objectEntries in H; tauto. Qed.

Lemma objectEntries_own (o : jsmap V) k v :
  In (k, v) o -> k <> protoKey -> In (k, v) (objectEntries o).
Proof. intros H Hk; apply In_objectEntries; auto. Qed.

End ObjectFacts.

Section LookupFacts.
Context {U : Unicode}.

Lemma canonicalBrand_pool l : canonicalBrand l = reduceShortest (pool l).
Proof.
  unfold canonicalBrand, pool.
  destruct (filter (fun b => negb (ignored b)) l); reflexivity.
Qed.

Lemma pool_incl l x : In x (pool l) -> In x l.
Proof.
  unfold pool.
  destruct (filter (fun b => negb (ignored b)) l) as [|b bs] eqn:E;
    [auto|].
  rewrite <- E; intros H; apply filter_In in H; tauto.
Qed.

Lemma pool_nonempty l : l <> [] -> pool l <> [].
Proof.
  unfold pool; destruct (filter _ l); [auto | discriminate].
Qed.

Lemma canonicalBrand_In l m : canonicalBrand l = Some m -> In m l.
Proof.
  rewrite canonicalBrand_pool; intros H.
  apply pool_incl, firstShortest_In, reduceShortest_spec; exact H.
Qed.

Lemma mapGet_lookupAssign (lk : jsmap jsstring) k v a :
  mapGet (lookupAssign lk k v) a
  = if streq k a && negb (streq k protoKey) then Some v else mapGet lk a.
Proof.
  unfold lookupAssign; destruct (streq k protoKey); simpl.
  - rewrite andb_false_r; reflexivity.
  - rewrite mapGet_mapSet, andb_true_r; reflexivity.
Qed.

Lemma fill_lookup cb l : forall (lk : jsmap jsstring) a c,
  mapGet (fold_left (fun lk b => lookupAssign lk (toLowerCase b) cb) l lk) a
    = Some c ->
  mapGet lk a = Some c \/ (exists b, In b l /\ a = toLowerCase b) /\ c = cb.
Proof.
  induction l as [|b l IH]; intros lk a c H; simpl in H; [auto|].
  apply IH in H as [H | [(b' & Hb & ->) ->]].
  - rewrite mapGet_lookupAssign in H.
    destruct (streq (toLowerCase b) a) eqn:E; [|auto].
    destruct (streq (toLowerCase b) protoKey); simpl in H; [auto|].
    apply streq_eq in E; injection H as <-.
    right; split; [exists b; simpl; auto | reflexivity].
  - right; split; [exists b'; simpl; auto | reflexivity].
Qed.

Lemma fill_lookup_has cb l : forall (lk : jsmap jsstring) a,
  mapHas (fold_left (fun lk b => lookupAssign lk (toLowerCase b) cb) l lk) a =
  mapHas lk a || (setHas (map toLowerCase l) a && negb (streq a protoKey)).
Proof.
  induction l as [|b l IH]; intros lk a; simpl.
  - rewrite orb_false_r; reflexivity.
  - rewrite IH; unfold mapHas at 1; rewrite mapGet_lookupAssign.
    rewrite (streq_sym a (toLowerCase b)).
    destruct (streq (toLowerCase b) a) eqn:E; simpl; [|reflexivity].
    apply streq_eq in E; subst a.
    destruct (streq (toLowerCase b) protoKey); simpl.
    + rewrite ?andb_false_r, ?orb_false_r; reflexivity.
    + rewrite ?andb_true_r, ?orb_true_r; reflexivity.
Qed.

Lemma canonical_fold_None es : fold_left canonicalStep es None = None.
Proof. induction es; simpl; auto. Qed.

Lemma canonical_fold es : forall lk lk' a c,
  fold_left canonicalStep es (Some lk) = Some lk' ->
  mapGet lk' a = Some c ->
  mapGet lk a = Some c \/ labelled es a c.
Proof.
  induction es as [|[k l] es IH]; intros lk lk' a c Hf Hg; simpl in Hf.
  - injection Hf as <-; auto.
  - destruct (canonicalBrand l) as [m|] eqn:Em;
      [|rewrite canonical_fold_None in Hf; discriminate].
    destruct (IH _ _ _ _ Hf Hg) as [H | (k' & l' & b & m' & H)].
    + apply fill_lookup in H as [H | [(b & Hb & ->) ->]]; [auto|].
      right; exists k, l, b, m; simpl; auto.
    + right; exists k', l', b, m'; simpl; tauto.
Qed.

Lemma canonical_fold_total es : forall lk,
  (forall k l, In (k, l) es -> l <> []) ->
  exists lk', fold_left canonicalStep es (Some lk) = Some lk'
    /\ forall a, mapHas lk a = true
                 \/ (a <> protoKey
                     /\ exists k l b, In (k, l) es /\ In b l
                                      /\ a = toLowerCase b)
                 -> mapHas lk' a = true.
Proof.
  induction es as [|[k l] es IH]; intros lk Hne; simpl.
  - exists lk; split; [reflexivity|].
    intros a [H | (_ & k & l & b & [] & _)]; exact H.
  - assert (Hl : l <> []) by (apply (Hne k); simpl; auto).
    destruct (reduceShortest_some _ (pool_nonempty _ Hl)) as [m Hm].
    rewrite canonicalBrand_pool, Hm.
    edestruct IH as (lk' & Hf & Hk);
      [intros k' l' H'; apply (Hne k'); simpl; auto|].
    exists lk'; split; [exact Hf|].
    intros a [H | (Hp & k' & l' & b & [H | H] & Hb & ->)]; apply Hk.
    + left; rewrite fill_lookup_has, H; reflexivity.
    + injection H as <- <-; left; rewrite fill_lookup_has.
      apply orb_true_iff; right; apply andb_true_iff; split.
      * apply setHas_In, in_map; exact Hb.
      * rewrite (proj2 (streq_neq _ _) Hp); reflexivity.
    + right; split; [exact Hp|]; exists k', l', b; auto.
Qed.

End LookupFacts.

(* ------------------------------------------------------------------ *)
(** ** Properties of the graph builder *)

Open Scope string_scope.

(** C5. The alias graph built from any sequence of brand-relation rows is
    symmetric: [b] is a neighbour of [a] exactly when [a] is a neighbour of
    [b]. *)
Theorem graph_symmetric `{Unicode} (connections : list BrandConnection)
  (a b : jsstring) :
  In b (neighbours (getBrandsMapping connections) a) <->
  In a (neighbours (getBrandsMapping connections) b).
Proof.
  split; apply neighbours_sym.
Qed.

(** C7, as the claim states it, fails: a row whose secondary text is empty
    adds the empty alias to the graph, so the graph differs from the one
    built without the row. *)
Lemma empty_secondary_adds_edges :
  getBrandsMapping [connection "acme" ""]
    = [(js "acme", [js ""]); (js "", [js "acme"])]
  /\ getBrandsMapping [] = []
  /\ getBrandsMapping [connection "acme" ""] <> getBrandsMapping [].
Proof.
  split; [vm_compute; reflexivity|].
  split; [reflexivity|].
  vm_compute; discriminate.
Qed.

(** C7, amended. A row whose secondary text is empty links its lower-cased
    primary alias with the empty alias, in both directions, wherever the row
    stands in the input; the builder is a total function, so no error is
    raised. *)
Theorem empty_secondary_links_empty_alias `{Unicode}
  (before after : list BrandConnection) (c : BrandConnection) :
  manufacturers_p2 c = [] ->
  let g := getBrandsMapping (before ++ c :: after) in
  In [] (neighbours g (toLowerCase (manufacturer_p1 c)))
  /\ In (toLowerCase (manufacturer_p1 c)) (neighbours g []).
Proof.
  intros Hp2 g.
  assert (Hs : In [] (secondaries c)).
  { unfold secondaries; rewrite Hp2.
    rewrite (toLowerCase_ascii [] eq_refl); simpl; auto. }
  assert (Hc : In c (before ++ c :: after))
    by (apply in_or_app; simpl; auto).
  split; apply graph_edges; exists c; (split; [exact Hc|]);
    exists []; (split; [exact Hs|]); auto.
Qed.

Lemma empty_secondary_links_empty_alias_witness :
  let g := getBrandsMapping ([connection "heel" "contour"]
                               ++ connection "Acme" "" :: []) in
  In [] (neighbours g (js "acme")) /\ In (js "acme") (neighbours g []).
Proof.
  exact (@empty_secondary_links_empty_alias UnicodeFragment
           [connection "heel" "contour"] [] (connection "Acme" "") eq_refl).
Defined.

Close Scope string_scope.

(* ------------------------------------------------------------------ *)
(** ** Properties of the canonical lookup builder *)

Section LookupTheorems.
Context {U : Unicode}.

Lemma graph_entries_nonempty cs k l :
  In (k, l) (getBrandsMapping cs) -> l <> [].
Proof.
  intros Hin Hl.
  pose proof (In_mapHas _ _ _ _ Hin) as Hk.
  apply graph_key_has_neighbour in Hk as [y Hy].
  unfold neighbours in Hy.
  rewrite (NoDup_keys_get _ (getBrandsMapping cs) k l) in Hy.
  - subst l; exact Hy.
  - rewrite getBrandsMapping_brandMapOf; apply NoDup_brandMapOf.
  - exact Hin.
Qed.


(** The aliases that the rows name are ordinary keys. *)
Lemma plainAliases_keys cs a :
  plainAliases cs ->
  mapHas (getBrandsMapping cs) a = true ->
  a <> protoKey /\ toLowerCase a <> protoKey.
Proof.
  intros Hp Ha; apply graph_keys in Ha as (c & Hc & Hn).
  exact (Hp c a Hc Hn).
Qed.


(** C6, amended. Every label of the canonical lookup is the label chosen
    for a neighbour list that holds the alias: [canonical(a)] and [a] are,
    up to lower-casing, members of one neighbour list [graph[k]]. *)
Theorem canonical_shares_neighbour_list (g : BrandsMapping)
  (canonicalLookup : jsmap jsstring) (a c : jsstring) :
  buildCanonicalLookup g = Some canonicalLookup ->
  mapGet canonicalLookup a = Some c ->
  exists k l b m,
    In (k, l) g /\ In b l /\ In m l
    /\ a = toLowerCase b /\ c = toLowerCase m
    /\ canonicalBrand l = Some m.
Proof.
  intros Hb Hg.
  destruct (canonical_fold _ _ _ _ _ Hb Hg) as [H | (k & l & b & m & H)];
    [discriminate|].
  destruct H as (Hin & Hbl & -> & Hm & ->).
  exists k, l, b, m; repeat split; auto.
  - apply objectEntries_In; exact Hin.
  - apply canonicalBrand_In; exact Hm.
Qed.

End LookupTheorems.

Open Scope string_scope.




(** C6, as the claim states it, fails on both counts: with the rows
    [k1 - aa;bbb] and [k2 - aa;c] the label of [bbb] is [aa], which is
    neither [bbb] nor a neighbour of [bbb], and the label of [aa] is [c]. *)
Lemma canonical_not_neighbour_nor_idempotent :
  let g := getBrandsMapping [connection "k1" "aa;bbb"; connection "k2" "aa;c"] in
  exists canonicalLookup,
    buildCanonicalLookup g = Some canonicalLookup
    /\ mapGet canonicalLookup (js "bbb") = Some (js "aa")
    /\ ~ In (js "aa") (js "bbb" :: neighbours g (js "bbb"))
    /\ mapGet canonicalLookup (js "aa") = Some (js "c")
    /\ js "c" <> js "aa".
Proof.
  eexists; split; [vm_compute; reflexivity|].
  split; [vm_compute; reflexivity|].
  split; [vm_compute; intuition discriminate|].
  split; [vm_compute; reflexivity | vm_compute; discriminate].
Qed.

Lemma canonical_shares_neighbour_list_witness :
  exists k l b m,
    In (k, l) (getBrandsMapping [connection "k1" "aa;bbb"])
    /\ In b l /\ In m l
    /\ js "bbb" = toLowerCase b /\ js "aa" = toLowerCase m
    /\ canonicalBrand l = Some m.
Proof.
  apply (@canonical_shares_neighbour_list UnicodeFragment
           (getBrandsMapping [connection "k1" "aa;bbb"])
           [(js "aa", js "aa"); (js "bbb", js "aa"); (js "k1", js "k1")]).
  - vm_compute; reflexivity.
  - vm_compute; reflexivity.
Defined.

Close Scope string_scope.

(* ------------------------------------------------------------------ *)
(** ** Regular expressions: facts about the matcher *)

Lemma advances_refl c : advances c c.
Proof. exists []; auto. Qed.

Lemma advances_trans c1 c2 c3 :
  advances c1 c2 -> advances c2 c3 -> advances c1 c3.
Proof.
  intros (m1 & H1 & H1') (m2 & H2 & H2'); exists (m1 ++ m2).
  rewrite H1, H2, H2', H1', rev_app_distr, !app_assoc; auto.
Qed.

Lemma isWhiteSpace_not_word c : isWhiteSpace c = true -> isWordChar c = false.
Proof.
  unfold isWhiteSpace, isWordChar; intros H.
  repeat rewrite ?orb_true_iff, ?andb_true_iff in H.
  repeat rewrite ?orb_false_iff, ?andb_false_iff.
  rewrite ?N.leb_le, ?N.eqb_eq in H.
  rewrite ?N.leb_gt, ?N.eqb_neq.
  lia.
Qed.

Lemma regexSpecial_backslash c :
  regexSpecial c = false -> (c =? 92)%N = false.
Proof.
  unfold regexSpecial; simpl; intros H.
  repeat (apply orb_false_iff in H as [? H]).
  assumption.
Qed.

Lemma escapeRegExp_nil b : escapeRegExp b = [] -> b = [].
Proof.
  destruct b as [|c b]; [reflexivity|].
  unfold escapeRegExp; simpl; destruct (regexSpecial c); discriminate.
Qed.

Lemma existsb_orb A (f g : A -> bool) l :
  existsb (fun x => f x || g x) l = existsb f l || existsb g l.
Proof.
  induction l as [|x l IH]; simpl; [reflexivity|].
  rewrite IH; destruct (f x), (g x), (existsb f l), (existsb g l);
    reflexivity.
Qed.

Lemma In_cursorsFrom c : forall after before,
  In c (cursorsFrom before after) <->
  exists l, after = l ++ snd c /\ fst c = rev l ++ before.
Proof.
  induction after as [|y rest IH]; intros before; simpl.
  - split.
    + intros [<- | []]; exists []; auto.
    + intros (l & Hl & Hf); left.
      symmetry in Hl; apply app_eq_nil in Hl as [-> Hs].
      destruct c; simpl in *; congruence.
  - rewrite IH; split.
    + intros [<- | (l & Hl & Hf)]; [exists []; auto|].
      exists (y :: l); simpl; rewrite Hl, Hf, <- app_assoc; auto.
    + intros ([|z l] & Hl & Hf); simpl in *.
      * left; destruct c; simpl in *; congruence.
      * right; injection Hl as -> ->; exists l.
        rewrite <- app_assoc in Hf; auto.
Qed.

Lemma advances_cursorsFrom t c :
  advances ([], t) c -> In c (cursorsFrom [] t).
Proof.
  intros (mid & H1 & H2); apply In_cursorsFrom; exists mid; auto.
Qed.

Section RegexFacts.
Context {U : Unicode}.

Lemma atoms_escape b : atoms (escapeRegExp b) = lit b.
Proof.
  induction b as [|c b IH]; [reflexivity|].
  unfold escapeRegExp in *; simpl.
  destruct (regexSpecial c) eqn:E; simpl.
  - rewrite IH; reflexivity.
  - apply regexSpecial_backslash in E; rewrite E, IH.
    destruct (flat_map _ b) as [|d p] eqn:Ep; [|reflexivity].
    apply escapeRegExp_nil in Ep; subst b; reflexivity.
Qed.

Lemma matchesAt_iff r c : matchesAt r c = true <-> exists c', In c' (ends r c).
Proof.
  unfold matchesAt; destruct (ends r c) as [|c' l]; split.
  - discriminate.
  - intros (c' & []).
  - exists c'; simpl; auto.
  - reflexivity.
Qed.

Lemma test_iff r t :
  test r t = true <->
  exists c c', In c (cursorsFrom [] t) /\ In c' (ends r c).
Proof.
  unfold test; rewrite existsb_exists; split.
  - intros (c & Hc & Hm); apply matchesAt_iff in Hm as [c' Hc']; eauto.
  - intros (c & c' & Hc & Hc'); exists c; split; [exact Hc|].
    apply matchesAt_iff; eauto.
Qed.

Lemma test_Alt a b t : test (Alt a b) t = test a t || test b t.
Proof.
  unfold test; rewrite <- existsb_orb.
  induction (cursorsFrom [] t) as [|c l IH]; simpl; [reflexivity|].
  rewrite IH; f_equal.
  unfold matchesAt; simpl.
  destruct (ends a c), (ends b c); reflexivity.
Qed.

Lemma no_Bol_later r : forall after before,
  before <> [] ->
  existsb (matchesAt (Seq Bol r)) (cursorsFrom before after) = false.
Proof.
  induction after as [|y rest IH]; intros before Hb; simpl;
    unfold matchesAt at 1; simpl; destruct before; try congruence; simpl.
  - reflexivity.
  - apply IH; discriminate.
Qed.

(** A pattern anchored with [^] is tried at the start of the input only. *)
Lemma test_Bol r t : test (Seq Bol r) t = matchesAt r ([], t).
Proof.
  unfold test; destruct t as [|y rest]; simpl.
  - unfold matchesAt; simpl; rewrite app_nil_r, orb_false_r; reflexivity.
  - rewrite no_Bol_later by discriminate.
    unfold matchesAt; simpl; rewrite app_nil_r, orb_false_r; reflexivity.
Qed.

Lemma ends_Class k c c' :
  In c' (ends (Class k) c) ->
  exists y, snd c = y :: snd c' /\ fst c' = y :: fst c /\ inClass k y = true.
Proof.
  simpl; destruct (snd c) as [|y rest]; [intros []|].
  destruct (inClass k y) eqn:E; [|intros []].
  intros [<- | []]; exists y; auto.
Qed.

Lemma starEnds_advances f :
  (forall c c', In c' (f c) -> advances c c') ->
  forall n c c', In c' (starEnds n f c) -> advances c c'.
Proof.
  intros Hf; induction n as [|n IH]; intros c c'; simpl.
  - intros [<- | []]; apply advances_refl.
  - intros [<- | H]; [apply advances_refl|].
    apply in_flat_map in H as (c1 & H1 & H2).
    apply filter_In in H1 as [H1 _].
    eapply advances_trans; [apply Hf; exact H1 | apply IH; exact H2].
Qed.

Lemma ends_advances r : forall c c', In c' (ends r c) -> advances c c'.
Proof.
  induction r as [| x | k | | | | a IHa b IHb | a IHa b IHb | a IHa];
    intros c c'; simpl.
  - intros [<- | []]; apply advances_refl.
  - destruct (snd c) as [|y rest] eqn:E; [intros []|].
    destruct (canonicalize x =? canonicalize y)%N; [|intros []].
    intros [<- | []]; exists [y]; auto.
  - destruct (snd c) as [|y rest] eqn:E; [intros []|].
    destruct (inClass k y); [|intros []].
    intros [<- | []]; exists [y]; auto.
  - destruct (isNil (fst c)); [|intros []].
    intros [<- | []]; apply advances_refl.
  - destruct (isNil (snd c)); [|intros []].
    intros [<- | []]; apply advances_refl.
  - destruct (xorb _ _); [|intros []].
    intros [<- | []]; apply advances_refl.
  - intros H; apply in_flat_map in H as (c1 & H1 & H2).
    eapply advances_trans; eauto.
  - intros H; apply in_app_iff in H as [H | H]; auto.
  - apply starEnds_advances; exact IHa.
Qed.

Lemma starEnds_mono f : forall n m c x,
  n <= m -> In x (starEnds n f c) -> In x (starEnds m f c).
Proof.
  induction n as [|n IH]; intros m c x Hle; simpl.
  - intros [<- | []]; destruct m; simpl; auto.
  - destruct m as [|m]; [lia|]; simpl.
    intros [<- | H]; [auto|]; right.
    apply in_flat_map in H as (c1 & H1 & H2).
    apply in_flat_map; exists c1; split; [exact H1|].
    apply (IH m); [lia | exact H2].
Qed.

Lemma starEnds_sound a :
  (forall c c', In c' (ends a c) -> Matches a c c') ->
  forall n c c', In c' (starEnds n (ends a) c) -> Matches (Star a) c c'.
Proof.
  intros Ha; induction n as [|n IH]; intros c c'; simpl.
  - intros [<- | []]; constructor.
  - intros [<- | H]; [constructor|].
    apply in_flat_map in H as (c1 & H1 & H2).
    apply filter_In in H1 as [H1 _].
    eapply MStarStep; [apply Ha; exact H1 | apply IH; exact H2].
Qed.

(** The matcher computes the matches of the pattern, and only those. *)
Lemma ends_sound r : forall c c', In c' (ends r c) -> Matches r c c'.
Proof.
  induction r as [| x | k | | | | a IHa b IHb | a IHa b IHb | a IHa];
    intros [before after] c'; simpl.
  - intros [<- | []]; constructor.
  - destruct after as [|y rest]; [intros []|].
    destruct (canonicalize x =? canonicalize y)%N eqn:E; [|intros []].
    intros [<- | []]; constructor; apply N.eqb_eq; exact E.
  - destruct after as [|y rest]; [intros []|].
    destruct (inClass k y) eqn:E; [|intros []].
    intros [<- | []]; constructor; exact E.
  - destruct before; simpl; [|intros []].
    intros [<- | []]; constructor.
  - destruct after; simpl; [|intros []].
    intros [<- | []]; constructor.
  - destruct (xorb (wordAt before) (wordAt after)) eqn:E; [|intros []].
    intros [<- | []]; constructor; exact E.
  - intros H; apply in_flat_map in H as (c1 & H1 & H2).
    econstructor; eauto.
  - intros H; apply in_app_iff in H as [H | H];
      [apply MAltL | apply MAltR]; auto.
  - apply starEnds_sound; exact IHa.
Qed.

Lemma ends_complete r c c' : Matches r c c' -> In c' (ends r c).
Proof.
  induction 1 as [c | x y before after E | k y before after E | after
                  | before | c E | a b c1 c2 c3 _ IH1 _ IH2
                  | a b c c' _ IH | a b c c' _ IH | a c
                  | a c1 c2 c3 _ IH1 _ IH2]; simpl.
  - auto.
  - rewrite E, N.eqb_refl; simpl; auto.
  - rewrite E; simpl; auto.
  - auto.
  - auto.
  - rewrite E; simpl; auto.
  - apply in_flat_map; eauto.
  - apply in_or_app; auto.
  - apply in_or_app; auto.
  - destruct (remaining c); simpl; auto.
  - destruct (ends_advances a c1 c2 IH1) as ([|u mid] & Hs & Hf).
    + assert (c2 = c1) as ->
        by (destruct c1, c2; simpl in *; congruence).
      exact IH2.
    + assert (Hlt : remaining c2 < remaining c1)
        by (unfold remaining; rewrite Hs; simpl; rewrite length_app; lia).
      destruct (remaining c1) as [|n] eqn:En; [lia|]; simpl; right.
      apply in_flat_map; exists c2; split.
      * apply filter_In; split; [exact IH1|].
        apply Nat.ltb_lt; rewrite En; exact Hlt.
      * apply (starEnds_mono _ (remaining c2)); [lia | exact IH2].
Qed.

Lemma ends_adequate r c c' : In c' (ends r c) <-> Matches r c c'.
Proof. split; [apply ends_sound | apply ends_complete]. Qed.

(** [test] succeeds exactly when the pattern matches some stretch of the
    input. *)
Lemma test_spec r t :
  test r t = true <->
  exists left mid right,
    t = left ++ mid ++ right
    /\ Matches r (rev left, mid ++ right) (rev mid ++ rev left, right).
Proof.
  rewrite test_iff; split.
  - intros (c & c' & Hc & Hm).
    apply In_cursorsFrom in Hc as (l & Ht & Hf); rewrite app_nil_r in Hf.
    destruct (ends_advances _ _ _ Hm) as (mid & Hs & Hf').
    exists l, mid, (snd c'); split; [rewrite Ht, Hs; reflexivity|].
    apply ends_sound in Hm.
    destruct c as [cb ca], c' as [cb' ca']; simpl in *; subst; exact Hm.
  - intros (l & mid & r' & -> & Hm).
    exists (rev l, mid ++ r'), (rev mid ++ rev l, r'); split.
    + apply In_cursorsFrom; exists l; simpl; rewrite app_nil_r; auto.
    + apply ends_complete; exact Hm.
Qed.

(** After one or more units of a class, the unit before the position is of
    that class. *)
Lemma starEnds_Class_last k : forall n c c',
  In c' (starEnds n (ends (Class k)) c) ->
  c' = c \/ exists y rest, fst c' = y :: rest /\ inClass k y = true.
Proof.
  induction n as [|n IH]; intros c c'; simpl.
  - intros [<- | []]; auto.
  - intros [<- | H]; [auto|].
    apply in_flat_map in H as (c1 & H1 & H2).
    apply filter_In in H1 as [H1 _].
    apply ends_Class in H1 as (y & _ & Hf & Hy).
    apply IH in H2 as [-> | H2]; [|auto].
    right; exists y, (fst c); auto.
Qed.

Lemma ends_Plus_Class_last k c c' :
  In c' (ends (Plus (Class k)) c) ->
  exists y rest, fst c' = y :: rest /\ inClass k y = true.
Proof.
  unfold Plus; intros H.
  change (In c' (flat_map (ends (Star (Class k))) (ends (Class k) c))) in H.
  apply in_flat_map in H as (c1 & H1 & H2).
  apply ends_Class in H1 as (y & _ & Hf & Hy).
  apply starEnds_Class_last in H2 as [-> | H2]; [|exact H2].
  exists y, (fst c); auto.
Qed.

End RegexFacts.

(* ------------------------------------------------------------------ *)
(** ** Case folding of the matcher *)

(** Boolean comparisons on code units, as arithmetic facts. *)
Ltac units :=
  repeat match goal with
         | H : (_ && _) = true |- _ => apply andb_true_iff in H as [? ?]
         | H : (_ || _) = true |- _ => apply orb_true_iff in H as [? | ?]
         | H : (_ && _) = false |- _ => apply andb_false_iff in H as [? | ?]
         | H : (_ || _) = false |- _ => apply orb_false_iff in H as [? ?]
         | H : (_ <=? _)%N = true |- _ => apply N.leb_le in H
         | H : (_ <=? _)%N = false |- _ => apply N.leb_gt in H
         | H : (_ <? _)%N = true |- _ => apply N.ltb_lt in H
         | H : (_ <? _)%N = false |- _ => apply N.ltb_ge in H
         | H : (_ =? _)%N = true |- _ => apply N.eqb_eq in H
         | H : (_ =? _)%N = false |- _ => apply N.eqb_neq in H
         end.

Lemma asciiUpper_isAscii x : isAscii (asciiUpper x) = isAscii x.
Proof.
  unfold isAscii, asciiUpper.
  destruct ((97 <=? x) && (x <=? 122))%N eqn:E; [|reflexivity].
  units; destruct (x <? 128)%N eqn:E1, (x - 32 <? 128)%N eqn:E2;
    units; try reflexivity; lia.
Qed.

Lemma asciiUpper_word x y :
  asciiUpper x = asciiUpper y -> isWordChar x = true -> isWordChar y = true.
Proof.
  unfold asciiUpper, isWordChar; intros E H.
  destruct ((97 <=? x) && (x <=? 122))%N eqn:Ex,
           ((97 <=? y) && (y <=? 122))%N eqn:Ey;
    repeat rewrite ?orb_true_iff, ?andb_true_iff, ?N.leb_le, ?N.eqb_eq;
    units; lia.
Qed.

Lemma isWordChar_isAscii x : isWordChar x = true -> isAscii x = true.
Proof.
  unfold isWordChar, isAscii; intros H; apply N.ltb_lt; units; lia.
Qed.

Section Folding.
Context {U : Unicode}.

Lemma canonicalize_ascii x : isAscii x = true -> canonicalize x = asciiUpper x.
Proof.
  intros H; unfold canonicalize.
  rewrite (toUpperCase_ascii [x]) by (simpl; rewrite H; reflexivity).
  simpl; unfold isAscii in H.
  destruct (128 <=? x)%N eqn:E; [units; lia | reflexivity].
Qed.

Lemma canonicalize_high y :
  isAscii y = false -> isAscii (canonicalize y) = false.
Proof.
  intros H; unfold canonicalize.
  destruct (toUpperCase [y]) as [|cu [|? ?]]; try exact H.
  unfold isAscii in *.
  destruct (128 <=? y)%N eqn:E1; [|units; lia].
  destruct (cu <? 128)%N eqn:E2; simpl; assumption.
Qed.

Lemma fold_unit x y :
  isAscii x = true ->
  canonicalize x = canonicalize y <-> asciiUpper x = asciiUpper y.
Proof.
  intros Hx; rewrite (canonicalize_ascii _ Hx).
  destruct (isAscii y) eqn:Hy.
  - rewrite (canonicalize_ascii _ Hy); tauto.
  - pose proof (canonicalize_high _ Hy) as Hc.
    pose proof (asciiUpper_isAscii x) as Hu; rewrite Hx in Hu.
    pose proof (asciiUpper_isAscii y) as Hv; rewrite Hy in Hv.
    split; intros E.
    + rewrite <- E in Hc; congruence.
    + rewrite E in Hu; congruence.
Qed.

Lemma fold_string w : forall pre,
  forallb isAscii w = true ->
  map canonicalize w = map canonicalize pre <->
  map asciiUpper w = map asciiUpper pre.
Proof.
  induction w as [|x w IH]; intros [|y pre] Hw; simpl; try easy.
  simpl in Hw; apply andb_true_iff in Hw as [Hx Hw].
  split; intros E; injection E as E1 E2; f_equal.
  - apply (proj1 (@fold_unit x y Hx)); exact E1.
  - apply (proj1 (IH pre Hw)); exact E2.
  - apply (proj2 (@fold_unit x y Hx)); exact E1.
  - apply (proj2 (IH pre Hw)); exact E2.
Qed.

Lemma fold_wordAt w pre :
  map canonicalize w = map canonicalize pre ->
  wordAt w = true -> wordAt pre = true.
Proof.
  destruct w as [|x w], pre as [|y pre]; simpl; try easy.
  intros E Hx; injection E as E _.
  apply (proj1 (@fold_unit x y (@isWordChar_isAscii x Hx))) in E.
  exact (@asciiUpper_word x y E Hx).
Qed.

Lemma fold_wordAt_rev w pre :
  map canonicalize w = map canonicalize pre ->
  wordAt (rev w) = true -> wordAt (rev pre) = true.
Proof.
  intros E; apply fold_wordAt; rewrite !map_rev, E; reflexivity.
Qed.

End Folding.

Lemma wordAt_app a b : wordAt a = true -> wordAt (a ++ b) = true.
Proof. destruct a; simpl; [discriminate | auto]. Qed.

(* ------------------------------------------------------------------ *)
(** ** The compiled patterns *)

Lemma tail_after_word c :
  wordAt (fst c) = true -> tailOk c = negb (wordAt (snd c)).
Proof.
  unfold tailOk; intros ->; destruct (snd c) as [|y rest]; simpl;
    [reflexivity|].
  destruct (isWhiteSpace y) eqn:E.
  - rewrite (isWhiteSpace_not_word _ E); reflexivity.
  - rewrite !orb_false_r; destruct (isWordChar y); reflexivity.
Qed.

Section PatternFacts.
Context {U : Unicode}.

Lemma matchesAt_tail c : matchesAt boundaryTail c = tailOk c.
Proof.
  unfold matchesAt, boundaryTail, tailOk; simpl.
  destruct (xorb (wordAt (fst c)) (wordAt (snd c))); [reflexivity|].
  destruct (snd c) as [|y rest]; simpl; [reflexivity|].
  destruct (isWhiteSpace y); reflexivity.
Qed.

Lemma ends_Seq a b c c' :
  In c' (ends (Seq a b) c) <-> exists c1, In c1 (ends a c) /\ In c' (ends b c1).
Proof. simpl; apply in_flat_map. Qed.

Lemma ends_WordB c :
  xorb (wordAt (fst c)) (wordAt (snd c)) = true -> In c (ends WordB c).
Proof. simpl; intros ->; simpl; auto. Qed.

(** The positions a literal reaches: it consumes units that fold to the
    units of the literal. *)
Lemma ends_lit w : forall c c',
  In c' (ends (lit w) c) <->
  exists pre, snd c = pre ++ snd c' /\ fst c' = rev pre ++ fst c
              /\ map canonicalize w = map canonicalize pre.
Proof.
  induction w as [|x w IH]; intros c c'.
  - simpl; split.
    + intros [<- | []]; exists []; auto.
    + intros ([|y pre] & H1 & H2 & H3); [|discriminate].
      left; destruct c, c'; simpl in *; congruence.
  - change (lit (x :: w)) with (Seq (Chr x) (lit w)); rewrite ends_Seq.
    split.
    + intros (c1 & H1 & H2); simpl in H1.
      destruct (snd c) as [|y rest] eqn:Es; [destruct H1|].
      destruct (canonicalize x =? canonicalize y)%N eqn:E; [|destruct H1].
      destruct H1 as [<- | []]; apply N.eqb_eq in E.
      apply IH in H2 as (pre & Hs & Hf & Hm); simpl in Hs, Hf.
      exists (y :: pre); simpl; rewrite Hs, Hf, E, Hm, <- app_assoc; auto.
    + intros ([|y pre] & H1 & H2 & H3); [discriminate|].
      injection H3 as E Hm.
      exists (y :: fst c, pre ++ snd c'); split.
      * simpl; rewrite H1; simpl; rewrite E, N.eqb_refl; simpl; auto.
      * apply IH; exists pre; simpl; rewrite H2; simpl.
        rewrite <- app_assoc; auto.
Qed.

(** A literal with word characters at both ends, found at a position that
    does not follow a word character and ending before none, is a separate
    term of the input. *)
Lemma term_from_cursor eb w t c2 c3 :
  atoms eb = lit w ->
  wordAt w = true -> wordAt (rev w) = true ->
  In c2 (cursorsFrom [] t) ->
  wordAt (fst c2) = false ->
  In c3 (ends (lit w) c2) ->
  wordAt (snd c3) = false ->
  test (termPattern eb) t = true.
Proof.
  intros Hat Hw1 Hw2 Hc2 Hb Hc3 Ha.
  apply test_iff; exists c2, c3; split; [exact Hc2|].
  pose proof (proj1 (ends_lit w c2 c3) Hc3) as (pre & Hs & Hf & Hm).
  unfold termPattern; rewrite Hat.
  apply ends_Seq; exists c2; split.
  - apply ends_WordB; rewrite Hb, Hs.
    rewrite (wordAt_app _ _ (fold_wordAt _ _ Hm Hw1)); reflexivity.
  - apply ends_Seq; exists c3; split; [exact Hc3|].
    apply ends_WordB; rewrite Ha, Hf.
    rewrite (wordAt_app _ _ (fold_wordAt_rev _ _ Hm Hw2)); reflexivity.
Qed.

Lemma tail_reached w c2 c3 c' :
  wordAt (rev w) = true ->
  In c3 (ends (lit w) c2) -> In c' (ends boundaryTail c3) ->
  wordAt (snd c3) = false.
Proof.
  intros Hw2 Hc3 Hc'.
  pose proof (proj1 (ends_lit w c2 c3) Hc3) as (pre & Hs & Hf & Hm).
  assert (Ht : tailOk c3 = true)
    by (rewrite <- matchesAt_tail; apply matchesAt_iff; eauto).
  rewrite tail_after_word in Ht.
  - destruct (wordAt (snd c3)); [discriminate | reflexivity].
  - rewrite Hf; apply wordAt_app, (fold_wordAt_rev _ _ Hm Hw2).
Qed.

Lemma first_to_term eb w t :
  atoms eb = lit w -> wordAt w = true -> wordAt (rev w) = true ->
  test (firstPattern eb) t = true -> test (termPattern eb) t = true.
Proof.
  intros Hat Hw1 Hw2 H.
  unfold firstPattern in H; rewrite test_Bol, Hat in H.
  apply matchesAt_iff in H as (c' & H).
  apply ends_Seq in H as (c3 & Hc3 & Hc').
  apply (term_from_cursor eb w t ([], t) c3); auto.
  - destruct t; simpl; auto.
  - exact (tail_reached w _ _ _ Hw2 Hc3 Hc').
Qed.

Lemma after_space (c : cursor) :
  (exists y rest, fst c = y :: rest /\ inClass ClassSpace y = true) ->
  wordAt (fst c) = false.
Proof.
  intros (y & rest & -> & Hy); simpl in *.
  apply isWhiteSpace_not_word; exact Hy.
Qed.

Lemma before_space c c' :
  In c' (ends (Class ClassSpace) c) -> wordAt (snd c) = false.
Proof.
  intros H; apply ends_Class in H as (y & -> & _ & Hy); simpl in *.
  apply isWhiteSpace_not_word; exact Hy.
Qed.

Lemma second_to_term eb w t :
  atoms eb = lit w -> wordAt w = true -> wordAt (rev w) = true ->
  test (secondPattern eb) t = true -> test (termPattern eb) t = true.
Proof.
  intros Hat Hw1 Hw2 H.
  unfold secondPattern in H; rewrite test_Bol, Hat in H.
  apply matchesAt_iff in H as (c' & H).
  apply ends_Seq in H as (c1 & Hc1 & H).
  apply ends_Seq in H as (c2 & Hc2 & H).
  apply ends_Seq in H as (c3 & Hc3 & Hc').
  apply (term_from_cursor eb w t c2 c3); auto.
  - apply advances_cursorsFrom.
    eapply advances_trans; eapply ends_advances; eassumption.
  - apply after_space, (ends_Plus_Class_last _ _ _ Hc2).
  - exact (tail_reached w _ _ _ Hw2 Hc3 Hc').
Qed.

Lemma edge_to_term eb w t :
  atoms eb = lit w -> wordAt w = true -> wordAt (rev w) = true ->
  test (edgePattern eb) t = true -> test (termPattern eb) t = true.
Proof.
  intros Hat Hw1 Hw2 H.
  unfold edgePattern in H; rewrite test_Bol, Hat in H.
  apply matchesAt_iff in H as (c' & H).
  apply ends_Seq in H as (ce & H & He).
  change (In ce (ends _ ([], t))) with
    (In ce (ends (Seq (lit w) (Class ClassSpace)) ([], t)
            ++ ends (Seq (Star (Class ClassDot))
                       (Seq (Class ClassSpace)
                          (Seq (lit w)
                             (Seq (Class ClassSpace)
                                (Star (Class ClassDot)))))) ([], t)
            ++ ends (Seq (Star (Class ClassDot))
                       (Seq (Class ClassSpace) (lit w))) ([], t))) in H.
  apply in_app_iff in H as [H | H]; [|apply in_app_iff in H as [H | H]].
  - apply ends_Seq in H as (c3 & Hc3 & Hs).
    apply (term_from_cursor eb w t ([], t) c3); auto.
    + destruct t; simpl; auto.
    + exact (before_space _ _ Hs).
  - apply ends_Seq in H as (c1 & Hc1 & H).
    apply ends_Seq in H as (c2 & Hc2 & H).
    apply ends_Seq in H as (c3 & Hc3 & H).
    apply ends_Seq in H as (c4 & Hs & _).
    apply (term_from_cursor eb w t c2 c3); auto.
    + apply advances_cursorsFrom.
      eapply advances_trans; eapply ends_advances; eassumption.
    + apply ends_Class in Hc2 as (y & _ & Hf & Hy).
      rewrite Hf; simpl; apply isWhiteSpace_not_word; exact Hy.
    + exact (before_space _ _ Hs).
  - apply ends_Seq in H as (c1 & Hc1 & H).
    apply ends_Seq in H as (c2 & Hc2 & Hc3).
    apply (term_from_cursor eb w t c2 ce); auto.
    + apply advances_cursorsFrom.
      eapply advances_trans; eapply ends_advances; eassumption.
    + apply ends_Class in Hc2 as (y & _ & Hf & Hy).
      rewrite Hf; simpl; apply isWhiteSpace_not_word; exact Hy.
    + simpl in He; destruct (snd ce); [reflexivity | destruct He].
Qed.

End PatternFacts.

(* ------------------------------------------------------------------ *)
(** ** The escaped brand and the cache entries *)

Section CacheFacts.
Context {U : Unicode}.

Lemma escape_plain b : forall s,
  escapeRegExp b = s ->
  forallb (fun c => negb (c =? 92)%N) s = true -> b = s.
Proof.
  unfold escapeRegExp; induction b as [|c b IH]; intros s Hs Hp; simpl in Hs.
  - exact Hs.
  - destruct (regexSpecial c); subst s; simpl in Hp.
    + discriminate.
    + apply andb_true_iff in Hp as [_ Hp].
      simpl; f_equal; apply IH; auto.
Qed.

(** The embedded text stands for a literal that folds to the brand. *)
Lemma escaped_literal b :
  exists w, atoms (escapedBrandOf b) = lit w
    /\ map canonicalize w = map canonicalize b
    /\ (w = b \/ (b = js "happy" /\ w = js "HAPPY")).
Proof.
  unfold escapedBrandOf.
  destruct (streq (escapeRegExp b) (js "happy")) eqn:E.
  - apply streq_eq in E.
    pose proof (escape_plain b _ E eq_refl) as Hb.
    rewrite E, (toUpperCase_ascii (js "happy") eq_refl).
    exists (js "HAPPY"); split; [reflexivity|]; split; [|auto].
    subst b; apply (fold_string (js "HAPPY") (js "happy") eq_refl).
    reflexivity.
  - exists b; split; [apply atoms_escape | auto].
Qed.

Lemma escaped_literal_word b :
  wordAt b = true -> wordAt (rev b) = true ->
  exists w, atoms (escapedBrandOf b) = lit w
    /\ map canonicalize w = map canonicalize b
    /\ wordAt w = true /\ wordAt (rev w) = true.
Proof.
  intros H1 H2; destruct (escaped_literal b) as (w & Ha & Hm & [-> | [-> ->]]).
  - exists b; auto.
  - exists (js "HAPPY"); auto.
Qed.

Lemma brand_compileBrand b : brand (compileBrand b) = b.
Proof.
  unfold compileBrand.
  destruct (setHas firstWordBrandValidationList b);
    [|destruct (setHas firstOrSecondWordBrandValidationList b)];
    reflexivity.
Qed.

(** The entries of the cache are the compiled brands that are not ignored. *)
Lemma In_buildBrandMatchCache brands e :
  In e (buildBrandMatchCache brands) <->
  exists b, In b brands /\ setHas ignoreBrandsList b = false
            /\ e = compileBrand b.
Proof.
  unfold buildBrandMatchCache; rewrite in_flat_map; split.
  - intros (b & Hb & He); exists b.
    destruct (setHas ignoreBrandsList b); [destruct He|].
    destruct He as [<- | []]; auto.
  - intros (b & Hb & Hi & ->); exists b; rewrite Hi; simpl; auto.
Qed.

Lemma pattern_compileBrand b :
  pattern (compileBrand b) =
  if setHas firstWordBrandValidationList b
  then firstPattern (escapedBrandOf b)
  else if setHas firstOrSecondWordBrandValidationList b
       then Alt (firstPattern (escapedBrandOf b))
                (secondPattern (escapedBrandOf b))
       else termPattern (escapedBrandOf b).
Proof.
  unfold compileBrand, escapedBrandOf.
  destruct (setHas firstWordBrandValidationList b);
    [|destruct (setHas firstOrSecondWordBrandValidationList b)];
    reflexivity.
Qed.

(** The first-word pattern of a literal that ends with a word character:
    the input starts with units that fold to the literal, and no word
    character follows them. *)
Lemma first_iff eb w t :
  atoms eb = lit w -> wordAt (rev w) = true ->
  test (firstPattern eb) t = true <->
  exists pre rest, t = pre ++ rest
    /\ map canonicalize w = map canonicalize pre
    /\ wordAt rest = false.
Proof.
  intros Hat Hw2; unfold firstPattern; rewrite test_Bol, Hat, matchesAt_iff.
  split.
  - intros (c' & H); apply ends_Seq in H as (c3 & Hc3 & Hc').
    pose proof (tail_reached w _ _ _ Hw2 Hc3 Hc') as Hr.
    apply ends_lit in Hc3 as (pre & Hs & _ & Hm); simpl in Hs.
    exists pre, (snd c3); auto.
  - intros (pre & rest & -> & Hm & Hr).
    assert (Hc3 : In (rev pre ++ [], rest) (ends (lit w) ([], pre ++ rest)))
      by (apply ends_lit; exists pre; auto).
    assert (Ht : matchesAt boundaryTail (rev pre ++ [], rest) = true).
    { rewrite matchesAt_tail, tail_after_word; simpl.
      - rewrite Hr; reflexivity.
      - apply wordAt_app, (fold_wordAt_rev _ _ Hm Hw2). }
    apply matchesAt_iff in Ht as (c' & Hc').
    exists c'; apply ends_Seq; eauto.
Qed.

(** The per-call normalizer of the two earlier versions is one function. *)
Lemma Gated_normalize s :
  Gated.normalizeInputIfAccentInsensitive s
  = Direct.normalizeInputIfAccentInsensitive s.
Proof. reflexivity. Qed.

Lemma cacheSound_nil : cacheSound [].
Proof. intros k v H; discriminate. Qed.

Lemma normalize_cached cache s :
  cacheSound cache ->
  fst (normalizeInputIfAccentInsensitive cache s)
    = Direct.normalizeInputIfAccentInsensitive s
  /\ cacheSound (snd (normalizeInputIfAccentInsensitive cache s)).
Proof.
  intros Hc; unfold normalizeInputIfAccentInsensitive.
  destruct (mapGet cache s) as [v|] eqn:E; simpl.
  - split; [apply Hc; exact E | exact Hc].
  - split; [reflexivity|].
    intros k v; rewrite mapGet_mapSet.
    destruct (streq s k) eqn:Ek; [|apply Hc].
    apply streq_eq in Ek; subst k; intros H; injection H as <-; reflexivity.
Qed.

End CacheFacts.

(* ------------------------------------------------------------------ *)
(** ** The compiled pattern against the per-call matchers *)

Open Scope string_scope.

(** C9, as the claim states it, fails: for the alias [c+], which ends with a
    character that is not a word character, the compiled pattern [\bc\+\b]
    rejects the title while the per-call matchers accept it through their
    start/space/end pattern. *)
Lemma cached_pattern_differs_on_symbol_alias :
  let title := js "vitamin c+ tablets" in
  let normalizedTitle := fst (normalizeInputIfAccentInsensitive [] title) in
  exists e,
    buildBrandMatchCache [js "c+"] = [e]
    /\ checkBrandMatch normalizedTitle e = false
    /\ Direct.checkBrandIsSeparateTerm title (js "c+") = true
    /\ Gated.checkBrandIsSeparateTerm title (js "c+") = true.
Proof.
  eexists; split; [reflexivity|].
  split; [vm_compute; reflexivity|].
  split; vm_compute; reflexivity.
Qed.

Close Scope string_scope.

(** C9, amended. For every entry of the compiled cache whose alias begins
    and ends with a word character (every alias of the two position lists
    does), and every title, [checkBrandMatch] on the normalized title gives
    the verdict of [checkBrandIsSeparateTerm] on the alias and the title, in
    the version that replaces the generic test by the position test and in
    the version that gates it. *)
Theorem cached_pattern_agrees_on_word_aliases `{Unicode}
  (brands : list jsstring) (e : BrandMatchCache)
  (normalizationCache : jsmap jsstring) (title : jsstring) :
  In e (buildBrandMatchCache brands) ->
  wordAt (brand e) = true -> wordAt (rev (brand e)) = true ->
  cacheSound normalizationCache ->
  let normalizedTitle :=
    fst (normalizeInputIfAccentInsensitive normalizationCache title) in
  checkBrandMatch normalizedTitle e
    = Direct.checkBrandIsSeparateTerm title (brand e)
  /\ checkBrandMatch normalizedTitle e
    = Gated.checkBrandIsSeparateTerm title (brand e).
Proof.
  intros He Hw1 Hw2 Hc normalizedTitle.
  apply In_buildBrandMatchCache in He as (b & _ & _ & ->).
  rewrite brand_compileBrand in *.
  unfold normalizedTitle; rewrite (proj1 (normalize_cached _ title Hc)).
  unfold checkBrandMatch; rewrite pattern_compileBrand.
  unfold Direct.checkBrandIsSeparateTerm, Gated.checkBrandIsSeparateTerm.
  cbv zeta.
  change (Gated.normalizeInputIfAccentInsensitive title)
    with (Direct.normalizeInputIfAccentInsensitive title).
  change (if streq (escapeRegExp b) (js "happy")
          then toUpperCase (escapeRegExp b) else escapeRegExp b)
    with (escapedBrandOf b).
  set (t := Direct.normalizeInputIfAccentInsensitive title).
  destruct (escaped_literal_word b Hw1 Hw2) as (w & Hat & _ & Hv1 & Hv2).
  pose proof (first_to_term _ w t Hat Hv1 Hv2) as Hfirst.
  pose proof (second_to_term _ w t Hat Hv1 Hv2) as Hsecond.
  pose proof (edge_to_term _ w t Hat Hv1 Hv2) as Hedge.
  destruct (setHas firstWordBrandValidationList b);
    [|destruct (setHas firstOrSecondWordBrandValidationList b)];
    rewrite ?test_Alt; simpl;
    destruct (test (firstPattern (escapedBrandOf b)) t);
    destruct (test (secondPattern (escapedBrandOf b)) t);
    destruct (test (edgePattern (escapedBrandOf b)) t);
    simpl; rewrite ?andb_false_r; simpl;
    try rewrite (Hfirst eq_refl); try rewrite (Hsecond eq_refl);
    try rewrite (Hedge eq_refl); rewrite ?orb_true_r; auto.
Qed.

Lemma cached_pattern_agrees_on_word_aliases_witness :
  let title := js "Heel Contour Cream 50ml" in
  let e := compileBrand (js "contour") in
  checkBrandMatch (fst (normalizeInputIfAccentInsensitive [] title)) e
    = Direct.checkBrandIsSeparateTerm title (js "contour")
  /\ checkBrandMatch (fst (normalizeInputIfAccentInsensitive [] title)) e
    = Gated.checkBrandIsSeparateTerm title (js "contour").
Proof.
  apply (@cached_pattern_agrees_on_word_aliases UnicodeFragment
           [js "contour"] (compileBrand (js "contour")) []
           (js "Heel Contour Cream 50ml")).
  - simpl; auto.
  - reflexivity.
  - reflexivity.
  - apply cacheSound_nil.
Defined.

(* ------------------------------------------------------------------ *)
(** ** Position policy and the case exception *)

Lemma firstWord_list_shape b :
  In b firstWordBrandValidationList ->
  forallb isAscii b = true /\ wordAt (rev b) = true.
Proof.
  unfold firstWordBrandValidationList; simpl.
  intros H; repeat (destruct H as [<- | H]; [split; reflexivity|]).
  destruct H.
Qed.

(** The aliases of the two position lists begin and end with a word
    character. *)
Lemma position_aliases_word_ended b :
  In b (firstWordBrandValidationList ++ firstOrSecondWordBrandValidationList)
  -> wordAt b = true /\ wordAt (rev b) = true.
Proof.
  unfold firstWordBrandValidationList, firstOrSecondWordBrandValidationList.
  simpl; intros H.
  repeat (destruct H as [<- | H]; [split; reflexivity|]).
  destruct H.
Qed.

Section PositionPolicy.
Context {U : Unicode}.

(** The verdict of the cache entry of a first-word alias. *)
Lemma first_word_entry brands e t :
  In e (buildBrandMatchCache brands) ->
  In (brand e) firstWordBrandValidationList ->
  checkBrandMatch t e = true <->
  exists pre rest, t = pre ++ rest
    /\ map asciiUpper pre = map asciiUpper (brand e)
    /\ wordAt rest = false.
Proof.
  intros He Hb.
  apply In_buildBrandMatchCache in He as (b & _ & _ & ->).
  rewrite brand_compileBrand in *.
  unfold checkBrandMatch; rewrite pattern_compileBrand.
  rewrite (proj2 (setHas_In _ _) Hb).
  destruct (firstWord_list_shape b Hb) as [Hascii Hword].
  destruct (escaped_literal b) as (w & Hat & Hm & Hw).
  assert (Hw2 : wordAt (rev w) = true)
    by (destruct Hw as [-> | [_ ->]]; [exact Hword | reflexivity]).
  rewrite (first_iff _ w t Hat Hw2).
  split; intros (pre & rest & Ht & Hf & Hr); exists pre, rest;
    (split; [exact Ht|]); (split; [|exact Hr]).
  - rewrite Hm in Hf; symmetry.
    apply (proj1 (fold_string b pre Hascii)); exact Hf.
  - rewrite Hm.
    apply (proj2 (fold_string b pre Hascii)); symmetry; exact Hf.
Qed.

End PositionPolicy.

Open Scope string_scope.

(** C3, as the claim states it, fails: [gum] matches the title
    [GUM: Travel], whose first whitespace-delimited token is [GUM:], because
    the pattern accepts a word boundary after the alias. *)
Lemma first_word_alias_not_whitespace_token :
  exists e,
    buildBrandMatchCache [js "gum"] = [e]
    /\ checkBrandMatch (js "GUM: Travel") e = true
    /\ hd [] (tokens (js "GUM: Travel")) = js "GUM:"
    /\ isFirstToken (js "gum") (js "GUM: Travel") = false.
Proof.
  eexists; split; [reflexivity|].
  split; [vm_compute; reflexivity|].
  split; vm_compute; reflexivity.
Qed.

(** C3, amended. The cache entry of an alias of the first-word list
    matches a title exactly when the title begins with the alias, letter
    case apart, and the alias is followed by the end of the title or by a
    character that is not a word character. So [gum] does not match
    [Sensitive Gum Protection] and matches [Gum Paste Relief]. *)
Theorem first_word_alias_matches_leading_term `{Unicode} :
  (forall (brands : list jsstring) (e : BrandMatchCache) (t : jsstring),
     In e (buildBrandMatchCache brands) ->
     In (brand e) firstWordBrandValidationList ->
     checkBrandMatch t e = true <->
     exists pre rest, t = (pre ++ rest)%list
       /\ map asciiUpper pre = map asciiUpper (brand e)
       /\ wordAt rest = false)
  /\ buildBrandMatchCache [js "gum"] = [compileBrand (js "gum")]
  /\ checkBrandMatch (js "Sensitive Gum Protection") (compileBrand (js "gum"))
     = false
  /\ checkBrandMatch (js "Gum Paste Relief") (compileBrand (js "gum")) = true.
Proof.
  split; [exact first_word_entry|].
  split; [reflexivity|].
  assert (He : In (compileBrand (js "gum")) (buildBrandMatchCache [js "gum"]))
    by (simpl; auto).
  assert (Hb : In (brand (compileBrand (js "gum")))
                  firstWordBrandValidationList)
    by (rewrite brand_compileBrand; vm_compute; auto 10).
  split.
  - destruct (checkBrandMatch _ _) eqn:E; [|reflexivity].
    apply (first_word_entry _ _ _ He Hb) in E
      as (pre & rest & Ht & Hf & _).
    rewrite brand_compileBrand in Hf.
    destruct pre as [|a [|b [|c [|d pre]]]]; try discriminate Hf.
    injection Ht as <- <- <- _; discriminate Hf.
  - apply (first_word_entry _ _ _ He Hb).
    exists (js "Gum"), (js " Paste Relief"); repeat split.
Qed.

Lemma first_word_alias_matches_leading_term_witness :
  checkBrandMatch (js "GUM: Travel") (compileBrand (js "gum")) = true.
Proof.
  apply (proj1 (@first_word_alias_matches_leading_term UnicodeFragment)
           [js "gum"] (compileBrand (js "gum")) (js "GUM: Travel")).
  - simpl; auto.
  - vm_compute; auto 10.
  - exists (js "GUM"), (js ": Travel"); repeat split.
Defined.

Close Scope string_scope.

Open Scope string_scope.

(** C1, as the claim states it, fails: the alias [happy] is on the
    first-word list, so its pattern is anchored at the start of the title;
    the title [Big HAPPY sale] holds the upper-case token [HAPPY] and is
    not matched. *)
Lemma happy_token_counterexample :
  exists e,
    buildBrandMatchCache [js "happy"] = [e]
    /\ containsToken (js "HAPPY") (js "Big HAPPY sale") = true
    /\ checkBrandMatch (js "Big HAPPY sale") e = false.
Proof.
  eexists; split; [reflexivity|].
  split; vm_compute; reflexivity.
Qed.

(** C1, amended. The cache entry of the alias [happy] is compiled from the
    upper-cased text [HAPPY], anchored at the start of the title:
    [^HAPPY(\b|\s|$)]. For every title that does not begin with the
    letters h, a, p, p, y in a letter case other than [HAPPY], the entry
    matches if and only if the title begins with [HAPPY] followed by the
    end of the title or by a character that is not a word character. So
    the title [Big HAPPY sale] is not matched. *)
Theorem happy_matches_leading_upper_case `{Unicode}
  (brands : list jsstring) (e : BrandMatchCache) (t : jsstring) :
  In e (buildBrandMatchCache brands) ->
  brand e = js "happy" ->
  pattern e = firstPattern (js "HAPPY")
  /\ ((forall pre rest, t = (pre ++ rest)%list ->
         map asciiUpper pre = js "HAPPY" -> pre = js "HAPPY") ->
      checkBrandMatch t e = true <->
      exists rest, t = (js "HAPPY" ++ rest)%list /\ wordAt rest = false)
  /\ checkBrandMatch (js "Big HAPPY sale") e = false.
Proof.
  intros He Hb.
  assert (Hl : In (brand e) firstWordBrandValidationList)
    by (rewrite Hb; vm_compute; auto 20).
  pose proof (first_word_entry brands e t He Hl) as Hiff.
  pose proof (first_word_entry brands e (js "Big HAPPY sale") He Hl) as Hbig.
  rewrite Hb in Hiff, Hbig.
  change (map asciiUpper (js "happy")) with (js "HAPPY") in Hiff, Hbig.
  split; [|split].
  - apply In_buildBrandMatchCache in He as (b & _ & _ & ->).
    rewrite brand_compileBrand in Hb; subst b.
    rewrite pattern_compileBrand.
    change (setHas firstWordBrandValidationList (js "happy")) with true.
    cbv iota; unfold escapedBrandOf.
    change (escapeRegExp (js "happy")) with (js "happy").
    change (streq (js "happy") (js "happy")) with true; cbv iota.
    rewrite (toUpperCase_ascii (js "happy") eq_refl); reflexivity.
  - intros Hcase; rewrite Hiff; split.
    + intros (pre & rest & Ht & Hf & Hr).
      rewrite (Hcase pre rest Ht Hf) in Ht; exists rest; auto.
    + intros (rest & Ht & Hr).
      exists (js "HAPPY"), rest; repeat split; assumption.
  - destruct (checkBrandMatch (js "Big HAPPY sale") e); [|reflexivity].
    destruct (proj1 Hbig eq_refl) as (pre & rest & Ht & Hf & _).
    destruct pre as [|c1 [|c2 [|c3 [|c4 [|c5 [|c6 pre]]]]]];
      try discriminate Hf.
    cbv in Ht; injection Ht as <- <- <- <- <- _; discriminate Hf.
Qed.

Lemma happy_matches_leading_upper_case_witness :
  checkBrandMatch (js "HAPPY day") (compileBrand (js "happy")) = true.
Proof.
  apply (proj1 (proj2 (@happy_matches_leading_upper_case UnicodeFragment
                  [js "happy"] (compileBrand (js "happy")) (js "HAPPY day")
                  (or_introl eq_refl) eq_refl))).
  - intros pre rest Ht Hm.
    destruct pre as [|c1 [|c2 [|c3 [|c4 [|c5 [|c6 pre]]]]]];
      try discriminate Hm.
    cbv in Ht; injection Ht as <- <- <- <- <- _; reflexivity.
  - exists (js " day"); split; reflexivity.
Defined.

(** X30. The flag [i] of the pattern undoes the upper-casing of the alias
    [happy]: its cache entry matches every title that begins with the
    letters h, a, p, p, y in any letter case, followed by the end of the
    title or by a character that is not a word character. The lower-case
    title [happy feet] is matched, although the comment in
    [buildBrandMatchCache] says that the brand must match uppercase in
    input. *)
Theorem happy_flag_undoes_upper_casing `{Unicode} (pre rest : jsstring) :
  map asciiUpper pre = js "HAPPY" ->
  wordAt rest = false ->
  checkBrandMatch (pre ++ rest)%list (compileBrand (js "happy")) = true.
Proof.
  intros Hpre Hrest.
  apply (first_word_entry [js "happy"] (compileBrand (js "happy"))
           (pre ++ rest)%list).
  - simpl; auto.
  - rewrite brand_compileBrand; vm_compute; auto 20.
  - rewrite brand_compileBrand; exists pre, rest; auto.
Qed.

Lemma happy_flag_undoes_upper_casing_witness :
  containsToken (js "HAPPY") (js "happy feet") = false
  /\ checkBrandMatch (js "happy feet") (compileBrand (js "happy")) = true.
Proof.
  split; [reflexivity|].
  apply (@happy_flag_undoes_upper_casing UnicodeFragment
           (js "happy") (js " feet")); reflexivity.
Defined.

Close Scope string_scope.

(* ------------------------------------------------------------------ *)
(** ** The scan for the earliest candidate *)

Lemma scanStep_scanned lowerTitle seen st b :
  scanned lowerTitle seen st ->
  scanned lowerTitle (seen ++ [b]) (scanStep lowerTitle st b).
Proof.
  unfold scanStep; destruct st as [[i|] [p|]]; simpl; try tauto.
  - intros (Hp & Hi & Hmin).
    destruct (indexOf lowerTitle b) as [k|] eqn:Ek; simpl.
    + destruct (k <? i) eqn:E; simpl.
      * apply Nat.ltb_lt in E; split; [apply in_or_app; simpl; auto|].
        split; [exact Ek|].
        intros c j Hc Hj; apply in_app_iff in Hc as [Hc | [<- | []]].
        -- specialize (Hmin c j Hc Hj); lia.
        -- rewrite Ek in Hj; injection Hj as <-; lia.
      * apply Nat.ltb_ge in E; split; [apply in_or_app; auto|].
        split; [exact Hi|].
        intros c j Hc Hj; apply in_app_iff in Hc as [Hc | [<- | []]].
        -- exact (Hmin c j Hc Hj).
        -- rewrite Ek in Hj; injection Hj as <-; exact E.
    + split; [apply in_or_app; auto|]. split; [exact Hi|].
      intros c j Hc Hj; apply in_app_iff in Hc as [Hc | [<- | []]].
      * exact (Hmin c j Hc Hj).
      * congruence.
  - intros Hnone.
    destruct (indexOf lowerTitle b) as [k|] eqn:Ek; simpl.
    + split; [apply in_or_app; simpl; auto|]. split; [exact Ek|].
      intros c j Hc Hj; apply in_app_iff in Hc as [Hc | [<- | []]].
      * rewrite (Hnone c Hc) in Hj; discriminate.
      * rewrite Ek in Hj; injection Hj as <-; lia.
    + intros c Hc; apply in_app_iff in Hc as [Hc | [<- | []]]; auto.
Qed.

Lemma scan_fold lowerTitle l : forall seen st,
  scanned lowerTitle seen st ->
  scanned lowerTitle (seen ++ l) (fold_left (scanStep lowerTitle) l st).
Proof.
  induction l as [|b l IH]; intros seen st H; simpl.
  - rewrite app_nil_r; exact H.
  - replace (seen ++ b :: l) with ((seen ++ [b]) ++ l)
      by (rewrite <- app_assoc; reflexivity).
    apply IH, scanStep_scanned; exact H.
Qed.

(** The scan returns a candidate whose first occurrence is leftmost, and
    nothing when no candidate occurs. *)
Lemma scanEarliest_spec lowerTitle candidates :
  match scanEarliest lowerTitle candidates with
  | None => forall c, In c candidates -> indexOf lowerTitle c = None
  | Some p =>
      In p candidates /\ exists i, indexOf lowerTitle p = Some i
      /\ forall c j, In c candidates -> indexOf lowerTitle c = Some j -> i <= j
  end.
Proof.
  unfold scanEarliest.
  pose proof (scan_fold lowerTitle candidates [] (None, None)) as H.
  simpl in H; specialize (H (fun c (F : False) => match F with end)).
  destruct (fold_left _ candidates (None, None)) as [[i|] [p|]];
    simpl in *; try tauto.
  destruct H as (Hp & Hi & Hmin); eauto.
Qed.

Section Disambiguation.
Context {U : Unicode}.

Lemma choosePriority_some lowerTitle net matched :
  exists pb, choosePriority lowerTitle net matched = Some pb.
Proof.
  unfold choosePriority.
  destruct (scanEarliest lowerTitle (connectedBrands net matched))
    as [[|c s]|]; simpl; eauto.
Qed.



End Disambiguation.


Open Scope string_scope.


Close Scope string_scope.

(* ------------------------------------------------------------------ *)
(** ** The candidate set *)

Lemma In_insertByLength e x l : In x (insertByLength e l) <-> x = e \/ In x l.
Proof.
  induction l as [|y l IH]; simpl; [intuition|].
  destruct (length (brand y) <=? length (brand e)); simpl; [intuition|].
  rewrite IH; intuition.
Qed.

Lemma In_sortByLengthDesc x l : In x (sortByLengthDesc l) <-> In x l.
Proof.
  unfold sortByLengthDesc; induction l as [|y l IH]; simpl; [tauto|].
  rewrite In_insertByLength, IH; intuition.
Qed.

Section Candidates.
Context {U : Unicode}.

Lemma In_matchBrands t cache m :
  In m (matchBrands t cache) -> exists e, In e cache /\ brand e = m.
Proof.
  unfold matchBrands.
  assert (H : forall acc,
             In m (fold_left
                     (fun matched cacheEntry =>
                        if setHas matched (brand cacheEntry) then matched
                        else if checkBrandMatch t cacheEntry
                             then matched ++ [brand cacheEntry]
                             else matched) cache acc) ->
             In m acc \/ exists e, In e cache /\ brand e = m).
  { induction cache as [|e cache IH]; intros acc; simpl; [auto|].
    intros H; apply IH in H as [H | (e' & He' & Hb)]; [|eauto].
    destruct (setHas acc (brand e)); [auto|].
    destruct (checkBrandMatch t e); [|auto].
    apply in_app_iff in H as [H | [<- | []]]; eauto. }
  intros Hm; apply H in Hm as [[] | Hm]; exact Hm.
Qed.

(** The aliases of a network: the lower-cased brand and its lower-cased
    neighbours. *)
Lemma In_brandNetwork g b c :
  In c (brandNetwork g b) <->
  c = toLowerCase b
  \/ exists r, In r (neighbours g (toLowerCase b)) /\ c = toLowerCase r.
Proof.
  unfold brandNetwork; rewrite setAdd_In.
  assert (H : forall l acc,
             In c (fold_left (fun network r => setAdd network (toLowerCase r))
                     l acc) <->
             In c acc \/ exists r, In r l /\ c = toLowerCase r).
  { induction l as [|x l IH]; intros acc; simpl.
    - split; [auto | intros [H | (r & [] & _)]; exact H].
    - rewrite IH, setAdd_In; split.
      + intros [[H | ->] | (r & Hr & ->)]; eauto.
      + intros [H | (r & [<- | Hr] & ->)]; eauto. }
  rewrite H; simpl; tauto.
Qed.

Lemma networkCache_get g all : forall acc k n,
  mapGet (fold_left (fun cache b =>
                       mapSet cache (toLowerCase b) (brandNetwork g b))
            all acc) k = Some n ->
  mapGet acc k = Some n
  \/ exists b, In b all /\ k = toLowerCase b /\ n = brandNetwork g b.
Proof.
  induction all as [|b all IH]; intros acc k n; simpl; [auto|].
  intros H; apply IH in H as [H | (b' & Hb' & -> & ->)]; [|eauto 6].
  rewrite mapGet_mapSet in H.
  destruct (streq (toLowerCase b) k) eqn:E; [|auto].
  apply streq_eq in E; injection H as <-; right; exists b; auto.
Qed.

Lemma networkCache_has g all : forall acc b,
  In b all ->
  mapHas (fold_left (fun cache b =>
                       mapSet cache (toLowerCase b) (brandNetwork g b))
            all acc) (toLowerCase b) = true.
Proof.
  assert (Hmono : forall l acc k,
             mapHas acc k = true ->
             mapHas (fold_left (fun cache b =>
                       mapSet cache (toLowerCase b) (brandNetwork g b))
                       l acc) k = true).
  { induction l as [|x l IH]; intros acc k H; simpl; [exact H|].
    apply IH; unfold mapHas; rewrite mapGet_mapSet.
    destruct (streq (toLowerCase x) k); [reflexivity | exact H]. }
  induction all as [|x all IH]; intros acc b; simpl; [tauto|].
  intros [-> | Hb]; [|apply IH; exact Hb].
  apply Hmono; unfold mapHas; rewrite mapGet_mapSet, streq_refl; reflexivity.
Qed.

(** The network stored for a known brand: a network depends on the
    lower-cased brand only. *)
Lemma networkCache_lookup g all b :
  In b all ->
  exists n, mapGet (buildBrandNetworkCache g all) (toLowerCase b) = Some n
    /\ forall c, In c n <->
         c = toLowerCase b
         \/ exists r, In r (neighbours g (toLowerCase b)) /\ c = toLowerCase r.
Proof.
  intros Hb; unfold buildBrandNetworkCache.
  pose proof (networkCache_has g all [] b Hb) as Hh; unfold mapHas in Hh.
  destruct (mapGet _ (toLowerCase b)) as [n|] eqn:E; [|discriminate].
  exists n; split; [reflexivity|].
  apply networkCache_get in E as [E | (b' & _ & Hk & ->)]; [discriminate|].
  intros c; rewrite In_brandNetwork, <- Hk; reflexivity.
Qed.

Lemma In_connectedBrands net matched c :
  In c (connectedBrands net matched) <->
  exists m n, In m matched /\ mapGet net (toLowerCase m) = Some n /\ In c n.
Proof.
  unfold connectedBrands.
  assert (H : forall l acc,
             In c (fold_left
                     (fun all b =>
                        match mapGet net (toLowerCase b) with
                        | Some network => fold_left setAdd network all
                        | None => all
                        end) l acc) <->
             In c acc
             \/ exists m n, In m l /\ mapGet net (toLowerCase m) = Some n
                            /\ In c n).
  { induction l as [|x l IH]; intros acc; simpl.
    - split; [auto | intros [H | (m & n & [] & _)]; exact H].
    - rewrite IH; split.
      + intros [H | (m & n & Hm & Hn & Hc)]; [|eauto 7].
        destruct (mapGet net (toLowerCase x)) as [n|] eqn:E; [|auto].
        apply fold_setAdd_In in H as [H | H]; eauto 7.
      + intros [H | (m & n & [<- | Hm] & Hn & Hc)].
        * left; destruct (mapGet net (toLowerCase x)); [|exact H].
          apply fold_setAdd_In; auto.
        * left; rewrite Hn; apply fold_setAdd_In; auto.
        * right; eauto. }
  rewrite H; simpl; tauto.
Qed.

Lemma connectedBrands_candidates g all matched c :
  (forall m, In m matched -> In m all) ->
  In c (connectedBrands (buildBrandNetworkCache g all) matched) <->
  candidate g matched c.
Proof.
  intros Hsub; rewrite In_connectedBrands; unfold candidate; split.
  - intros (m & n & Hm & Hn & Hc); exists m; split; [exact Hm|].
    destruct (networkCache_lookup g all m (Hsub m Hm)) as (n' & Hn' & Hiff).
    rewrite Hn in Hn'; injection Hn' as <-; apply Hiff; exact Hc.
  - intros (m & Hm & Hc).
    destruct (networkCache_lookup g all m (Hsub m Hm)) as (n & Hn & Hiff).
    exists m, n; split; [exact Hm|]; split; [exact Hn|].
    apply Hiff; exact Hc.
Qed.

End Candidates.

(* ------------------------------------------------------------------ *)
(** ** The priority alias *)

Section Priority.
Context {U : Unicode}.

Lemma matched_known all t m :
  In m (matchBrands t (sortByLengthDesc (buildBrandMatchCache all))) ->
  In m all.
Proof.
  intros H; apply In_matchBrands in H as (e & He & <-).
  apply In_sortByLengthDesc, In_buildBrandMatchCache in He
    as (b & Hb & _ & ->).
  rewrite brand_compileBrand; exact Hb.
Qed.

Lemma choosePriority_leftmost g all lowerTitle matched :
  (forall m, In m matched -> In m all) ->
  let chosen :=
    choosePriority lowerTitle (buildBrandNetworkCache g all) matched in
  (~ candidate g matched [] ->
   (exists c, candidate g matched c /\ indexOf lowerTitle c <> None) ->
   exists pb i,
     chosen = Some pb /\ candidate g matched pb
     /\ indexOf lowerTitle pb = Some i
     /\ forall c j, candidate g matched c ->
                    indexOf lowerTitle c = Some j -> i <= j)
  /\ ((forall c, candidate g matched c -> indexOf lowerTitle c = None) ->
      chosen = Some (toLowerCase (hd [] matched))).
Proof.
  intros Hsub chosen; unfold chosen, choosePriority.
  pose proof (scanEarliest_spec lowerTitle
                (connectedBrands (buildBrandNetworkCache g all) matched))
    as Hscan.
  pose proof (fun c => connectedBrands_candidates g all matched c Hsub)
    as Hcand.
  destruct (scanEarliest _ _) as [p|].
  - destruct Hscan as (Hp & i & Hi & Hmin).
    apply Hcand in Hp; split.
    + intros Hempty _.
      destruct p as [|c s]; [contradiction|]; simpl.
      exists (c :: s), i; repeat split; auto.
      intros c' j Hc' Hj; apply (Hmin c' j); [apply Hcand|]; assumption.
    + intros Hnone; rewrite (Hnone p Hp) in Hi; discriminate.
  - split; [|reflexivity].
    intros _ (c & Hc & Hi); exfalso; apply Hi, Hscan, Hcand; exact Hc.
Qed.

End Priority.

Open Scope string_scope.

(** C2, as the claim states it, fails: with the row [acme - (empty)] the
    empty alias is a neighbour of [acme]; for the title [Big acme] it is the
    candidate with the smallest index (0), yet the priority alias is
    [acme], found at index 4, since an empty choice counts as no choice. *)
Lemma priority_not_leftmost_with_empty_alias :
  let g := getBrandsMapping [connection "acme" ""] in
  let lowerTitle := js "big acme" in
  assignBrandIfKnown [connection "acme" ""] [item "Big acme"]
    = Some [{| product := js "Big acme";
               matchedBrands := [js "acme"; js ""];
               assignedBrand := Some (js "acme");
               priorityBrand := Some (js "acme") |}]
  /\ In (js "") (neighbours g (js "acme"))
  /\ indexOf lowerTitle (js "") = Some 0
  /\ indexOf lowerTitle (js "acme") = Some 4.
Proof.
  split; [vm_compute; reflexivity|].
  split; [vm_compute; auto|].
  split; vm_compute; reflexivity.
Qed.

(** C2, amended. For a product with a match, the candidates are the
    matched aliases and their direct graph neighbours, lower-cased. When
    the empty alias is not a candidate and some candidate occurs in the
    lower-cased normalized title, the priority alias is a candidate whose
    first occurrence has the smallest index; when no candidate occurs, it is
    the lower-cased first alias of the matched list. For the graph of the
    row [heel - contour] and the title [Heel Contour Cream 50ml] the
    priority alias is [heel] and the assigned brand is its canonical label. *)
Theorem priority_alias_is_leftmost_candidate `{Unicode} :
  (forall (g : BrandsMapping) (canonicalLookup ncache : jsmap jsstring)
          (p : Product),
     let allBrands := allBrandsOf g in
     let r := fst (processProduct canonicalLookup
                     (sortByLengthDesc (buildBrandMatchCache allBrands))
                     (buildBrandNetworkCache g allBrands) ncache p) in
     let lowerTitle :=
       toLowerCase (fst (normalizeInputIfAccentInsensitive ncache (title p))) in
     matchedBrands r <> [] ->
     (~ candidate g (matchedBrands r) [] ->
      (exists c, candidate g (matchedBrands r) c
                 /\ indexOf lowerTitle c <> None) ->
      exists pb i,
        priorityBrand r = Some pb /\ candidate g (matchedBrands r) pb
        /\ indexOf lowerTitle pb = Some i
        /\ forall c j, candidate g (matchedBrands r) c ->
                       indexOf lowerTitle c = Some j -> i <= j)
     /\ ((forall c, candidate g (matchedBrands r) c ->
                    indexOf lowerTitle c = None) ->
         priorityBrand r = Some (toLowerCase (hd [] (matchedBrands r)))))
  /\ (@assignBrandIfKnown UnicodeFragment
        [connection "heel" "contour"] [item "Heel Contour Cream 50ml"]
      = Some [{| product := js "Heel Contour Cream 50ml";
                 matchedBrands := [js "contour"; js "heel"];
                 assignedBrand := Some (js "heel");
                 priorityBrand := Some (js "heel") |}]
      /\ option_map (fun lookup => mapGet lookup (js "heel"))
           (@buildCanonicalLookup UnicodeFragment
              (@getBrandsMapping UnicodeFragment [connection "heel" "contour"]))
         = Some (Some (js "heel"))).
Proof.
  split; [|split; vm_compute; reflexivity].
  intros g lookup ncache p allBrands r lowerTitle.
  unfold r, lowerTitle, processProduct.
  destruct (normalizeInputIfAccentInsensitive ncache (title p)) as [nt nc].
  simpl fst.
  set (matched := matchBrands nt
                    (sortByLengthDesc (buildBrandMatchCache allBrands))).
  destruct (0 <? length matched)%nat eqn:El; simpl.
  - intros _; apply choosePriority_leftmost.
    intros m; apply matched_known.
  - destruct matched; [congruence | discriminate].
Qed.

Lemma priority_alias_is_leftmost_candidate_witness :
  let g := getBrandsMapping [connection "heel" "contour"] in
  let allBrands := allBrandsOf g in
  let r := fst (processProduct [(js "heel", js "heel")]
                  (sortByLengthDesc (buildBrandMatchCache allBrands))
                  (buildBrandNetworkCache g allBrands) []
                  (item "Heel Contour Cream 50ml")) in
  exists pb i,
    priorityBrand r = Some pb /\ candidate g (matchedBrands r) pb
    /\ indexOf (js "heel contour cream 50ml") pb = Some i
    /\ forall c j, candidate g (matchedBrands r) c ->
                   indexOf (js "heel contour cream 50ml") c = Some j -> i <= j.
Proof.
  apply (proj1 (@priority_alias_is_leftmost_candidate UnicodeFragment)
           (getBrandsMapping [connection "heel" "contour"])
           [(js "heel", js "heel")] [] (item "Heel Contour Cream 50ml")).
  - vm_compute; discriminate.
  - intros (m & Hm & [Hc | (x & Hx & Hc)]).
    + vm_compute in Hm; destruct Hm as [<- | [<- | []]]; discriminate Hc.
    + vm_compute in Hm; destruct Hm as [<- | [<- | []]];
        vm_compute in Hx; destruct Hx as [<- | []]; discriminate Hc.
  - exists (js "heel"); split; [|vm_compute; discriminate].
    exists (js "heel"); split; [vm_compute; auto | left; reflexivity].
Defined.

Close Scope string_scope.

(* ------------------------------------------------------------------ *)
(** ** The title normalizer *)

Lemma stripMarks_idem s : stripMarks (stripMarks s) = stripMarks s.
Proof.
  unfold stripMarks; induction s as [|c s IH]; simpl; [reflexivity|].
  destruct (negb (combiningMark c)) eqn:E; simpl; [rewrite E, IH|];
    congruence.
Qed.

Lemma direct_normalize_twice `{Unicode} s :
  normalizeNFD (stripMarks (normalizeNFD s)) = stripMarks (normalizeNFD s) ->
  Direct.normalizeInputIfAccentInsensitive
    (Direct.normalizeInputIfAccentInsensitive s)
  = Direct.normalizeInputIfAccentInsensitive s.
Proof.
  intros Hst; unfold Direct.normalizeInputIfAccentInsensitive at 2 3.
  destruct (existsb accentRange (normalizeNFD s)) eqn:E.
  - unfold Direct.normalizeInputIfAccentInsensitive.
    rewrite Hst.
    rewrite stripMarks_idem.
    destruct (existsb accentRange (stripMarks (normalizeNFD s)));
      reflexivity.
  - unfold Direct.normalizeInputIfAccentInsensitive; rewrite E; reflexivity.
Qed.

(** C8, as the claim states it, fails. The string U+00F8 U+0591 U+034F
    U+05B0 is in NFD (the joiner U+034F, of class 0, separates the two
    marks); the normalizer removes U+034F, which is in the stripped range,
    and leaves the marks of classes 220 and 10 in that order. The second
    call reorders them (U+00F8 belongs to the accent test's class, so the
    decomposed form is returned): the result differs from the first. *)
Lemma normalizer_not_idempotent :
  let s := [248; 1425; 847; 1456]%N in
  let first := normalizeInputIfAccentInsensitive [] s in
  let second := normalizeInputIfAccentInsensitive (snd first) (fst first) in
  fst first = [248; 1425; 1456]%N
  /\ fst second = [248; 1456; 1425]%N
  /\ fst second <> fst first.
Proof.
  split; [vm_compute; reflexivity|].
  split; [vm_compute; reflexivity | vm_compute; discriminate].
Qed.

(** C8, amended. The normalizer is idempotent on every string whose
    decomposition is still in NFD once the marks U+0300..U+036F are
    removed from it: normalizing the result of a call again, with the cache
    the call left, returns the same string. *)
Theorem normalizer_idempotent_on_stable_strings `{Unicode}
  (normalizationCache : jsmap jsstring) (s : jsstring) :
  cacheSound normalizationCache ->
  normalizeNFD (stripMarks (normalizeNFD s)) = stripMarks (normalizeNFD s) ->
  let first := normalizeInputIfAccentInsensitive normalizationCache s in
  fst (normalizeInputIfAccentInsensitive (snd first) (fst first)) = fst first.
Proof.
  intros Hc Hst first.
  destruct (normalize_cached normalizationCache s Hc) as [H1 H2].
  fold first in H1, H2.
  rewrite (proj1 (normalize_cached (snd first) (fst first) H2)), H1.
  apply direct_normalize_twice; exact Hst.
Qed.

Lemma normalizer_idempotent_on_stable_strings_witness :
  let first := normalizeInputIfAccentInsensitive [] [99; 97; 102; 233]%N in
  fst first = [99; 97; 102; 101]%N
  /\ fst (normalizeInputIfAccentInsensitive (snd first) (fst first))
     = fst first.
Proof.
  split; [vm_compute; reflexivity|].
  apply (@normalizer_idempotent_on_stable_strings UnicodeFragment
           [] [99; 97; 102; 233]%N cacheSound_nil).
  vm_compute; reflexivity.
Defined.

(* ================================================================== *)
(** * Further properties of the engine *)

(* ------------------------------------------------------------------ *)
(** ** The graph builder *)

Section GraphShape.
Context {U : Unicode}.

Lemma NoDup_setAdd s x : NoDup s -> NoDup (setAdd s x).
Proof.
  intros H; unfold setAdd; destruct (setHas s x) eqn:E; [exact H|].
  apply setHas_not_In in E.
  apply NoDup_app; [exact H | repeat constructor; intros [] |].
  intros a Ha [<- | []]; exact (E Ha).
Qed.

Lemma setValued_mapAdjust m k f :
  (forall s, NoDup s -> NoDup (f s)) ->
  setValued m -> setValued (mapAdjust m k f).
Proof.
  intros Hf; induction m as [|[k0 v0] m IH]; intros Hm k' l; simpl;
    [tauto|].
  destruct (streq k0 k); simpl.
  - intros [H | H]; [injection H as <- <-|]; [apply Hf|];
      eapply Hm; simpl; eauto.
  - intros [H | H]; [eapply Hm; simpl; eauto|].
    apply (IH (fun a b Hab => Hm a b (or_intror Hab)) k' l H).
Qed.

Lemma setValued_ensure m k :
  setValued m -> setValued (if mapHas m k then m else mapSet m k []).
Proof.
  intros Hm; destruct (mapHas m k) eqn:E; [exact Hm|].
  rewrite mapSet_fresh by exact E.
  intros k' l H; apply in_app_iff in H as [H | [H | []]].
  - exact (Hm k' l H).
  - injection H as <- <-; constructor.
Qed.

Lemma setValued_linkBrand brand1 m brand2 :
  setValued m -> setValued (linkBrand brand1 m brand2).
Proof.
  intros Hm; unfold linkBrand.
  apply setValued_mapAdjust; [intros s; apply NoDup_setAdd|].
  apply setValued_mapAdjust; [intros s; apply NoDup_setAdd|].
  apply setValued_ensure; exact Hm.
Qed.

Lemma setValued_addConnection m c :
  setValued m -> setValued (addConnection m c).
Proof.
  intros Hm; unfold addConnection; cbv zeta.
  pose proof (setValued_ensure m (toLowerCase (manufacturer_p1 c)) Hm) as H1.
  revert H1.
  generalize (if mapHas m (toLowerCase (manufacturer_p1 c)) then m
              else mapSet m (toLowerCase (manufacturer_p1 c)) []).
  induction (map trim (split 59 (toLowerCase (manufacturers_p2 c))))
    as [|b l IH]; intros m1 H1; simpl; [exact H1|].
  apply IH, setValued_linkBrand; exact H1.
Qed.

Lemma setValued_brandMapOf cs : setValued (brandMapOf cs).
Proof.
  unfold brandMapOf.
  assert (H : setValued []) by (intros k l []).
  revert H; generalize (@nil (jsstring * list jsstring)).
  induction cs as [|c cs IH]; intros m H; simpl; [exact H|].
  apply IH, setValued_addConnection; exact H.
Qed.

End GraphShape.

(** X1. The edges of the graph are exactly the pairs the rows declare:
    [y] is a neighbour of [x] if and only if some row has [x] as its
    lower-cased primary alias and [y] among its lower-cased, trimmed
    secondary aliases, or the other way round. Nothing else is added,
    whatever the order and repetition of the rows. *)
Theorem graph_edges_are_declared_pairs `{Unicode}
  (connections : list BrandConnection) (x y : jsstring) :
  In y (neighbours (getBrandsMapping connections) x) <->
  exists c b2,
    In c connections
    /\ In b2 (map trim (split 59 (toLowerCase (manufacturers_p2 c))))
    /\ ((x = toLowerCase (manufacturer_p1 c) /\ y = b2)
        \/ (x = b2 /\ y = toLowerCase (manufacturer_p1 c))).
Proof.
  rewrite graph_edges; unfold declares, secondaries, primary; split.
  - intros (c & Hc & b2 & Hb & Hxy); exists c, b2; auto.
  - intros (c & b2 & Hc & Hb & Hxy); exists c; split; [exact Hc|].
    exists b2; auto.
Qed.

(** X2. The object returned by [getBrandsMapping]: its own properties
    have pairwise distinct keys, which are exactly the aliases that the
    rows name other than [__proto__]; the object got an array as its
    prototype exactly when a row names the alias [__proto__]; and every
    neighbour array, own or prototype, is non-empty and without
    repetition. *)
Theorem graph_lists_are_nonempty_sets `{Unicode}
  (connections : list BrandConnection) :
  let g := getBrandsMapping connections in
  let named k :=
    exists c, In c connections
      /\ (k = toLowerCase (manufacturer_p1 c)
          \/ In k (map trim (split 59 (toLowerCase (manufacturers_p2 c)))))
  in
  NoDup (map fst (objectEntries g))
  /\ (forall k, (exists l, In (k, l) (objectEntries g)) <->
                k <> protoKey /\ named k)
  /\ (arrayPrototype g <> None <-> named protoKey)
  /\ (forall k l, In (k, l) g -> NoDup l /\ l <> []).
Proof.
  intros g named.
  assert (Hn : NoDup (map fst g))
    by (unfold g; rewrite getBrandsMapping_brandMapOf;
        apply NoDup_brandMapOf).
  split; [apply NoDup_objectEntries; exact Hn|].
  split; [|split].
  - intros k; split.
    + intros (l & Hin); apply In_objectEntries in Hin as [Hin Hk].
      split; [exact Hk|].
      apply graph_keys, (In_mapHas _ _ _ _ Hin).
    + intros (Hk & Hnamed); apply graph_keys in Hnamed.
      fold g in Hnamed; unfold mapHas in Hnamed.
      destruct (mapGet g k) as [l|] eqn:E; [|discriminate].
      exists l; apply objectEntries_own; [apply mapGet_In; exact E | exact Hk].
  - pose proof (graph_keys connections protoKey) as Hkeys.
    fold g in Hkeys; unfold mapHas in Hkeys; unfold arrayPrototype.
    destruct (mapGet g protoKey); split; intros H0.
    + apply Hkeys; reflexivity.
    + discriminate.
    + contradiction.
    + apply Hkeys in H0; discriminate.
  - intros k l Hin; split.
    + unfold g in Hin; rewrite getBrandsMapping_brandMapOf in Hin.
      exact (setValued_brandMapOf connections k l Hin).
    + exact (graph_entries_nonempty connections k l Hin).
Qed.

(* ------------------------------------------------------------------ *)
(** ** The canonical lookup builder *)

Section LookupShape.
Context {U : Unicode}.

Lemma canonicalBrand_nil : canonicalBrand [] = None.
Proof. reflexivity. Qed.

Lemma canonical_fold_empty es : forall acc k,
  In (k, []) es -> fold_left canonicalStep es acc = None.
Proof.
  induction es as [|e es IH]; intros acc k; simpl; [tauto|].
  intros [-> | H]; [|apply (IH _ k H)].
  destruct acc; simpl; apply canonical_fold_None.
Qed.

Lemma empty_list_or_none (es : BrandsMapping) :
  (exists k, In (k, []) es) \/ (forall k l, In (k, l) es -> l <> []).
Proof.
  induction es as [|[k l] es [(k' & H) | H]].
  - right; intros k l [].
  - left; exists k'; simpl; auto.
  - destruct l as [|b l].
    + left; exists k; simpl; auto.
    + right; intros k' l' [E | E]; [injection E as <- <-; discriminate|].
      exact (H k' l' E).
Qed.

Lemma lookup_built_nonempty g lk :
  buildCanonicalLookup g = Some lk ->
  forall k l, In (k, l) (objectEntries g) -> l <> [].
Proof.
  intros Hb; destruct (empty_list_or_none (objectEntries g))
    as [(k & Hk) | H]; [|exact H].
  unfold buildCanonicalLookup in Hb.
  rewrite (canonical_fold_empty _ _ k Hk) in Hb; discriminate.
Qed.

Lemma fill_lookup_keep cb l a : forall (lk : jsmap jsstring),
  mapGet lk a = Some cb ->
  mapGet (fold_left (fun lk b => lookupAssign lk (toLowerCase b) cb) l lk) a
  = Some cb.
Proof.
  induction l as [|x l IH]; intros lk H; simpl; [exact H|].
  apply IH; rewrite mapGet_lookupAssign.
  destruct (streq (toLowerCase x) a && negb (streq (toLowerCase x) protoKey));
    [reflexivity | exact H].
Qed.

Lemma fill_lookup_set cb l b : forall (lk : jsmap jsstring),
  In b l -> toLowerCase b <> protoKey ->
  mapGet (fold_left (fun lk b => lookupAssign lk (toLowerCase b) cb) l lk)
    (toLowerCase b) = Some cb.
Proof.
  induction l as [|x l IH]; intros lk; simpl; [tauto|].
  intros [-> | H] Hp; [|apply IH; assumption].
  apply fill_lookup_keep; rewrite mapGet_lookupAssign, streq_refl.
  rewrite (proj2 (streq_neq _ _) Hp); reflexivity.
Qed.

Lemma fill_lookup_other cb l a : forall (lk : jsmap jsstring),
  (forall b, In b l -> toLowerCase b <> a) ->
  mapGet (fold_left (fun lk b => lookupAssign lk (toLowerCase b) cb) l lk) a
  = mapGet lk a.
Proof.
  induction l as [|x l IH]; intros lk H; simpl; [reflexivity|].
  rewrite IH by (intros b Hb; apply H; simpl; auto).
  rewrite mapGet_lookupAssign.
  destruct (streq (toLowerCase x) a) eqn:E; [|reflexivity].
  apply streq_eq in E; exfalso; apply (H x); simpl; auto.
Qed.

Lemma canonical_fold_other es a : forall lk lk',
  fold_left canonicalStep es (Some lk) = Some lk' ->
  (forall k l b, In (k, l) es -> In b l -> toLowerCase b <> a) ->
  mapGet lk' a = mapGet lk a.
Proof.
  induction es as [|[k l] es IH]; intros lk lk' Hf H; simpl in Hf.
  - injection Hf as <-; reflexivity.
  - destruct (canonicalBrand l) as [m|] eqn:Em;
      [|rewrite canonical_fold_None in Hf; discriminate].
    rewrite (IH _ _ Hf) by (intros k' l' b Hin; apply (H k'); simpl; auto).
    apply fill_lookup_other; intros b Hb; apply (H k l); simpl; auto.
Qed.

Lemma fill_lookup_proto cb l : forall (lk : jsmap jsstring),
  mapGet lk protoKey = None ->
  mapGet (fold_left (fun lk b => lookupAssign lk (toLowerCase b) cb) l lk)
    protoKey = None.
Proof.
  induction l as [|x l IH]; intros lk H0; simpl; [exact H0|].
  apply IH; rewrite mapGet_lookupAssign.
  destruct (streq (toLowerCase x) protoKey); exact H0.
Qed.

(** Nothing is ever stored under [__proto__]. *)
Lemma canonical_fold_proto es : forall lk lk',
  mapGet lk protoKey = None ->
  fold_left canonicalStep es (Some lk) = Some lk' ->
  mapGet lk' protoKey = None.
Proof.
  induction es as [|[k l] es IH]; intros lk lk' H0 Hf; simpl in Hf.
  - injection Hf as <-; exact H0.
  - destruct (canonicalBrand l) as [m|];
      [|rewrite canonical_fold_None in Hf; discriminate].
    apply (IH _ _ (fill_lookup_proto _ l lk H0) Hf).
Qed.

Lemma canonical_fold_prefix es1 : forall es2 acc lk,
  fold_left canonicalStep (es1 ++ es2) acc = Some lk ->
  exists lk1, fold_left canonicalStep es1 acc = Some lk1.
Proof.
  intros es2 acc lk; rewrite fold_left_app.
  destruct (fold_left canonicalStep es1 acc) as [lk1|]; [eauto|].
  rewrite canonical_fold_None; discriminate.
Qed.

End LookupShape.

(** X3. [buildCanonicalLookup] throws (the [reduce] of an empty array
    without an initial value) exactly when some own property of its
    argument, as [Object.entries] lists them, holds an empty neighbour
    list; on every other mapping it returns a lookup. For a mapping that
    is a plain dictionary (no array was made its prototype) these are all
    its entries. *)
Theorem lookup_fails_on_empty_list `{Unicode} (g : BrandsMapping) :
  (buildCanonicalLookup g = None <-> exists k, In (k, []) (objectEntries g))
  /\ (arrayPrototype g = None ->
      buildCanonicalLookup g = None <-> exists k, In (k, []) g).
Proof.
  assert (Hown : buildCanonicalLookup g = None <->
                 exists k, In (k, []) (objectEntries g)).
  { split.
    - intros Hb; destruct (empty_list_or_none (objectEntries g))
        as [(k & Hk) | Hne].
      + exists k; exact Hk.
      + destruct (canonical_fold_total (objectEntries g) [] Hne)
          as (lk & Hf & _).
        change (buildCanonicalLookup g = Some lk) in Hf; congruence.
    - intros (k & Hk); unfold buildCanonicalLookup.
      apply (canonical_fold_empty _ _ k); exact Hk. }
  split; [exact Hown|].
  intros Hplain; rewrite Hown; split; intros (k & Hk); exists k.
  - apply objectEntries_In; exact Hk.
  - apply objectEntries_own; [exact Hk|].
    intros E; simpl in E; subst k.
    apply In_mapHas in Hk; unfold mapHas, arrayPrototype in *.
    rewrite Hplain in Hk; discriminate.
Qed.

Lemma lookup_fails_on_empty_list_witness :
  @buildCanonicalLookup UnicodeFragment [(js "k"%string, [])] = None.
Proof.
  apply (proj2 (@lookup_fails_on_empty_list UnicodeFragment
                  [(js "k"%string, [])])); [reflexivity|].
  exists (js "k"%string); simpl; auto.
Defined.

Lemma lookup_domain `{Unicode} (g : BrandsMapping)
  (canonicalLookup : jsmap jsstring) (a : jsstring) :
  buildCanonicalLookup g = Some canonicalLookup ->
  mapHas canonicalLookup a = true <->
  a <> protoKey
  /\ exists k l b, In (k, l) (objectEntries g) /\ In b l
                   /\ a = toLowerCase b.
Proof.
  intros Hb; split.
  - unfold mapHas; destruct (mapGet canonicalLookup a) as [c|] eqn:E;
      [intros _|discriminate].
    split.
    + intros ->.
      rewrite (canonical_fold_proto (objectEntries g) [] canonicalLookup
                 eq_refl Hb) in E; discriminate.
    + destruct (canonical_fold _ _ _ _ _ Hb E)
        as [Hn | (k & l & b & m & Hin & Hbl & Ha & _)]; [discriminate|].
      exists k, l, b; auto.
  - intros (Hp & k & l & b & Hin & Hbl & ->).
    destruct (canonical_fold_total (objectEntries g) []
                (lookup_built_nonempty g _ Hb)) as (lk & Hf & Hk).
    change (buildCanonicalLookup g = Some lk) in Hf; rewrite Hb in Hf.
    injection Hf as <-; apply Hk; right; split; [exact Hp|].
    exists k, l, b; auto.
Qed.

(** X4. The keys of a lookup that was built are exactly the lower-cased
    members of the neighbour lists that [Object.entries] lists, the key
    [__proto__] apart, which is never stored: an alias that is a member of
    no such list gets no label. *)
Theorem lookup_keys_are_list_members `{Unicode} (g : BrandsMapping)
  (canonicalLookup : jsmap jsstring) (a : jsstring) :
  buildCanonicalLookup g = Some canonicalLookup ->
  mapHas canonicalLookup a = true <->
  a <> protoKey
  /\ exists k l b, In (k, l) (objectEntries g) /\ In b l
                   /\ a = toLowerCase b.
Proof. apply lookup_domain. Qed.

Open Scope string_scope.

Lemma lookup_keys_are_list_members_witness :
  mapHas [(js "contour", js "contour"); (js "heel", js "heel")] (js "heel")
    = true <->
  js "heel" <> protoKey
  /\ exists k l b,
       In (k, l) (objectEntries (getBrandsMapping [connection "heel" "contour"]))
       /\ In b l /\ js "heel" = toLowerCase b.
Proof.
  apply (@lookup_keys_are_list_members UnicodeFragment
           (getBrandsMapping [connection "heel" "contour"])
           [(js "contour", js "contour"); (js "heel", js "heel")]
           (js "heel")).
  vm_compute; reflexivity.
Defined.

Close Scope string_scope.

(** X5. Later entries overwrite earlier ones: the label of an alias whose
    lower-cased form is not [__proto__] is the one chosen for the last
    neighbour list, in the order of [Object.entries], that holds the
    alias. *)
Theorem lookup_label_from_last_list `{Unicode} (g : BrandsMapping)
  (canonicalLookup : jsmap jsstring)
  (earlier later : BrandsMapping) (k : jsstring) (l : list jsstring)
  (b : jsstring) :
  buildCanonicalLookup g = Some canonicalLookup ->
  objectEntries g = earlier ++ (k, l) :: later ->
  In b l ->
  toLowerCase b <> protoKey ->
  (forall k' l' b', In (k', l') later -> In b' l' ->
                    toLowerCase b' <> toLowerCase b) ->
  exists m, canonicalBrand l = Some m
    /\ mapGet canonicalLookup (toLowerCase b) = Some (toLowerCase m).
Proof.
  unfold buildCanonicalLookup; intros Hb He Hbl Hproto Hlater.
  rewrite He in Hb.
  destruct (canonical_fold_prefix _ _ _ _ Hb) as (lk1 & H1).
  rewrite fold_left_app, H1 in Hb; simpl in Hb.
  destruct (canonicalBrand l) as [m|] eqn:Em;
    [|rewrite canonical_fold_None in Hb; discriminate].
  exists m; split; [reflexivity|].
  rewrite (canonical_fold_other _ _ _ _ Hb Hlater).
  apply fill_lookup_set; assumption.
Qed.

Open Scope string_scope.

Lemma lookup_label_from_last_list_witness :
  exists m, canonicalBrand [js "aa"; js "c"] = Some m
    /\ mapGet [(js "aa", js "c"); (js "bbb", js "aa"); (js "k1", js "k1");
               (js "k2", js "k2"); (js "c", js "c")] (js "aa")
       = Some (toLowerCase m).
Proof.
  apply (@lookup_label_from_last_list UnicodeFragment
           (getBrandsMapping
              [connection "k1" "aa;bbb"; connection "k2" "aa;c"])
           [(js "aa", js "c"); (js "bbb", js "aa"); (js "k1", js "k1");
            (js "k2", js "k2"); (js "c", js "c")]
           [(js "k1", [js "aa"; js "bbb"]); (js "aa", [js "k1"; js "k2"]);
            (js "bbb", [js "k1"])]
           [(js "c", [js "k2"])]
           (js "k2") [js "aa"; js "c"] (js "aa")).
  - vm_compute; reflexivity.
  - vm_compute; reflexivity.
  - simpl; auto.
  - vm_compute; discriminate.
  - intros k' l' b' [E | []] Hb'; injection E as <- <-.
    destruct Hb' as [<- | []]; vm_compute; discriminate.
Defined.

Close Scope string_scope.

(** X6. An ignored alias is the label of an alias only when every member of
    the neighbour list that gave the label is ignored: as long as a list
    holds one alias that is not ignored, its label is not on the ignore
    list. *)
Theorem ignored_label_only_from_ignored_list `{Unicode} (g : BrandsMapping)
  (canonicalLookup : jsmap jsstring) (a c : jsstring) :
  buildCanonicalLookup g = Some canonicalLookup ->
  mapGet canonicalLookup a = Some c ->
  In c ignoreBrandsList ->
  exists k l b,
    In (k, l) g /\ In b l /\ a = toLowerCase b
    /\ forall x, In x l -> ignored x = true.
Proof.
  intros Hb Hg Hc.
  destruct (canonical_fold _ _ _ _ _ Hb Hg)
    as [Hn | (k & l & b & m & Hin & Hbl & Ha & Hm & ->)]; [discriminate|].
  exists k, l, b; split;
    [apply (proj1 (In_objectEntries _ _ _)); exact Hin|].
  split; [exact Hbl|]; split; [exact Ha|].
  rewrite canonicalBrand_pool in Hm.
  apply reduceShortest_spec, firstShortest_In in Hm.
  unfold pool in Hm.
  destruct (filter (fun b => negb (ignored b)) l) as [|y ys] eqn:Ef.
  - intros x Hx; destruct (ignored x) eqn:Ex; [reflexivity|].
    assert (Hf : In x (filter (fun b => negb (ignored b)) l))
      by (apply filter_In; rewrite Ex; auto).
    rewrite Ef in Hf; destruct Hf.
  - rewrite <- Ef in Hm; apply filter_In in Hm as [_ Hm].
    unfold ignored in Hm; apply (proj2 (setHas_In _ _)) in Hc.
    rewrite Hc in Hm; discriminate.
Qed.

Open Scope string_scope.

Lemma ignored_label_only_from_ignored_list_witness :
  exists k l b,
    In (k, l) (getBrandsMapping [connection "acme" "bio"])
    /\ In b l /\ js "bio" = toLowerCase b
    /\ forall x, In x l -> ignored x = true.
Proof.
  apply (@ignored_label_only_from_ignored_list UnicodeFragment
           (getBrandsMapping [connection "acme" "bio"])
           [(js "bio", js "bio"); (js "acme", js "acme")]
           (js "bio") (js "bio")).
  - vm_compute; reflexivity.
  - vm_compute; reflexivity.
  - vm_compute; auto.
Defined.

Close Scope string_scope.

(* ------------------------------------------------------------------ *)
(** ** The sorted pattern cache and the matched list *)

Lemma insertByLength_perm e l : Permutation (e :: l) (insertByLength e l).
Proof.
  induction l as [|x l IH]; simpl; [reflexivity|].
  destruct (length (brand x) <=? length (brand e)); [reflexivity|].
  rewrite perm_swap; constructor; exact IH.
Qed.

Lemma insertByLength_longestFirst e l :
  longestFirst (map brand l) ->
  longestFirst (map brand (insertByLength e l)).
Proof.
  induction l as [|x l IH]; simpl; [intros _; split; [intros y []|exact I]|].
  intros [Hx Hl].
  destruct (length (brand x) <=? length (brand e)) eqn:E; simpl.
  - apply Nat.leb_le in E; split; [|split; assumption].
    intros y [<- | Hy]; [exact E|]. specialize (Hx y Hy); lia.
  - apply Nat.leb_gt in E; split; [|apply IH; exact Hl].
    intros y Hy; apply in_map_iff in Hy as (z & <- & Hz).
    apply In_insertByLength in Hz as [-> | Hz]; [lia|].
    apply Hx, in_map; exact Hz.
Qed.

Lemma insertByLength_stable n e l :
  filter (fun x => length (brand x) =? n) (insertByLength e l)
  = filter (fun x => length (brand x) =? n) (e :: l).
Proof.
  induction l as [|x l IH]; [reflexivity|].
  simpl insertByLength.
  destruct (length (brand x) <=? length (brand e)) eqn:E; [reflexivity|].
  apply Nat.leb_gt in E.
  change (filter (fun x0 => length (brand x0) =? n)
            (x :: insertByLength e l)) with
    (if length (brand x) =? n
     then x :: filter (fun x0 => length (brand x0) =? n) (insertByLength e l)
     else filter (fun x0 => length (brand x0) =? n) (insertByLength e l)).
  rewrite IH; simpl.
  destruct (length (brand e) =? n) eqn:Ee, (length (brand x) =? n) eqn:Ex;
    try reflexivity.
  apply Nat.eqb_eq in Ee, Ex; lia.
Qed.

(** X7. The sort of the pattern cache
    ([(a, b) => b.brand.length - a.brand.length]) rearranges the entries so
    that the brands stand longest first, and it is stable: entries whose
    brands have the same length keep their order. *)
Theorem cache_sort_stable_longest_first (l : list BrandMatchCache) :
  Permutation l (sortByLengthDesc l)
  /\ longestFirst (map brand (sortByLengthDesc l))
  /\ forall n,
       filter (fun e => length (brand e) =? n) (sortByLengthDesc l)
       = filter (fun e => length (brand e) =? n) l.
Proof.
  unfold sortByLengthDesc; induction l as [|e l (IHp & IHs & IHf)]; simpl.
  - split; [constructor|]; split; [exact I | reflexivity].
  - split; [|split].
    + rewrite <- insertByLength_perm; constructor; exact IHp.
    + apply insertByLength_longestFirst; exact IHs.
    + intros n; rewrite insertByLength_stable; simpl; rewrite IHf.
      reflexivity.
Qed.

Section MatchedList.
Context {U : Unicode}.

Lemma sorted_longestFirst l :
  longestFirst (map brand (sortByLengthDesc l)).
Proof.
  unfold sortByLengthDesc; induction l as [|e l IH]; simpl; [exact I|].
  apply insertByLength_longestFirst; exact IH.
Qed.

(** What the matching loop has collected in [acc] is kept, and an entry is
    added when its pattern matches and its brand is new. *)
Lemma matchBrands_fold t cache : forall acc m,
  In m (fold_left
          (fun matched cacheEntry =>
             if setHas matched (brand cacheEntry) then matched
             else if checkBrandMatch t cacheEntry
                  then matched ++ [brand cacheEntry]
                  else matched) cache acc) <->
  In m acc
  \/ exists e, In e cache /\ brand e = m /\ checkBrandMatch t e = true.
Proof.
  induction cache as [|e cache IH]; intros acc m; simpl.
  - split; [auto | intros [H | (e & [] & _)]; exact H].
  - rewrite IH; split.
    + intros [H | (e' & He' & Hb & Hc)]; [|eauto 6].
      destruct (setHas acc (brand e)); [auto|].
      destruct (checkBrandMatch t e) eqn:Ec; [|auto].
      apply in_app_iff in H as [H | [<- | []]]; eauto 6.
    + intros [H | (e' & [<- | He'] & Hb & Hc)].
      * left; destruct (setHas acc (brand e)); [exact H|].
        destruct (checkBrandMatch t e); [apply in_or_app|]; auto.
      * left; destruct (setHas acc (brand e)) eqn:Es.
        -- apply setHas_In in Es; rewrite <- Hb; exact Es.
        -- rewrite Hc; apply in_or_app; right; simpl; auto.
      * right; eauto.
Qed.

Lemma In_matchBrands_iff t cache m :
  In m (matchBrands t cache) <->
  exists e, In e cache /\ brand e = m /\ checkBrandMatch t e = true.
Proof.
  unfold matchBrands; rewrite matchBrands_fold; simpl; tauto.
Qed.

Lemma matchLoop_NoDup t cache : forall acc,
  NoDup acc -> NoDup (matchLoop t cache acc).
Proof.
  unfold matchLoop; induction cache as [|e cache IH]; intros acc H; simpl;
    [exact H|].
  apply IH; destruct (setHas acc (brand e)) eqn:Es; [exact H|].
  destruct (checkBrandMatch t e); [|exact H].
  apply NoDup_app; [exact H | repeat constructor; intros [] |].
  apply setHas_not_In in Es; intros a Ha [<- | []]; exact (Es Ha).
Qed.

Lemma matchBrands_NoDup t cache : NoDup (matchBrands t cache).
Proof. apply (matchLoop_NoDup t cache []); constructor. Qed.

Lemma longestFirst_snoc acc x :
  longestFirst acc -> (forall a, In a acc -> length x <= length a) ->
  longestFirst (acc ++ [x]).
Proof.
  induction acc as [|a acc IH]; simpl.
  - intros _ _; split; [intros y [] | exact I].
  - intros [Ha Hacc] Hx; split.
    + intros y Hy; apply in_app_iff in Hy as [Hy | [<- | []]]; auto.
    + apply IH; auto.
Qed.

Lemma matchLoop_longestFirst t cache : forall acc,
  longestFirst acc ->
  (forall a e, In a acc -> In e cache -> length (brand e) <= length a) ->
  longestFirst (map brand cache) ->
  longestFirst (matchLoop t cache acc).
Proof.
  unfold matchLoop; induction cache as [|e cache IH];
    intros acc Hacc Hge Hs; simpl; [exact Hacc|].
  simpl in Hs; destruct Hs as [He Hs].
  destruct (setHas acc (brand e));
    [apply IH; auto; intros a x Ha Hx; apply Hge; simpl; auto|].
  destruct (checkBrandMatch t e);
    [|apply IH; auto; intros a x Ha Hx; apply Hge; simpl; auto].
  apply IH; [| |exact Hs].
  - apply longestFirst_snoc; [exact Hacc|].
    intros a Ha; apply Hge; simpl; auto.
  - intros a x Ha Hx; apply in_app_iff in Ha as [Ha | [<- | []]].
    + apply Hge; simpl; auto.
    + apply He, in_map; exact Hx.
Qed.

Lemma matchBrands_longestFirst t cache :
  longestFirst (map brand cache) -> longestFirst (matchBrands t cache).
Proof.
  apply (matchLoop_longestFirst t cache []); [exact I | intros a e []].
Qed.

End MatchedList.

(* ------------------------------------------------------------------ *)
(** ** The results of [assignBrandIfKnown] *)

Section Results.
Context {U : Unicode}.

Lemma processProduct_fields lookup cache net nc p :
  let nt := fst (normalizeInputIfAccentInsensitive nc (title p)) in
  let matched := matchBrands nt cache in
  let r := fst (processProduct lookup cache net nc p) in
  product r = title p
  /\ matchedBrands r = matched
  /\ snd (processProduct lookup cache net nc p)
     = snd (normalizeInputIfAccentInsensitive nc (title p))
  /\ priorityBrand r
     = (if 0 <? length matched
        then choosePriority (toLowerCase nt) net matched else None)
  /\ assignedBrand r
     = (if 0 <? length matched
        then orElse (mapGet lookup
                       (propertyKey
                          (choosePriority (toLowerCase nt) net matched)))
               (choosePriority (toLowerCase nt) net matched)
        else None).
Proof.
  unfold processProduct.
  destruct (normalizeInputIfAccentInsensitive nc (title p)) as [nt nc'].
  simpl fst; simpl snd.
  destruct (0 <? length (matchBrands nt cache)); simpl; auto.
Qed.

Lemma productLoop_results lookup cache net items : forall acc nc r,
  cacheSound nc ->
  In r (fst (productLoop lookup cache net items (acc, nc))) ->
  In r acc
  \/ exists nc' p, cacheSound nc' /\ In p items
       /\ r = fst (processProduct lookup cache net nc' p).
Proof.
  unfold productLoop.
  induction items as [|p items IH]; intros acc nc r Hs; simpl; [auto|].
  pose proof (processProduct_fields lookup cache net nc p)
    as (_ & _ & Hc & _).
  destruct (processProduct lookup cache net nc p) as [r0 nc0] eqn:E.
  simpl in Hc; subst nc0.
  intros H; apply IH in H as [H | (nc' & q & Hs' & Hq & ->)].
  - apply in_app_iff in H as [H | [<- | []]]; [auto|].
    right; exists nc, p; rewrite E; simpl; auto.
  - right; exists nc', q; auto.
  - apply normalize_cached; exact Hs.
Qed.

Lemma productLoop_products lookup cache net items : forall acc nc,
  map product (fst (productLoop lookup cache net items (acc, nc)))
  = map product acc ++ map title items.
Proof.
  unfold productLoop.
  induction items as [|p items IH]; intros acc nc; simpl.
  - rewrite app_nil_r; reflexivity.
  - pose proof (processProduct_fields lookup cache net nc p) as (Hp & _).
    destruct (processProduct lookup cache net nc p) as [r0 nc0].
    rewrite IH, map_app; simpl in *; rewrite Hp, <- app_assoc.
    reflexivity.
Qed.

(** What a run of [assignBrandIfKnown] that returns computes. *)
Lemma assign_run connections items results :
  assignBrandIfKnown connections items = Some results ->
  exists lookup,
    buildCanonicalLookup (getBrandsMapping connections) = Some lookup
    /\ results
       = fst (productLoop lookup
                (sortByLengthDesc
                   (buildBrandMatchCache
                      (allBrandsOf (getBrandsMapping connections))))
                (buildBrandNetworkCache (getBrandsMapping connections)
                   (allBrandsOf (getBrandsMapping connections)))
                items ([], [])).
Proof.
  unfold assignBrandIfKnown; cbv zeta; intros H.
  destruct (buildCanonicalLookup (getBrandsMapping connections))
    as [lookup|]; [|discriminate].
  exists lookup; split; [reflexivity|].
  injection H as <-; reflexivity.
Qed.

Lemma In_allBrandsOf (g : BrandsMapping) b :
  In b (allBrandsOf g) <->
  exists k l, In (k, l) (objectEntries g) /\ In b l.
Proof.
  unfold allBrandsOf.
  assert (H : forall vs acc,
             In b (fold_left (fun all brands => fold_left setAdd brands all)
                     vs acc) <->
             In b acc \/ exists l, In l vs /\ In b l).
  { induction vs as [|v vs IH]; intros acc; simpl.
    - split; [auto | intros [H | (l & [] & _)]; exact H].
    - rewrite IH, fold_setAdd_In; split.
      + intros [[H | H] | (l & Hl & Hb)]; eauto.
      + intros [H | (l & [<- | Hl] & Hb)]; eauto. }
  rewrite H; unfold objectValues; simpl; split.
  - intros [[] | (l & Hl & Hb)].
    apply in_map_iff in Hl as ([k l'] & <- & Hkl).
    exists k, l'; split; [exact Hkl | exact Hb].
  - intros (k & l & Hkl & Hb); right; exists l; split; [|exact Hb].
    apply in_map_iff; exists (k, l); split; [reflexivity | exact Hkl].
Qed.

Lemma NoDup_allBrandsOf (g : BrandsMapping) : NoDup (allBrandsOf g).
Proof.
  unfold allBrandsOf.
  assert (Hin : forall l acc, NoDup acc -> NoDup (fold_left setAdd l acc)).
  { induction l as [|x l IH]; intros acc H; simpl; [exact H|].
    apply IH, NoDup_setAdd; exact H. }
  assert (H : forall vs acc,
             NoDup acc ->
             NoDup (fold_left (fun all brands => fold_left setAdd brands all)
                      vs acc)).
  { induction vs as [|v vs IH]; intros acc Ha; simpl; [exact Ha|].
    apply IH, Hin; exact Ha. }
  apply H; constructor.
Qed.

(** In a graph built from rows, the members of the arrays are aliases
    that the rows name. *)
Lemma members_are_keys connections k l b :
  In (k, l) (getBrandsMapping connections) -> In b l ->
  mapHas (getBrandsMapping connections) b = true.
Proof.
  intros Hkl Hb.
  assert (Hn : In b (neighbours (getBrandsMapping connections) k)).
  { unfold neighbours.
    rewrite (NoDup_keys_get _ (getBrandsMapping connections) k l);
      [exact Hb | | exact Hkl].
    rewrite getBrandsMapping_brandMapOf; apply NoDup_brandMapOf. }
  apply neighbours_sym in Hn; unfold neighbours in Hn; unfold mapHas.
  destruct (mapGet (getBrandsMapping connections) b);
    [reflexivity | destruct Hn].
Qed.

Lemma allBrands_are_keys connections b :
  In b (allBrandsOf (getBrandsMapping connections)) ->
  mapHas (getBrandsMapping connections) b = true.
Proof.
  intros H0; apply In_allBrandsOf in H0 as (k & l & Hkl & Hb).
  apply (members_are_keys connections k l b); [|exact Hb].
  apply objectEntries_In; exact Hkl.
Qed.

(** When no row names [__proto__], every alias is a member of an own
    array. *)
Lemma keys_are_allBrands connections b :
  plainAliases connections ->
  mapHas (getBrandsMapping connections) b = true ->
  In b (allBrandsOf (getBrandsMapping connections)).
Proof.
  intros Hp Hk; apply In_allBrandsOf.
  destruct (graph_key_has_neighbour _ _ Hk) as [y Hy].
  apply neighbours_sym in Hy; unfold neighbours in Hy.
  destruct (mapGet (getBrandsMapping connections) y) as [l|] eqn:E;
    [|destruct Hy].
  apply mapGet_In in E.
  exists y, l; split; [|exact Hy].
  apply objectEntries_own; [exact E|].
  exact (proj1 (plainAliases_keys _ _ Hp (In_mapHas _ _ _ _ E))).
Qed.

End Results.

(** X8. [assignBrandIfKnown] emits one record per product, in the order of
    the products, each with the product's title. *)
Theorem results_follow_products `{Unicode}
  (connections : list BrandConnection) (items : list Product)
  (results : list MatchResult) :
  assignBrandIfKnown connections items = Some results ->
  map product results = map title items.
Proof.
  intros Hrun; destruct (assign_run _ _ _ Hrun) as (lookup & _ & ->).
  apply (productLoop_products lookup _ _ items [] []).
Qed.

Open Scope string_scope.

Lemma results_follow_products_witness :
  map product
    [{| product := js "Gum Paste Relief"; matchedBrands := [js "gum"];
        assignedBrand := Some (js "gum"); priorityBrand := Some (js "gum") |};
     {| product := js "Generic Vitamin C Tablets"; matchedBrands := [];
        assignedBrand := None; priorityBrand := None |}]
  = map title [item "Gum Paste Relief"; item "Generic Vitamin C Tablets"].
Proof.
  apply (@results_follow_products UnicodeFragment
           [connection "gum" "sunstar"]).
  vm_compute; reflexivity.
Defined.

Close Scope string_scope.

(** X9. In every record that [assignBrandIfKnown] emits, the matched list
    holds exactly the members of the neighbour arrays that [Object.values]
    lists (the own properties of the mapping) that are not ignored and whose
    compiled pattern matches the normalized title, each once. When no row
    names the alias [__proto__], these members are all the aliases of the
    graph. *)
Theorem matched_list_is_exact `{Unicode}
  (connections : list BrandConnection) (items : list Product)
  (results : list MatchResult) (r : MatchResult) :
  assignBrandIfKnown connections items = Some results ->
  In r results ->
  NoDup (matchedBrands r)
  /\ (forall m,
        In m (matchedBrands r) <->
        (exists k l,
           In (k, l) (objectEntries (getBrandsMapping connections))
           /\ In m l)
        /\ setHas ignoreBrandsList m = false
        /\ checkBrandMatch
             (Direct.normalizeInputIfAccentInsensitive (product r))
             (compileBrand m) = true)
  /\ (plainAliases connections ->
      forall m,
        (exists k l,
           In (k, l) (objectEntries (getBrandsMapping connections))
           /\ In m l)
        <-> mapHas (getBrandsMapping connections) m = true).
Proof.
  intros Hrun Hr; destruct (assign_run _ _ _ Hrun) as (lookup & _ & ->).
  apply productLoop_results in Hr as [[] | (nc & p & Hs & _ & ->)];
    [|apply cacheSound_nil].
  pose proof (processProduct_fields lookup
                (sortByLengthDesc
                   (buildBrandMatchCache
                      (allBrandsOf (getBrandsMapping connections))))
                (buildBrandNetworkCache (getBrandsMapping connections)
                   (allBrandsOf (getBrandsMapping connections))) nc p)
    as (Hp & Hm & _).
  cbv zeta in Hp, Hm; rewrite Hp, Hm.
  rewrite (proj1 (normalize_cached nc (title p) Hs)).
  split; [apply matchBrands_NoDup|]; split.
  - intros m; rewrite In_matchBrands_iff; split.
    + intros (e & He & <- & Hc).
      apply In_sortByLengthDesc, In_buildBrandMatchCache in He
        as (b & Hb & Hi & ->).
      rewrite brand_compileBrand; split; [apply In_allBrandsOf; exact Hb|].
      auto.
    + intros (Hk & Hi & Hc); exists (compileBrand m).
      split; [|split; [apply brand_compileBrand | exact Hc]].
      apply In_sortByLengthDesc, In_buildBrandMatchCache.
      exists m; split; [apply In_allBrandsOf; exact Hk | auto].
  - intros Hplain m; rewrite <- In_allBrandsOf; split.
    + apply allBrands_are_keys.
    + apply keys_are_allBrands; exact Hplain.
Qed.

Open Scope string_scope.

Lemma matched_list_is_exact_witness :
  let r := {| product := js "Heel Contour Cream 50ml";
              matchedBrands := [js "contour"; js "heel"];
              assignedBrand := Some (js "heel");
              priorityBrand := Some (js "heel") |} in
  NoDup (matchedBrands r)
  /\ (forall m,
        In m (matchedBrands r) <->
        (exists k l,
           In (k, l)
             (objectEntries (getBrandsMapping [connection "heel" "contour"]))
           /\ In m l)
        /\ setHas ignoreBrandsList m = false
        /\ checkBrandMatch
             (Direct.normalizeInputIfAccentInsensitive (product r))
             (compileBrand m) = true)
  /\ (plainAliases [connection "heel" "contour"] ->
      forall m,
        (exists k l,
           In (k, l)
             (objectEntries (getBrandsMapping [connection "heel" "contour"]))
           /\ In m l)
        <-> mapHas (getBrandsMapping [connection "heel" "contour"]) m = true).
Proof.
  apply (@matched_list_is_exact UnicodeFragment
           [connection "heel" "contour"] [item "Heel Contour Cream 50ml"]
           [{| product := js "Heel Contour Cream 50ml";
               matchedBrands := [js "contour"; js "heel"];
               assignedBrand := Some (js "heel");
               priorityBrand := Some (js "heel") |}]).
  - vm_compute; reflexivity.
  - simpl; auto.
Defined.

Close Scope string_scope.

(** X10. In every record that [assignBrandIfKnown] emits, the matched
    aliases stand longest first: the first matched alias, which is the
    fallback of the priority choice, is one of the longest. *)
Theorem matched_list_longest_first `{Unicode}
  (connections : list BrandConnection) (items : list Product)
  (results : list MatchResult) (r : MatchResult) :
  assignBrandIfKnown connections items = Some results ->
  In r results ->
  longestFirst (matchedBrands r).
Proof.
  intros Hrun Hr; destruct (assign_run _ _ _ Hrun) as (lookup & _ & ->).
  apply productLoop_results in Hr as [[] | (nc & p & Hs & _ & ->)];
    [|apply cacheSound_nil].
  pose proof (processProduct_fields lookup
                (sortByLengthDesc
                   (buildBrandMatchCache
                      (allBrandsOf (getBrandsMapping connections))))
                (buildBrandNetworkCache (getBrandsMapping connections)
                   (allBrandsOf (getBrandsMapping connections))) nc p)
    as (_ & Hm & _).
  cbv zeta in Hm; rewrite Hm.
  apply matchBrands_longestFirst, sorted_longestFirst.
Qed.

Open Scope string_scope.

Lemma matched_list_longest_first_witness :
  longestFirst [js "contour"; js "heel"].
Proof.
  apply (@matched_list_longest_first UnicodeFragment
           [connection "heel" "contour"] [item "Heel Contour Cream 50ml"]
           [{| product := js "Heel Contour Cream 50ml";
               matchedBrands := [js "contour"; js "heel"];
               assignedBrand := Some (js "heel");
               priorityBrand := Some (js "heel") |}]
           {| product := js "Heel Contour Cream 50ml";
              matchedBrands := [js "contour"; js "heel"];
              assignedBrand := Some (js "heel");
              priorityBrand := Some (js "heel") |}).
  - vm_compute; reflexivity.
  - simpl; auto.
Defined.

Close Scope string_scope.

(* ------------------------------------------------------------------ *)
(** ** The scan for the priority alias *)

(** What the scan holds after the candidates [seen]. *)
Lemma scan_first_of_leftmost lowerTitle l : forall seen st,
  match st with
  | (None, None) => forall c, In c seen -> indexOf lowerTitle c = None
  | (Some i, Some p) =>
      firstOfLeftmost lowerTitle seen p /\ indexOf lowerTitle p = Some i
  | _ => False
  end ->
  match fold_left (scanStep lowerTitle) l st with
  | (None, None) => forall c, In c (seen ++ l) -> indexOf lowerTitle c = None
  | (Some i, Some p) =>
      firstOfLeftmost lowerTitle (seen ++ l) p
      /\ indexOf lowerTitle p = Some i
  | _ => False
  end.
Proof.
  induction l as [|b l IH]; intros seen st Hst; simpl.
  - rewrite app_nil_r; exact Hst.
  - replace (seen ++ b :: l) with ((seen ++ [b]) ++ l)
      by (rewrite <- app_assoc; reflexivity).
    apply IH; unfold scanStep.
    destruct (indexOf lowerTitle b) as [j|] eqn:Ej.
    + destruct st as [[i|] [p|]]; simpl; try contradiction.
      * destruct Hst as [(pre & post & i' & Hs & Hi & Hpre & Hpost) Hp].
        assert (i' = i) by congruence; subst i'.
        destruct (j <? i) eqn:Eji; simpl.
        -- apply Nat.ltb_lt in Eji; split; [|exact Ej].
           exists seen, [], j; split; [reflexivity|].
           split; [exact Ej|]; split; [|intros c k []].
           intros c k Hc Hk; subst seen.
           apply in_app_iff in Hc as [Hc | [<- | Hc]].
           ++ specialize (Hpre c k Hc Hk); lia.
           ++ assert (k = i) by congruence; lia.
           ++ specialize (Hpost c k Hc Hk); lia.
        -- apply Nat.ltb_ge in Eji; split; [|exact Hp].
           exists pre, (post ++ [b]), i; split;
             [subst seen; rewrite <- app_assoc; reflexivity|].
           split; [exact Hi|]; split; [exact Hpre|].
           intros c k Hc Hk; apply in_app_iff in Hc as [Hc | [<- | []]].
           ++ exact (Hpost c k Hc Hk).
           ++ assert (k = j) by congruence; lia.
      * split; [|exact Ej].
        exists seen, [], j; split; [reflexivity|].
        split; [exact Ej|]; split; [|intros c k []].
        intros c k Hc Hk; rewrite (Hst c Hc) in Hk; discriminate.
    + destruct st as [[i|] [p|]]; simpl; try contradiction.
      * destruct Hst as [(pre & post & i' & Hs & Hi & Hpre & Hpost) Hp].
        split; [|exact Hp].
        exists pre, (post ++ [b]), i'; split;
          [subst seen; rewrite <- app_assoc; reflexivity|].
        split; [exact Hi|]; split; [exact Hpre|].
        intros c k Hc Hk; apply in_app_iff in Hc as [Hc | [<- | []]].
        -- exact (Hpost c k Hc Hk).
        -- congruence.
      * intros c Hc; apply in_app_iff in Hc as [Hc | [<- | []]];
          [exact (Hst c Hc) | exact Ej].
Qed.

(** X11. The scan for the priority alias keeps the first of the candidates
    that occur at the smallest index of the lower-cased title (the test is
    [index < earliestIndex], so a later candidate at the same index does not
    replace it); it returns nothing only when no candidate occurs in the
    title. *)
Theorem scan_keeps_first_of_leftmost (lowerTitle : jsstring)
  (candidates : list jsstring) :
  match scanEarliest lowerTitle candidates with
  | Some b => firstOfLeftmost lowerTitle candidates b
  | None => forall c, In c candidates -> indexOf lowerTitle c = None
  end.
Proof.
  unfold scanEarliest.
  pose proof (scan_first_of_leftmost lowerTitle candidates [] (None, None)
                (fun _ F => match F with end)) as H; simpl in H.
  destruct (fold_left (scanStep lowerTitle) candidates (None, None))
    as [[i|] [p|]]; simpl; try contradiction.
  - exact (proj1 H).
  - exact H.
Qed.

Section ReducePriority.
Context {U : Unicode}.

Lemma reduce_last_of_leftmost lowerTitle l : forall seen best,
  match best with
  | None => forall c, In c seen -> indexOf lowerTitle c = None
  | Some p => lastOfLeftmost lowerTitle seen p
  end ->
  match fold_left (Gated.reduceStep lowerTitle) l best with
  | None => forall c, In c (seen ++ l) -> indexOf lowerTitle c = None
  | Some p => lastOfLeftmost lowerTitle (seen ++ l) p
  end.
Proof.
  induction l as [|b l IH]; intros seen best Hb; simpl.
  - rewrite app_nil_r; exact Hb.
  - replace (seen ++ b :: l) with ((seen ++ [b]) ++ l)
      by (rewrite <- app_assoc; reflexivity).
    apply IH; unfold Gated.reduceStep.
    destruct (indexOf lowerTitle b) as [j|] eqn:Ej.
    + destruct best as [p|].
      * destruct Hb as (pre & post & i & Hs & Hi & Hpre & Hpost).
        rewrite Hi; destruct (i <? j) eqn:Eij.
        -- apply Nat.ltb_lt in Eij.
           exists pre, (post ++ [b]), i; split;
             [subst seen; rewrite <- app_assoc; reflexivity|].
           split; [exact Hi|]; split; [exact Hpre|].
           intros c k Hc Hk; apply in_app_iff in Hc as [Hc | [<- | []]].
           ++ exact (Hpost c k Hc Hk).
           ++ assert (k = j) by congruence; lia.
        -- apply Nat.ltb_ge in Eij.
           exists seen, [], j; split; [reflexivity|].
           split; [exact Ej|]; split; [|intros c k []].
           intros c k Hc Hk; subst seen.
           apply in_app_iff in Hc as [Hc | [<- | Hc]].
           ++ specialize (Hpre c k Hc Hk); lia.
           ++ assert (k = i) by congruence; lia.
           ++ specialize (Hpost c k Hc Hk); lia.
      * exists seen, [], j; split; [reflexivity|].
        split; [exact Ej|]; split; [|intros c k []].
        intros c k Hc Hk; rewrite (Hb c Hc) in Hk; discriminate.
    + destruct best as [p|].
      * destruct Hb as (pre & post & i & Hs & Hi & Hpre & Hpost).
        exists pre, (post ++ [b]), i; split;
          [subst seen; rewrite <- app_assoc; reflexivity|].
        split; [exact Hi|]; split; [exact Hpre|].
        intros c k Hc Hk; apply in_app_iff in Hc as [Hc | [<- | []]].
        -- exact (Hpost c k Hc Hk).
        -- congruence.
      * intros c Hc; apply in_app_iff in Hc as [Hc | [<- | []]];
          [exact (Hb c Hc) | exact Ej].
Qed.

End ReducePriority.

(** X12. The [reduce] of the version that pushes a record only for a
    matched product keeps the last of the candidates that occur at the
    smallest index of the lower-cased title (the test is
    [indexOf(best) < idx ? best : b], so a later candidate at the same
    index replaces the earlier one); it returns [null] only when no
    candidate occurs in the title. *)
Theorem reduce_keeps_last_of_leftmost `{Unicode} (lowerTitle : jsstring)
  (candidates : list jsstring) :
  match fold_left (Gated.reduceStep lowerTitle) candidates None with
  | Some b => lastOfLeftmost lowerTitle candidates b
  | None => forall c, In c candidates -> indexOf lowerTitle c = None
  end.
Proof.
  apply (reduce_last_of_leftmost lowerTitle candidates [] None).
  intros c [].
Qed.

(* ------------------------------------------------------------------ *)
(** ** The per-call versions *)

Lemma position_lists_disjoint b :
  setHas firstWordBrandValidationList b = true ->
  setHas firstOrSecondWordBrandValidationList b = false.
Proof.
  intros H; apply setHas_In in H.
  unfold firstWordBrandValidationList in H; simpl in H.
  repeat (destruct H as [<- | H]; [reflexivity|]).
  destruct H.
Qed.

Section PerCall.
Context {U : Unicode}.

(** The two per-call matchers give the same verdict. *)
Lemma per_call_verdicts t b :
  Direct.checkBrandIsSeparateTerm t b = Gated.checkBrandIsSeparateTerm t b.
Proof.
  unfold Direct.checkBrandIsSeparateTerm, Gated.checkBrandIsSeparateTerm.
  cbv zeta.
  change (Gated.normalizeInputIfAccentInsensitive t)
    with (Direct.normalizeInputIfAccentInsensitive t).
  change (if streq (escapeRegExp b) (js "happy")
          then toUpperCase (escapeRegExp b) else escapeRegExp b)
    with (escapedBrandOf b).
  set (t' := Direct.normalizeInputIfAccentInsensitive t).
  destruct (setHas firstWordBrandValidationList b) eqn:E1.
  - rewrite (position_lists_disjoint b E1); cbn [andb].
    destruct (position_aliases_word_ended b) as [Hw1 Hw2];
      [apply in_app_iff; left; apply setHas_In; exact E1|].
    destruct (escaped_literal_word b Hw1 Hw2) as (w & Hat & _ & Hv1 & Hv2).
    pose proof (first_to_term _ w t' Hat Hv1 Hv2) as Hfirst.
    destruct (test (firstPattern (escapedBrandOf b)) t'); simpl;
      [|reflexivity].
    rewrite (Hfirst eq_refl), orb_true_r; reflexivity.
  - cbn [andb].
    destruct (setHas firstOrSecondWordBrandValidationList b) eqn:E2;
      [|reflexivity].
    destruct (position_aliases_word_ended b) as [Hw1 Hw2];
      [apply in_app_iff; right; apply setHas_In; exact E2|].
    destruct (escaped_literal_word b Hw1 Hw2) as (w & Hat & _ & Hv1 & Hv2).
    pose proof (first_to_term _ w t' Hat Hv1 Hv2) as Hfirst.
    pose proof (second_to_term _ w t' Hat Hv1 Hv2) as Hsecond.
    destruct (test (firstPattern (escapedBrandOf b)) t'); simpl.
    + rewrite (Hfirst eq_refl), orb_true_r; reflexivity.
    + destruct (test (secondPattern (escapedBrandOf b)) t'); simpl;
        [|reflexivity].
      rewrite (Hsecond eq_refl), orb_true_r; reflexivity.
Qed.

(** The verdict of the compiled pattern of an alias that begins and ends
    with a word character is the verdict of the per-call matcher. *)
Lemma word_alias_verdict t b :
  wordAt b = true -> wordAt (rev b) = true ->
  checkBrandMatch (Direct.normalizeInputIfAccentInsensitive t)
    (compileBrand b)
  = Direct.checkBrandIsSeparateTerm t b.
Proof.
  intros Hw1 Hw2.
  unfold checkBrandMatch; rewrite pattern_compileBrand.
  unfold Direct.checkBrandIsSeparateTerm; cbv zeta.
  change (if streq (escapeRegExp b) (js "happy")
          then toUpperCase (escapeRegExp b) else escapeRegExp b)
    with (escapedBrandOf b).
  set (t' := Direct.normalizeInputIfAccentInsensitive t).
  destruct (escaped_literal_word b Hw1 Hw2) as (w & Hat & _ & Hv1 & Hv2).
  pose proof (edge_to_term _ w t' Hat Hv1 Hv2) as Hedge.
  destruct (setHas firstWordBrandValidationList b); [reflexivity|].
  destruct (setHas firstOrSecondWordBrandValidationList b);
    [apply test_Alt|].
  destruct (test (edgePattern (escapedBrandOf b)) t'); simpl;
    [apply Hedge; reflexivity | reflexivity].
Qed.

End PerCall.

(** X13. The two per-call matchers are the same function: returning the
    position verdict at once, or returning [false] when the position test
    fails and going on to the generic test otherwise, gives the same
    verdict for every title and every alias, because every alias of the
    two position lists begins and ends with a word character. *)
Theorem per_call_matchers_agree `{Unicode} (input b : jsstring) :
  Direct.checkBrandIsSeparateTerm input b
  = Gated.checkBrandIsSeparateTerm input b.
Proof. apply per_call_verdicts. Qed.

(* ------------------------------------------------------------------ *)
(** ** The matching loops of the per-call versions *)

Section Collect.
Variables skip accept : jsstring -> bool.

Lemma collect_app l1 l2 acc :
  collect skip accept (l1 ++ l2) acc
  = collect skip accept l2 (collect skip accept l1 acc).
Proof. apply fold_left_app. Qed.

Lemma In_collect l : forall acc m,
  In m (collect skip accept l acc) <->
  In m acc \/ (In m l /\ skip m = false /\ accept m = true).
Proof.
  unfold collect.
  induction l as [|b l IH]; intros acc m; simpl.
  - split; [auto | intros [H | [[] _]]; exact H].
  - rewrite IH; clear IH.
    destruct (setHas acc b) eqn:Eh; simpl.
    + apply setHas_In in Eh; split.
      * intros [H | (Hm & Hr)]; auto.
      * intros [H | ([<- | Hm] & Hr)]; auto.
    + destruct (skip b) eqn:Es; simpl.
      * split.
        -- intros [H | (Hm & Hr)]; auto.
        -- intros [H | ([<- | Hm] & Hs & Ha)]; auto; congruence.
      * destruct (accept b) eqn:Ea.
        -- rewrite in_app_iff; simpl; split.
           ++ intros [[H | [<- | []]] | (Hm & Hr)]; auto.
           ++ intros [H | ([<- | Hm] & Hr)]; auto.
        -- split.
           ++ intros [H | (Hm & Hr)]; auto.
           ++ intros [H | ([<- | Hm] & Hs & Ha)]; auto; congruence.
Qed.

Lemma NoDup_collect l : forall acc,
  NoDup acc -> NoDup (collect skip accept l acc).
Proof.
  unfold collect.
  induction l as [|b l IH]; intros acc Ha; simpl; [exact Ha|].
  apply IH.
  destruct (setHas acc b) eqn:Eh; simpl; [exact Ha|].
  destruct (skip b); simpl; [exact Ha|].
  destruct (accept b); [|exact Ha].
  apply setHas_not_In in Eh.
  apply NoDup_app; [exact Ha | repeat constructor; intros [] |].
  intros a Hin [<- | []]; exact (Eh Hin).
Qed.

Lemma settled_step acc b x :
  settled skip accept acc b ->
  settled skip accept (collect skip accept [x] acc) b.
Proof.
  unfold settled, collect; simpl; intros [H | H]; [|auto].
  destruct (setHas acc x || skip x); [auto|].
  destruct (accept x); [left; apply in_app_iff|]; auto.
Qed.

Lemma settled_self acc b :
  settled skip accept (collect skip accept [b] acc) b.
Proof.
  unfold settled, collect; simpl.
  destruct (setHas acc b) eqn:Eh; simpl;
    [left; apply setHas_In; exact Eh|].
  destruct (skip b); simpl; [auto|].
  destruct (accept b); [left; apply in_app_iff; simpl|]; auto.
Qed.

Lemma settled_noop acc b :
  settled skip accept acc b -> collect skip accept [b] acc = acc.
Proof.
  unfold settled, collect; simpl; intros [H | [H | H]].
  - apply setHas_In in H; rewrite H; reflexivity.
  - rewrite H, orb_true_r; reflexivity.
  - rewrite H; destruct (setHas acc b || skip b); reflexivity.
Qed.

(** Collecting over the set made of a list is collecting over the list. *)
Lemma collect_set l : forall s acc,
  (forall b, In b s -> settled skip accept acc b) ->
  exists news,
    fold_left setAdd l s = s ++ news
    /\ collect skip accept news acc = collect skip accept l acc.
Proof.
  induction l as [|x l IH]; intros s acc Hs; simpl.
  - exists []; rewrite app_nil_r; auto.
  - unfold setAdd at 2; destruct (setHas s x) eqn:Ex.
    + apply setHas_In in Ex.
      destruct (IH s acc Hs) as (news & Hn & Hc).
      exists news; split; [exact Hn|].
      rewrite Hc.
      transitivity (collect skip accept l (collect skip accept [x] acc));
        [|reflexivity].
      rewrite (settled_noop acc x (Hs x Ex)); reflexivity.
    + destruct (IH (s ++ [x]) (collect skip accept [x] acc))
        as (news & Hn & Hc).
      * intros b Hb; apply in_app_iff in Hb as [Hb | [<- | []]].
        -- apply settled_step, Hs, Hb.
        -- apply settled_self.
      * exists (x :: news); split;
          [rewrite Hn, <- app_assoc; reflexivity|].
        exact Hc.
Qed.

Lemma collect_of_set l :
  collect skip accept (fold_left setAdd l []) []
  = collect skip accept l [].
Proof.
  destruct (collect_set l [] []) as (news & Hn & Hc);
    [intros b [] | rewrite Hn; exact Hc].
Qed.

(** On a list without repetition the loop is a filter. *)
Lemma collect_filter l : forall acc,
  NoDup l -> (forall b, In b l -> ~ In b acc) ->
  collect skip accept l acc
  = acc ++ filter (fun b => negb (skip b) && accept b) l.
Proof.
  unfold collect.
  induction l as [|b l IH]; intros acc Hl Ha; simpl.
  - rewrite app_nil_r; reflexivity.
  - inversion Hl as [|? ? Hb Hl']; subst.
    rewrite (proj2 (setHas_not_In acc b) (Ha b (or_introl eq_refl))).
    simpl; destruct (skip b); simpl.
    + apply IH; [exact Hl' | intros c Hc; apply Ha; right; exact Hc].
    + destruct (accept b).
      * rewrite IH; [rewrite <- app_assoc; reflexivity | exact Hl' |].
        intros c Hc Hin; apply in_app_iff in Hin as [Hin | [<- | []]].
        -- exact (Ha c (or_intror Hc) Hin).
        -- exact (Hb Hc).
      * apply IH; [exact Hl' | intros c Hc; apply Ha; right; exact Hc].
Qed.

(** The first alias collected is the first alias of the list that is
    neither skipped nor refused. *)
Lemma collect_head l : forall acc,
  acc <> [] -> hd_error (collect skip accept l acc) = hd_error acc.
Proof.
  unfold collect.
  induction l as [|b l IH]; intros acc Ha; simpl; [reflexivity|].
  destruct (setHas acc b || skip b); [apply IH; exact Ha|].
  destruct (accept b); [|apply IH; exact Ha].
  rewrite IH; [|destruct acc; discriminate].
  destruct acc; [contradiction | reflexivity].
Qed.

Lemma collect_first l :
  hd_error (collect skip accept l [])
  = find (fun b => negb (skip b) && accept b) l.
Proof.
  induction l as [|b l IH]; simpl; [reflexivity|].
  unfold collect in *; simpl.
  destruct (skip b); simpl; [exact IH|].
  destruct (accept b); [|exact IH].
  apply (collect_head l [b]); discriminate.
Qed.

End Collect.

Lemma fold_left_concat {A B : Type} (f : A -> B -> A) (ls : list (list B)) :
  forall a, fold_left (fun acc l => fold_left f l acc) ls a
            = fold_left f (concat ls) a.
Proof.
  induction ls as [|l ls IH]; intros a; simpl; [reflexivity|].
  rewrite fold_left_app; apply IH.
Qed.

Lemma fold_left_snd {A B K : Type} (f : A -> B -> A) (es : list (K * B)) :
  forall a, fold_left (fun acc e => f acc (snd e)) es a
            = fold_left f (map snd es) a.
Proof.
  induction es as [|e es IH]; intros a; simpl; [reflexivity | apply IH].
Qed.

Lemma fold_left_pointwise {A B : Type} (f g : A -> B -> A) (l : list B) :
  (forall a b, f a b = g a b) ->
  forall a, fold_left f l a = fold_left g l a.
Proof.
  intros E; induction l as [|x l IH]; intros a; simpl; [reflexivity|].
  rewrite E; apply IH.
Qed.

(** The aliases of the neighbour lists, in the order of the enumeration of
    the mapping. *)
Lemma allBrandsOf_concat (g : BrandsMapping) :
  allBrandsOf g = fold_left setAdd (concat (objectValues g)) [].
Proof.
  unfold allBrandsOf.
  apply (fold_left_concat setAdd (objectValues g) []).
Qed.

Section PerCallLoops.
Context {U : Unicode}.

Lemma Direct_matchBrands_collect t all :
  Direct.matchBrands t all
  = collect (setHas ignoreBrandsList) (Direct.checkBrandIsSeparateTerm t)
      all [].
Proof. reflexivity. Qed.

Lemma Gated_matchBrands_collect t (g : BrandsMapping) :
  Gated.matchBrands t g
  = collect (setHas ignoreBrandsList) (Gated.checkBrandIsSeparateTerm t)
      (concat (forInValues g)) [].
Proof.
  unfold Gated.matchBrands, collect.
  rewrite <- fold_left_concat; reflexivity.
Qed.

Lemma Oldest_matchBrands_collect t (g : BrandsMapping) :
  Oldest.matchBrands t g
  = collect (fun _ => false) (Oldest.checkBrandIsSeparateTerm t)
      (concat (forInValues g)) [].
Proof.
  unfold Oldest.matchBrands, collect.
  rewrite <- fold_left_concat.
  apply fold_left_pointwise; intros matched e.
  apply fold_left_pointwise; intros m b.
  rewrite orb_false_r; reflexivity.
Qed.

(** Without an array as prototype the loop [for ... in] meets the own
    properties only. *)
Lemma forInValues_plain (g : BrandsMapping) :
  arrayPrototype g = None -> forInValues g = objectValues g.
Proof.
  unfold forInValues, inheritedElements; intros ->.
  apply app_nil_r.
Qed.

Lemma collect_ext skip f f' l : forall acc,
  (forall b, f b = f' b) ->
  collect skip f l acc = collect skip f' l acc.
Proof.
  unfold collect; intros acc E.
  apply fold_left_pointwise; intros m b; rewrite E; reflexivity.
Qed.

End PerCallLoops.

(** X14. The nested loop over the keys of the mapping and their neighbour
    lists (the version that pushes a record only for a matched product)
    and the single loop over the set [allBrands] (the version that pushes
    a record for every product) collect the same matched list, in the same
    order, for every title and every mapping that is a plain dictionary
    (no array was made its prototype, so the loop [for ... in] meets its
    own properties only). *)
Theorem nested_loop_is_set_loop `{Unicode} (title : jsstring)
  (brandsMapping : BrandsMapping) :
  arrayPrototype brandsMapping = None ->
  Gated.matchBrands title brandsMapping
  = Direct.matchBrands title (allBrandsOf brandsMapping).
Proof.
  intros Hplain.
  rewrite Gated_matchBrands_collect, Direct_matchBrands_collect.
  rewrite (forInValues_plain _ Hplain), allBrandsOf_concat, collect_of_set.
  symmetry; apply collect_ext, per_call_verdicts.
Qed.

Open Scope string_scope.

Lemma nested_loop_is_set_loop_witness :
  @Gated.matchBrands UnicodeFragment (js "Heel Contour Cream 50ml")
    (@getBrandsMapping UnicodeFragment [connection "heel" "contour"])
  = @Direct.matchBrands UnicodeFragment (js "Heel Contour Cream 50ml")
      (allBrandsOf
         (@getBrandsMapping UnicodeFragment [connection "heel" "contour"])).
Proof.
  apply (@nested_loop_is_set_loop UnicodeFragment
           (js "Heel Contour Cream 50ml")
           (@getBrandsMapping UnicodeFragment [connection "heel" "contour"])).
  vm_compute; reflexivity.
Defined.

Close Scope string_scope.

(** X29. In general the nested loop goes over everything that
    [for ... in] meets: it collects what the single loop of the other
    version would collect over the set of the members of the own arrays
    followed by the code points of the inherited strings, which a row
    naming [__proto__] adds. *)
Theorem nested_loop_meets_inherited_strings `{Unicode} (title : jsstring)
  (brandsMapping : BrandsMapping) :
  Gated.matchBrands title brandsMapping
  = Direct.matchBrands title
      (fold_left setAdd
         (concat (objectValues brandsMapping
                  ++ map codePoints (inheritedElements brandsMapping)))
         []).
Proof.
  rewrite Gated_matchBrands_collect, Direct_matchBrands_collect.
  unfold forInValues; rewrite collect_of_set.
  symmetry; apply collect_ext, per_call_verdicts.
Qed.

(* ------------------------------------------------------------------ *)
(** ** The first version *)

Lemma oldest_list_shape b :
  In b Oldest.firstWordValidationList ->
  forallb isAscii b = true /\ wordAt b = true /\ wordAt (rev b) = true.
Proof.
  unfold Oldest.firstWordValidationList; simpl; intros H.
  repeat (destruct H as [<- | H]; [repeat split; reflexivity|]).
  destruct H.
Qed.

(** X15. In the first version every alias of [firstWordValidationList]
    (the four aliases of [secondWordValidationList] among them) is accepted
    only as the first word: the matcher accepts it if and only if the
    normalized title begins with the alias, letter case apart, followed by
    the end of the title or by a character that is not a word character.
    The second-position test is computed and never used. *)
Theorem oldest_listed_alias_first_word_only `{Unicode} (input b : jsstring) :
  In b Oldest.firstWordValidationList ->
  Oldest.checkBrandIsSeparateTerm input b = true <->
  exists pre rest,
    Oldest.normalizeInputIfAccentInsensitive input = (pre ++ rest)%list
    /\ map asciiUpper pre = map asciiUpper b
    /\ wordAt rest = false.
Proof.
  intros Hb; destruct (oldest_list_shape b Hb) as (Hascii & Hw1 & Hw2).
  unfold Oldest.checkBrandIsSeparateTerm; cbv zeta.
  rewrite (proj2 (setHas_In _ _) Hb); cbn [andb].
  set (t := Oldest.normalizeInputIfAccentInsensitive input).
  pose proof (first_to_term _ b t (atoms_escape b) Hw1 Hw2) as Hterm.
  pose proof (first_iff _ b t (atoms_escape b) Hw2) as Hfirst.
  assert (E : (if negb (test (firstPattern (escapeRegExp b)) t) then false
               else test (edgePattern (escapeRegExp b)) t
                    || test (termPattern (escapeRegExp b)) t)
              = test (firstPattern (escapeRegExp b)) t).
  { destruct (test (firstPattern (escapeRegExp b)) t); simpl;
      [|reflexivity].
    rewrite (Hterm eq_refl), orb_true_r; reflexivity. }
  rewrite E, Hfirst.
  split; intros (pre & rest & Ht & Hf & Hr); exists pre, rest;
    (split; [exact Ht|]); (split; [|exact Hr]).
  - symmetry; apply (proj1 (fold_string b pre Hascii)); exact Hf.
  - apply (proj2 (fold_string b pre Hascii)); symmetry; exact Hf.
Qed.

Open Scope string_scope.

Lemma oldest_listed_alias_first_word_only_witness :
  @Oldest.checkBrandIsSeparateTerm UnicodeFragment
    (js "Dr Heel Cream") (js "heel") = true <->
  exists pre rest,
    @Oldest.normalizeInputIfAccentInsensitive UnicodeFragment
      (js "Dr Heel Cream") = (pre ++ rest)%list
    /\ map asciiUpper pre = map asciiUpper (js "heel")
    /\ wordAt rest = false.
Proof.
  apply (@oldest_listed_alias_first_word_only UnicodeFragment
           (js "Dr Heel Cream") (js "heel")).
  simpl; auto 20.
Defined.

Close Scope string_scope.

(** X16. In the first version the brand of a product is the first string
    that the matcher accepts, in the order in which the loop [for ... in]
    meets them: the members of the own neighbour arrays of the mapping,
    then, when a row naming [__proto__] made an array the prototype, the
    code points of the inherited strings. The brand is [null] when the
    matcher accepts none: neither the length of an alias nor its place in
    the title plays a part. *)
Theorem oldest_brand_is_first_accepted `{Unicode}
  (connections : list BrandConnection) (items : list Product) :
  Oldest.assignBrandIfKnown connections items
  = map (fun p =>
           find (Oldest.checkBrandIsSeparateTerm (title p))
             (concat (forInValues (getBrandsMapping connections))))
      items.
Proof.
  unfold Oldest.assignBrandIfKnown; cbv zeta.
  apply map_ext; intros p.
  rewrite Oldest_matchBrands_collect.
  transitivity
    (hd_error
       (collect (fun _ => false) (Oldest.checkBrandIsSeparateTerm (title p))
          (concat (forInValues (getBrandsMapping connections))) [])).
  - destruct (collect (fun _ => false)
                (Oldest.checkBrandIsSeparateTerm (title p))
                (concat (forInValues (getBrandsMapping connections))) []);
      reflexivity.
  - rewrite collect_first.
    induction (concat (forInValues (getBrandsMapping connections)))
      as [|b l IH]; simpl; [reflexivity|].
    destruct (Oldest.checkBrandIsSeparateTerm (title p) b);
      [reflexivity | exact IH].
Qed.

(* ------------------------------------------------------------------ *)
(** ** The version that pushes a record only for a matched product *)

Section GatedResults.
Context {U : Unicode}.

Lemma gated_fold_None lookup (g : BrandsMapping) items :
  fold_left (Gated.processProduct lookup g) items None = None.
Proof. induction items as [|p items IH]; simpl; auto. Qed.

(** What one turn of the loop adds to the results, when it does not
    throw. *)
Lemma gated_step lookup (g : BrandsMapping) acc out p :
  Gated.processProduct lookup g (Some acc) p = Some out ->
  exists rs,
    out = (acc ++ rs)%list
    /\ map (fun r => (Gated.productTitle r, Gated.matchedBrands r)) rs
       = map (fun p => (title p, Gated.matchBrands (title p) g))
           (filter (fun p => 0 <? length (Gated.matchBrands (title p) g))
              [p])
    /\ forall r, In r rs ->
         Gated.matchedBrands r <> [] /\ Gated.priorityBrand r <> None
         /\ Gated.assignedBrand r <> None.
Proof.
  unfold Gated.processProduct; cbv zeta; simpl.
  destruct (0 <? length (Gated.matchBrands (title p) g)) eqn:E.
  - destruct (Gated.choosePriority (title p) g
                (Gated.matchBrands (title p) g)) as [pb|]; [|discriminate].
    intros H; injection H as <-.
    eexists; split; [reflexivity|]; split; [reflexivity|].
    intros r [<- | []]; simpl; split; [|split; [discriminate|]].
    + intros E0; rewrite E0 in E; discriminate.
    + unfold orElse.
      destruct (mapGet lookup (toLowerCase pb)) as [[|c v]|]; simpl;
        discriminate.
  - intros H; injection H as <-.
    exists []; rewrite app_nil_r; split; [reflexivity|].
    split; [reflexivity | intros r []].
Qed.

Lemma gated_loop lookup (g : BrandsMapping) items : forall acc out,
  fold_left (Gated.processProduct lookup g) items (Some acc) = Some out ->
  exists rs,
    out = (acc ++ rs)%list
    /\ map (fun r => (Gated.productTitle r, Gated.matchedBrands r)) rs
       = map (fun p => (title p, Gated.matchBrands (title p) g))
           (filter (fun p => 0 <? length (Gated.matchBrands (title p) g))
              items)
    /\ forall r, In r rs ->
         Gated.matchedBrands r <> [] /\ Gated.priorityBrand r <> None
         /\ Gated.assignedBrand r <> None.
Proof.
  induction items as [|p items IH]; intros acc out Hf.
  - simpl in Hf; injection Hf as <-.
    exists []; rewrite app_nil_r; simpl; split; [reflexivity|].
    split; [reflexivity | intros r []].
  - change (fold_left (Gated.processProduct lookup g) (p :: items)
              (Some acc))
      with (fold_left (Gated.processProduct lookup g) items
              (Gated.processProduct lookup g (Some acc) p)) in Hf.
    destruct (Gated.processProduct lookup g (Some acc) p) as [mid|] eqn:Es;
      [|rewrite gated_fold_None in Hf; discriminate].
    destruct (gated_step _ _ _ _ _ Es) as (rs1 & -> & Hp1 & Hn1).
    destruct (IH _ _ Hf) as (rs2 & -> & Hp2 & Hn2).
    exists (rs1 ++ rs2)%list; split; [rewrite app_assoc; reflexivity|].
    split.
    + rewrite map_app, Hp1, Hp2, <- map_app.
      change (p :: items) with ([p] ++ items)%list.
      rewrite filter_app; reflexivity.
    + intros r Hin; apply in_app_iff in Hin as [Hin | Hin]; auto.
Qed.

End GatedResults.


Open Scope string_scope.


Close Scope string_scope.

(* ------------------------------------------------------------------ *)
(** ** The compiled cache against the per-call loop *)

Lemma sortByLengthDesc_perm l : Permutation l (sortByLengthDesc l).
Proof.
  induction l as [|e l IH]; simpl; [constructor|].
  etransitivity; [apply perm_skip, IH | apply insertByLength_perm].
Qed.

Lemma filter_insertByLength p e l :
  longestFirst (map brand l) ->
  filter p (insertByLength e l)
  = if p e then insertByLength e (filter p l) else filter p l.
Proof.
  induction l as [|x l IH]; intros Hl; simpl.
  - destruct (p e); reflexivity.
  - destruct Hl as [Hx Hl].
    destruct (length (brand x) <=? length (brand e)) eqn:E; simpl.
    + destruct (p e) eqn:Ee; [|reflexivity].
      destruct (p x) eqn:Ex; simpl; [rewrite E; reflexivity|].
      destruct (filter p l) as [|y f] eqn:Ef; simpl; [reflexivity|].
      assert (Hy : In y l)
        by (apply (proj1 (filter_In p y l)); rewrite Ef; left; reflexivity).
      apply Nat.leb_le in E.
      specialize (Hx (brand y) (in_map brand _ _ Hy)).
      rewrite (proj2 (Nat.leb_le _ _)) by lia; reflexivity.
    + rewrite (IH Hl).
      destruct (p x) eqn:Ex; destruct (p e) eqn:Ee; simpl;
        rewrite ?E; reflexivity.
Qed.

Lemma filter_sortByLengthDesc p l :
  filter p (sortByLengthDesc l) = sortByLengthDesc (filter p l).
Proof.
  induction l as [|e l IH]; simpl; [reflexivity|].
  rewrite filter_insertByLength by apply sorted_longestFirst.
  rewrite IH; destruct (p e); reflexivity.
Qed.

Lemma filter_map_commute {A B : Type} (f : A -> B) (p : B -> bool) l :
  filter p (map f l) = map f (filter (fun a => p (f a)) l).
Proof.
  induction l as [|a l IH]; simpl; [reflexivity|].
  destruct (p (f a)); simpl; rewrite IH; reflexivity.
Qed.

Lemma filter_filter {A : Type} (p q : A -> bool) l :
  filter p (filter q l) = filter (fun a => q a && p a) l.
Proof.
  induction l as [|a l IH]; simpl; [reflexivity|].
  destruct (q a); simpl; [destruct (p a)|]; rewrite IH; reflexivity.
Qed.

Section CacheAgainstLoop.
Context {U : Unicode}.

Lemma buildBrandMatchCache_map brands :
  buildBrandMatchCache brands
  = map compileBrand
      (filter (fun b => negb (setHas ignoreBrandsList b)) brands).
Proof.
  unfold buildBrandMatchCache.
  induction brands as [|b brands IH]; [reflexivity|].
  cbn [flat_map filter]; rewrite IH.
  destruct (setHas ignoreBrandsList b); reflexivity.
Qed.

Lemma brands_of_compiled l : map brand (map compileBrand l) = l.
Proof.
  induction l as [|b l IH]; simpl; [reflexivity|].
  rewrite brand_compileBrand, IH; reflexivity.
Qed.

Lemma NoDup_cache_brands brands :
  NoDup brands ->
  NoDup (map brand (sortByLengthDesc (buildBrandMatchCache brands))).
Proof.
  intros Hb.
  apply (Permutation_NoDup
           (Permutation_map brand
              (sortByLengthDesc_perm (buildBrandMatchCache brands)))).
  rewrite buildBrandMatchCache_map, brands_of_compiled.
  apply NoDup_filter; exact Hb.
Qed.

Lemma matchLoop_filter t cache : forall acc,
  NoDup (map brand cache) ->
  (forall e, In e cache -> ~ In (brand e) acc) ->
  matchLoop t cache acc
  = (acc ++ map brand (filter (checkBrandMatch t) cache))%list.
Proof.
  unfold matchLoop.
  induction cache as [|e cache IH]; intros acc Hn Ha; simpl.
  - rewrite app_nil_r; reflexivity.
  - inversion Hn as [|? ? He Hn']; subst.
    rewrite (proj2 (setHas_not_In acc (brand e))
               (Ha e (or_introl eq_refl))).
    destruct (checkBrandMatch t e).
    + rewrite IH; [simpl; rewrite <- app_assoc; reflexivity | exact Hn' |].
      intros x Hx Hin; apply in_app_iff in Hin as [Hin | [E | []]].
      * exact (Ha x (or_intror Hx) Hin).
      * apply He; rewrite E; apply in_map; exact Hx.
    + apply IH; [exact Hn' | intros x Hx; apply Ha; right; exact Hx].
Qed.

Lemma matchBrands_filter t cache :
  NoDup (map brand cache) ->
  matchBrands t cache = map brand (filter (checkBrandMatch t) cache).
Proof.
  intros Hn; apply (matchLoop_filter t cache [] Hn); intros e _ [].
Qed.

(** The matched list of the compiled cache, from the matched list of the
    per-call loop. *)
Lemma cached_of_per_call t all :
  NoDup all ->
  (forall b, In b all -> wordAt b = true /\ wordAt (rev b) = true) ->
  matchBrands (Direct.normalizeInputIfAccentInsensitive t)
    (sortByLengthDesc (buildBrandMatchCache all))
  = map brand
      (sortByLengthDesc (map compileBrand (Direct.matchBrands t all))).
Proof.
  intros Hn Hw.
  rewrite matchBrands_filter by (apply NoDup_cache_brands; exact Hn).
  rewrite filter_sortByLengthDesc, buildBrandMatchCache_map.
  rewrite filter_map_commute, filter_filter.
  rewrite Direct_matchBrands_collect.
  rewrite (collect_filter _ _ all [] Hn) by (intros b _ []).
  simpl; do 3 f_equal.
  apply filter_ext_in; intros b Hb.
  destruct (Hw b Hb) as [Hw1 Hw2].
  rewrite (word_alias_verdict t b Hw1 Hw2); reflexivity.
Qed.

End CacheAgainstLoop.

(** X18. Every alias has at most one entry in the sorted pattern cache, so
    the test [matchedBrandSet.has(cacheEntry.brand)] of the matching loop
    never skips an entry: the matched list is the list of the brands of
    the cache entries whose pattern matches, in cache order. *)
Theorem matched_list_is_filter_of_cache `{Unicode}
  (brandsMapping : BrandsMapping) (normalizedTitle : jsstring) :
  let brandMatchCache :=
    sortByLengthDesc (buildBrandMatchCache (allBrandsOf brandsMapping)) in
  NoDup (map brand brandMatchCache)
  /\ matchBrands normalizedTitle brandMatchCache
     = map brand (filter (checkBrandMatch normalizedTitle) brandMatchCache).
Proof.
  intros brandMatchCache.
  assert (Hn : NoDup (map brand brandMatchCache))
    by apply NoDup_cache_brands, NoDup_allBrandsOf.
  split; [exact Hn | apply matchBrands_filter; exact Hn].
Qed.

(** X19. When every alias of the graph begins and ends with a word
    character, the matched list of a record of [assignBrandIfKnown] is the
    matched list that the per-call loop over [allBrands] computes for the
    product's title, rearranged longest first by the stable sort: the
    compiled cache changes the order of the matched aliases and nothing
    else. *)
Theorem cached_matching_sorts_per_call_matching `{Unicode}
  (connections : list BrandConnection) (items : list Product)
  (results : list MatchResult) (r : MatchResult) :
  (forall b, mapHas (getBrandsMapping connections) b = true ->
             wordAt b = true /\ wordAt (rev b) = true) ->
  assignBrandIfKnown connections items = Some results ->
  In r results ->
  matchedBrands r
  = map brand
      (sortByLengthDesc
         (map compileBrand
            (Direct.matchBrands (product r)
               (allBrandsOf (getBrandsMapping connections))))).
Proof.
  intros Hw Hrun Hr; destruct (assign_run _ _ _ Hrun) as (lookup & _ & ->).
  apply productLoop_results in Hr as [[] | (nc & p & Hs & _ & ->)];
    [|apply cacheSound_nil].
  pose proof (processProduct_fields lookup
                (sortByLengthDesc
                   (buildBrandMatchCache
                      (allBrandsOf (getBrandsMapping connections))))
                (buildBrandNetworkCache (getBrandsMapping connections)
                   (allBrandsOf (getBrandsMapping connections))) nc p)
    as (Hp & Hm & _).
  cbv zeta in Hp, Hm; rewrite Hp, Hm.
  rewrite (proj1 (normalize_cached nc (title p) Hs)).
  apply cached_of_per_call; [apply NoDup_allBrandsOf|].
  intros b Hb; apply Hw, allBrands_are_keys; exact Hb.
Qed.

Open Scope string_scope.

Lemma cached_matching_sorts_per_call_matching_witness :
  [js "contour"; js "heel"]
  = map brand
      (sortByLengthDesc
         (map (@compileBrand UnicodeFragment)
            (@Direct.matchBrands UnicodeFragment
               (js "Heel Contour Cream 50ml")
               (allBrandsOf
                  (@getBrandsMapping UnicodeFragment
                     [connection "heel" "contour"]))))).
Proof.
  apply (@cached_matching_sorts_per_call_matching UnicodeFragment
           [connection "heel" "contour"] [item "Heel Contour Cream 50ml"]
           [{| product := js "Heel Contour Cream 50ml";
               matchedBrands := [js "contour"; js "heel"];
               assignedBrand := Some (js "heel");
               priorityBrand := Some (js "heel") |}]
           {| product := js "Heel Contour Cream 50ml";
              matchedBrands := [js "contour"; js "heel"];
              assignedBrand := Some (js "heel");
              priorityBrand := Some (js "heel") |}).
  - intros b Hb.
    change (mapHas [(js "heel", [js "contour"]);
                    (js "contour", [js "heel"])] b = true) in Hb.
    unfold mapHas in Hb.
    destruct (mapGet [(js "heel", [js "contour"]);
                      (js "contour", [js "heel"])] b) as [l|] eqn:E;
      [|discriminate].
    apply mapGet_In in E.
    destruct E as [E | [E | []]]; injection E as <- _; split; reflexivity.
  - vm_compute; reflexivity.
  - simpl; auto.
Defined.

Close Scope string_scope.

(* ------------------------------------------------------------------ *)
(** ** The candidates and the label of the priority alias *)

Section CandidateSets.
Context {U : Unicode}.

Lemma In_allConnected (g : BrandsMapping) matched : forall acc c,
  In c (fold_left
          (fun all b =>
             fold_left (fun all r => setAdd all (toLowerCase r))
               (neighbours g (toLowerCase b)) all)
          matched acc) <->
  In c acc
  \/ exists m r, In m matched /\ In r (neighbours g (toLowerCase m))
                 /\ c = toLowerCase r.
Proof.
  assert (Hin : forall l acc c,
             In c (fold_left (fun all r => setAdd all (toLowerCase r)) l acc)
             <-> In c acc \/ exists r, In r l /\ c = toLowerCase r).
  { induction l as [|x l IH]; intros acc c; simpl.
    - split; [auto | intros [H | (r & [] & _)]; exact H].
    - rewrite IH, setAdd_In; split.
      + intros [[H | ->] | (r & Hr & ->)]; eauto.
      + intros [H | (r & [<- | Hr] & ->)]; eauto. }
  induction matched as [|m matched IH]; intros acc c; simpl.
  - split; [auto | intros [H | (m & r & [] & _)]; exact H].
  - rewrite IH, Hin; split.
    + intros [[H | (r & Hr & ->)] | (m' & r & Hm & Hr & ->)]; eauto 7.
    + intros [H | (m' & r & [<- | Hm] & Hr & ->)]; eauto 7.
Qed.

Lemma In_allPossible (g : BrandsMapping) matched c :
  In c (Direct.allPossible g matched) <-> candidate g matched c.
Proof.
  unfold Direct.allPossible, Direct.allConnected, candidate.
  rewrite fold_setAdd_In, in_app_iff, in_map_iff, In_allConnected.
  simpl; split.
  - intros [[] | [(m & <- & Hm) | [[] | (m & r & Hm & Hr & ->)]]];
      exists m; eauto.
  - intros (m & Hm & [-> | (r & Hr & ->)]); right; eauto 7.
Qed.

(** When no row names [__proto__], the priority alias is the lower-cased
    form of a member of an own neighbour array, and not [__proto__]. *)
Lemma priority_is_member connections lowerTitle matched pb :
  plainAliases connections ->
  let g := getBrandsMapping connections in
  matched <> [] ->
  (forall m, In m matched -> In m (allBrandsOf g)) ->
  choosePriority lowerTitle (buildBrandNetworkCache g (allBrandsOf g))
    matched = Some pb ->
  pb <> protoKey
  /\ exists k l b, In (k, l) (objectEntries g) /\ In b l
                   /\ pb = toLowerCase b.
Proof.
  intros Hplain g Hne Hsub; unfold choosePriority.
  assert (Hkey : forall b, mapHas g b = true ->
            toLowerCase b <> protoKey
            /\ exists k l b', In (k, l) (objectEntries g) /\ In b' l
                              /\ toLowerCase b = toLowerCase b').
  { intros b Hb; split;
      [exact (proj2 (plainAliases_keys _ _ Hplain Hb))|].
    apply (keys_are_allBrands _ _ Hplain), In_allBrandsOf in Hb
      as (k & l & Hkl & Hl).
    exists k, l, b; auto. }
  assert (Hmember : forall m, In m matched ->
            toLowerCase m <> protoKey
            /\ exists k l b', In (k, l) (objectEntries g) /\ In b' l
                              /\ toLowerCase m = toLowerCase b').
  { intros m Hm; apply Hkey, allBrands_are_keys, Hsub, Hm. }
  pose proof (scanEarliest_spec lowerTitle
                (connectedBrands
                   (buildBrandNetworkCache g (allBrandsOf g)) matched))
    as Hscan.
  destruct (scanEarliest lowerTitle
              (connectedBrands
                 (buildBrandNetworkCache g (allBrandsOf g)) matched))
    as [[|c p]|]; simpl; intros E; injection E as <-.
  - destruct matched as [|m matched]; [contradiction|].
    apply Hmember; left; reflexivity.
  - destruct Hscan as [Hin _].
    apply (connectedBrands_candidates g _ matched _ Hsub) in Hin
      as (m & Hm & [-> | (r & Hr & ->)]); [apply Hmember; exact Hm|].
    unfold neighbours in Hr.
    destruct (mapGet g (toLowerCase m)) as [l|] eqn:El; [|destruct Hr].
    apply Hkey, (members_are_keys connections (toLowerCase m) l r);
      [apply mapGet_In; exact El | exact Hr].
  - destruct matched as [|m matched]; [contradiction|].
    apply Hmember; left; reflexivity.
Qed.

End CandidateSets.

(** X20. The precomputed network cache gives the scan the candidates that
    the per-call versions collect for each product anew: for every mapping
    and every title, the set [allConnectedBrands] built from the cache and
    the set [allPossible] of the per-call versions have the same members.
    (Their iteration orders differ, and with them the candidate that wins
    among those at the same index.) *)
Theorem network_cache_keeps_candidate_set `{Unicode}
  (brandsMapping : BrandsMapping) (normalizedTitle c : jsstring) :
  let allBrands := allBrandsOf brandsMapping in
  let matched :=
    matchBrands normalizedTitle
      (sortByLengthDesc (buildBrandMatchCache allBrands)) in
  In c (connectedBrands (buildBrandNetworkCache brandsMapping allBrands)
          matched)
  <-> In c (Direct.allPossible brandsMapping matched).
Proof.
  intros allBrands matched.
  rewrite In_allPossible; apply connectedBrands_candidates.
  intros m Hm; exact (matched_known _ _ _ Hm).
Qed.

(** X21. When no row names the alias [__proto__], the priority alias of a
    record is a key of the canonical lookup: the assigned brand is the
    label the lookup holds for the priority alias, except when that label
    is the empty string, in which case
    [canonicalLookup[priorityBrand] || priorityBrand] gives the priority
    alias itself. With such rows a lookup miss does not happen. *)
Theorem priority_alias_has_label `{Unicode}
  (connections : list BrandConnection) (items : list Product)
  (results : list MatchResult) (r : MatchResult) :
  plainAliases connections ->
  assignBrandIfKnown connections items = Some results ->
  In r results ->
  matchedBrands r <> [] ->
  exists canonicalLookup pb label,
    buildCanonicalLookup (getBrandsMapping connections) = Some canonicalLookup
    /\ priorityBrand r = Some pb
    /\ mapGet canonicalLookup pb = Some label
    /\ assignedBrand r = Some (if isNil label then pb else label).
Proof.
  intros Hplain Hrun Hr Hne.
  destruct (assign_run _ _ _ Hrun) as (lookup & Hl & ->).
  apply productLoop_results in Hr as [[] | (nc & p & Hs & _ & ->)];
    [|apply cacheSound_nil].
  pose proof (processProduct_fields lookup
                (sortByLengthDesc
                   (buildBrandMatchCache
                      (allBrandsOf (getBrandsMapping connections))))
                (buildBrandNetworkCache (getBrandsMapping connections)
                   (allBrandsOf (getBrandsMapping connections))) nc p)
    as (_ & Hm & _ & Hp & Ha).
  cbv zeta in Hm, Hp, Ha; rewrite Hm in Hne; rewrite Hp, Ha.
  set (nt := fst (normalizeInputIfAccentInsensitive nc (title p))) in *.
  set (matched :=
         matchBrands nt
           (sortByLengthDesc
              (buildBrandMatchCache
                 (allBrandsOf (getBrandsMapping connections))))) in *.
  assert (Hlen : (0 <? length matched) = true)
    by (destruct matched; [contradiction | reflexivity]).
  rewrite Hlen.
  destruct (choosePriority_some (toLowerCase nt)
              (buildBrandNetworkCache (getBrandsMapping connections)
                 (allBrandsOf (getBrandsMapping connections))) matched)
    as [pb Hpb].
  assert (Hkey : mapHas lookup pb = true).
  { apply (proj2 (lookup_domain _ lookup pb Hl)).
    apply (priority_is_member connections (toLowerCase nt) matched pb
             Hplain Hne); [|exact Hpb].
    intros m Hin; exact (matched_known _ _ _ Hin). }
  unfold mapHas in Hkey.
  destruct (mapGet lookup pb) as [label|] eqn:El; [|discriminate].
  exists lookup, pb, label; rewrite Hpb; simpl; rewrite El.
  repeat split; try assumption.
  destruct label; reflexivity.
Qed.

Open Scope string_scope.

Lemma priority_alias_has_label_witness :
  exists canonicalLookup pb label,
    @buildCanonicalLookup UnicodeFragment
      (@getBrandsMapping UnicodeFragment [connection "heel" "contour"])
    = Some canonicalLookup
    /\ Some (js "heel") = Some pb
    /\ mapGet canonicalLookup pb = Some label
    /\ Some (js "heel") = Some (if isNil label then pb else label).
Proof.
  apply (@priority_alias_has_label UnicodeFragment
           [connection "heel" "contour"] [item "Heel Contour Cream 50ml"]
           [{| product := js "Heel Contour Cream 50ml";
               matchedBrands := [js "contour"; js "heel"];
               assignedBrand := Some (js "heel");
               priorityBrand := Some (js "heel") |}]
           {| product := js "Heel Contour Cream 50ml";
              matchedBrands := [js "contour"; js "heel"];
              assignedBrand := Some (js "heel");
              priorityBrand := Some (js "heel") |}).
  - intros c a [<- | []] Ha.
    change (a = js "heel" \/ In a [js "contour"]) in Ha.
    destruct Ha as [-> | [<- | []]]; split; vm_compute; discriminate.
  - vm_compute; reflexivity.
  - simpl; auto.
  - discriminate.
Defined.

Close Scope string_scope.


Open Scope string_scope.


Close Scope string_scope.

(* ------------------------------------------------------------------ *)
(** ** The normalization cache *)

Section Memo.
Context {U : Unicode}.

Lemma normalizeEach_sound inputs : forall cache,
  cacheSound cache ->
  fst (normalizeEach cache inputs)
  = map Direct.normalizeInputIfAccentInsensitive inputs
  /\ cacheSound (snd (normalizeEach cache inputs)).
Proof.
  induction inputs as [|s inputs IH]; intros cache Hc; simpl; [auto|].
  destruct (normalize_cached cache s Hc) as [Hr Hc'].
  destruct (normalizeInputIfAccentInsensitive cache s) as [r cache'].
  simpl in Hr, Hc'; destruct (IH cache' Hc') as [Hrs Hc''].
  destruct (normalizeEach cache' inputs) as [rs cache''].
  simpl in *; subst; auto.
Qed.

End Memo.

(** X23. The normalization cache is transparent: whatever strings the
    normalizer is called on, in whatever order and however often, starting
    from the empty cache, each call returns what the normalizer without a
    cache returns on the same string. *)
Theorem normalization_cache_is_transparent `{Unicode}
  (inputs : list jsstring) :
  fst (normalizeEach [] inputs)
  = map Direct.normalizeInputIfAccentInsensitive inputs.
Proof. apply normalizeEach_sound, cacheSound_nil. Qed.

(* ------------------------------------------------------------------ *)
(** ** The compiled patterns of the aliases outside the first-word list *)

Section MorePatterns.
Context {U : Unicode}.

Lemma ends_WordB_inv c c' :
  In c' (ends WordB c) ->
  c' = c /\ xorb (wordAt (fst c)) (wordAt (snd c)) = true.
Proof.
  simpl; destruct (xorb (wordAt (fst c)) (wordAt (snd c)));
    [intros [<- | []]; auto | intros []].
Qed.

Lemma term_iff eb w t :
  atoms eb = lit w -> wordAt w = true -> wordAt (rev w) = true ->
  test (termPattern eb) t = true <->
  exists left mid right,
    t = (left ++ mid ++ right)%list
    /\ map canonicalize w = map canonicalize mid
    /\ wordAt (rev left) = false /\ wordAt right = false.
Proof.
  intros Hat Hw1 Hw2; split.
  - unfold termPattern; rewrite Hat, test_iff.
    intros (c & c' & Hc & H).
    apply ends_Seq in H as (c1 & Hc1 & H).
    apply ends_WordB_inv in Hc1 as [-> Hx1].
    apply ends_Seq in H as (c2 & Hc2 & H).
    apply ends_WordB_inv in H as [-> Hx2].
    apply In_cursorsFrom in Hc as (left & Ht & Hleft).
    apply ends_lit in Hc2 as (mid & Hs & Hf & Hm).
    exists left, mid, (snd c2); split; [rewrite Ht, Hs; reflexivity|].
    split; [exact Hm|].
    rewrite Hs, (wordAt_app _ _ (fold_wordAt _ _ Hm Hw1)) in Hx1.
    rewrite Hf, (wordAt_app _ _ (fold_wordAt_rev _ _ Hm Hw2)) in Hx2.
    rewrite Hleft, app_nil_r in Hx1.
    split.
    + destruct (wordAt (rev left)); [discriminate | reflexivity].
    + destruct (wordAt (snd c2)); [discriminate | reflexivity].
  - intros (left & mid & right & -> & Hm & Hl & Hr).
    apply (term_from_cursor eb w _ (rev left, (mid ++ right)%list)
             ((rev mid ++ rev left)%list, right)); auto.
    + apply In_cursorsFrom; exists left; simpl.
      rewrite app_nil_r; auto.
    + apply ends_lit; exists mid; auto.
Qed.

Lemma Matches_Star_Class k c c' :
  Matches (Star (Class k)) c c' <->
  exists run, forallb (inClass k) run = true
    /\ snd c = (run ++ snd c')%list /\ fst c' = (rev run ++ fst c)%list.
Proof.
  split.
  - intros H; remember (Star (Class k)) as r eqn:Er.
    induction H; try discriminate.
    + exists []; auto.
    + injection Er as ->.
      destruct (IHMatches2 eq_refl) as (run & Hrun & Hs & Hf).
      inversion H; subst; simpl in *.
      exists (y :: run); simpl.
      match goal with Hy : inClass _ _ = true |- _ => rewrite Hy end.
      rewrite Hrun, Hs, Hf, <- app_assoc; auto.
  - intros (run & Hrun & Hs & Hf).
    destruct c as [before after], c' as [before' after']; simpl in *.
    subst; revert before Hrun.
    induction run as [|y run IH]; intros before Hrun; simpl.
    + constructor.
    + simpl in Hrun; apply andb_true_iff in Hrun as [Hy Hrun].
      apply MStarStep with (c2 := (y :: before, (run ++ after')%list)).
      * constructor; exact Hy.
      * rewrite <- app_assoc; apply IH; exact Hrun.
Qed.

Lemma ends_Plus_Class k c c' :
  In c' (ends (Plus (Class k)) c) <->
  exists run, run <> [] /\ forallb (inClass k) run = true
    /\ snd c = (run ++ snd c')%list /\ fst c' = (rev run ++ fst c)%list.
Proof.
  unfold Plus; rewrite ends_Seq; split.
  - intros (c1 & H1 & H2).
    apply ends_Class in H1 as (y & Hs & Hf & Hy).
    apply ends_adequate, Matches_Star_Class in H2
      as (run & Hrun & Hs' & Hf').
    exists (y :: run); simpl; rewrite Hy, Hrun, Hs, Hs', Hf', Hf.
    rewrite <- app_assoc; repeat split; auto; discriminate.
  - intros ([|y run] & Hne & Hrun & Hs & Hf); [contradiction|].
    simpl in Hrun; apply andb_true_iff in Hrun as [Hy Hrun].
    exists (y :: fst c, (run ++ snd c')%list); split.
    + simpl; rewrite Hs; simpl; rewrite Hy; left; reflexivity.
    + apply ends_adequate, Matches_Star_Class; exists run; simpl.
      rewrite Hf; simpl; rewrite <- app_assoc; auto.
Qed.

Lemma second_iff eb w t :
  atoms eb = lit w -> wordAt (rev w) = true ->
  test (secondPattern eb) t = true <->
  exists word gap pre rest,
    t = (word ++ gap ++ pre ++ rest)%list
    /\ word <> [] /\ forallb (fun c => negb (isWhiteSpace c)) word = true
    /\ gap <> [] /\ forallb isWhiteSpace gap = true
    /\ map canonicalize w = map canonicalize pre
    /\ wordAt rest = false.
Proof.
  intros Hat Hw2; unfold secondPattern; rewrite test_Bol, Hat, matchesAt_iff.
  split.
  - intros (c' & H).
    apply ends_Seq in H as (c1 & Hc1 & H).
    apply ends_Seq in H as (c2 & Hc2 & H).
    apply ends_Seq in H as (c3 & Hc3 & Hc').
    pose proof (tail_reached w _ _ _ Hw2 Hc3 Hc') as Hr.
    apply ends_Plus_Class in Hc1 as (word & Hn1 & Hr1 & Hs1 & _).
    apply ends_Plus_Class in Hc2 as (gap & Hn2 & Hr2 & Hs2 & _).
    apply ends_lit in Hc3 as (pre & Hs3 & _ & Hm).
    exists word, gap, pre, (snd c3); simpl in Hs1.
    rewrite Hs1, Hs2, Hs3; auto 10.
  - intros (word & gap & pre & rest & -> & Hn1 & Hr1 & Hn2 & Hr2 & Hm & Hr).
    set (c1 := (rev word ++ [], gap ++ pre ++ rest)%list : cursor).
    set (c2 := (rev gap ++ fst c1, pre ++ rest)%list : cursor).
    set (c3 := (rev pre ++ fst c2, rest)%list : cursor).
    assert (Ht : matchesAt boundaryTail c3 = true).
    { rewrite matchesAt_tail, tail_after_word; simpl.
      - rewrite Hr; reflexivity.
      - apply wordAt_app, (fold_wordAt_rev _ _ Hm Hw2). }
    apply matchesAt_iff in Ht as (c' & Hc').
    exists c'; apply ends_Seq; exists c1; split;
      [apply ends_Plus_Class; exists word; auto|].
    apply ends_Seq; exists c2; split;
      [apply ends_Plus_Class; exists gap; auto|].
    apply ends_Seq; exists c3; split; [|exact Hc'].
    apply ends_lit; exists pre; auto.
Qed.

End MorePatterns.

(** X24. The cache entry of an alias that is on neither position list and
    that begins and ends with a word character matches a title if and only
    if the title contains the alias, letter case apart (the case folding of
    the flag [i]), neither preceded nor followed by a word character
    [A-Za-z0-9_]: the alias may stand anywhere in the title. *)
Theorem default_alias_matches_separate_term `{Unicode}
  (normalizedTitle b : jsstring) :
  setHas firstWordBrandValidationList b = false ->
  setHas firstOrSecondWordBrandValidationList b = false ->
  wordAt b = true -> wordAt (rev b) = true ->
  checkBrandMatch normalizedTitle (compileBrand b) = true <->
  exists left mid right,
    normalizedTitle = (left ++ mid ++ right)%list
    /\ map canonicalize mid = map canonicalize b
    /\ wordAt (rev left) = false /\ wordAt right = false.
Proof.
  intros H1 H2 Hw1 Hw2.
  unfold checkBrandMatch; rewrite pattern_compileBrand, H1, H2.
  destruct (escaped_literal_word b Hw1 Hw2) as (w & Hat & Hm & Hv1 & Hv2).
  rewrite (term_iff _ w normalizedTitle Hat Hv1 Hv2).
  split; intros (left & mid & right & Ht & Hf & Hr); exists left, mid, right;
    (split; [exact Ht|]); (split; [|exact Hr]); congruence.
Qed.

Open Scope string_scope.

Lemma default_alias_matches_separate_term_witness :
  @checkBrandMatch UnicodeFragment (js "Gum by Sunstar, 50ml")
    (@compileBrand UnicodeFragment (js "sunstar")) = true <->
  exists left mid right,
    js "Gum by Sunstar, 50ml" = (left ++ mid ++ right)%list
    /\ map (@canonicalize UnicodeFragment) mid
       = map (@canonicalize UnicodeFragment) (js "sunstar")
    /\ wordAt (rev left) = false /\ wordAt right = false.
Proof.
  apply (@default_alias_matches_separate_term UnicodeFragment
           (js "Gum by Sunstar, 50ml") (js "sunstar")); reflexivity.
Defined.

Close Scope string_scope.

Lemma firstOrSecond_list_shape b :
  In b firstOrSecondWordBrandValidationList ->
  forallb isAscii b = true /\ wordAt b = true /\ wordAt (rev b) = true
  /\ setHas firstWordBrandValidationList b = false
  /\ escapeRegExp b = b /\ streq b (js "happy") = false.
Proof.
  unfold firstOrSecondWordBrandValidationList; simpl; intros H.
  repeat (destruct H as [<- | H]; [repeat split; reflexivity|]).
  destruct H.
Qed.

(** X25. The cache entry of an alias of [firstOrSecondWordBrandValidationList]
    matches a title if and only if the alias, letter case apart and
    followed by the end of the title or by a character that is not a word
    character, stands at the very beginning of the title or right after
    one run of non-whitespace characters and one run of whitespace at the
    beginning of the title. *)
Theorem first_or_second_alias_matches_leading_words `{Unicode}
  (normalizedTitle b : jsstring) :
  In b firstOrSecondWordBrandValidationList ->
  checkBrandMatch normalizedTitle (compileBrand b) = true <->
  exists lead pre rest,
    normalizedTitle = (lead ++ pre ++ rest)%list
    /\ map asciiUpper pre = map asciiUpper b
    /\ wordAt rest = false
    /\ (lead = []
        \/ exists word gap,
             lead = (word ++ gap)%list
             /\ word <> []
             /\ forallb (fun c => negb (isWhiteSpace c)) word = true
             /\ gap <> [] /\ forallb isWhiteSpace gap = true).
Proof.
  intros Hb.
  destruct (firstOrSecond_list_shape b Hb)
    as (Hascii & Hw1 & Hw2 & Hfirst & Hesc & Hhappy).
  unfold checkBrandMatch; rewrite pattern_compileBrand, Hfirst.
  rewrite (proj2 (setHas_In _ _) Hb), test_Alt.
  assert (Hat : atoms (escapedBrandOf b) = lit b).
  { unfold escapedBrandOf; rewrite Hesc, Hhappy.
    rewrite <- Hesc at 1; apply atoms_escape. }
  split.
  - intros H0; apply orb_true_iff in H0 as [H0 | H0].
    + apply (first_iff _ b normalizedTitle Hat Hw2) in H0
        as (pre & rest & Ht & Hm & Hr).
      exists [], pre, rest; simpl; split; [exact Ht|].
      split; [|auto].
      symmetry; apply (proj1 (fold_string b pre Hascii)); exact Hm.
    + apply (second_iff _ b normalizedTitle Hat Hw2) in H0
        as (word & gap & pre & rest & Ht & Hn1 & Hr1 & Hn2 & Hr2 & Hm & Hr).
      exists (word ++ gap)%list, pre, rest.
      rewrite <- app_assoc; split; [exact Ht|].
      split; [symmetry; apply (proj1 (fold_string b pre Hascii)); exact Hm|].
      split; [exact Hr|].
      right; exists word, gap; auto 10.
  - intros (lead & pre & rest & Ht & Hm & Hr & Hlead).
    assert (Hm' : map canonicalize b = map canonicalize pre)
      by (apply (proj2 (fold_string b pre Hascii)); symmetry; exact Hm).
    apply orb_true_iff.
    destruct Hlead as [-> | (word & gap & -> & Hn1 & Hr1 & Hn2 & Hr2)].
    + left; apply (first_iff _ b normalizedTitle Hat Hw2).
      exists pre, rest; auto.
    + right; apply (second_iff _ b normalizedTitle Hat Hw2).
      exists word, gap, pre, rest; rewrite <- app_assoc in Ht; auto 10.
Qed.

Open Scope string_scope.

Lemma first_or_second_alias_matches_leading_words_witness :
  @checkBrandMatch UnicodeFragment (js "Dr Heel Cream")
    (@compileBrand UnicodeFragment (js "heel")) = true <->
  exists lead pre rest,
    js "Dr Heel Cream" = (lead ++ pre ++ rest)%list
    /\ map asciiUpper pre = map asciiUpper (js "heel")
    /\ wordAt rest = false
    /\ (lead = []
        \/ exists word gap,
             lead = (word ++ gap)%list
             /\ word <> []
             /\ forallb (fun c => negb (isWhiteSpace c)) word = true
             /\ gap <> [] /\ forallb isWhiteSpace gap = true).
Proof.
  apply (@first_or_second_alias_matches_leading_words UnicodeFragment
           (js "Dr Heel Cream") (js "heel")).
  simpl; auto.
Defined.

Close Scope string_scope.

(* ------------------------------------------------------------------ *)
(** ** Escaping and the final count *)

Lemma unescape_escape b : unescape (escapeRegExp b) = Some b.
Proof.
  induction b as [|c b IH]; [reflexivity|].
  unfold escapeRegExp in *; cbn [flat_map].
  destruct (regexSpecial c) eqn:E.
  - cbn [app unescape]; rewrite N.eqb_refl, E, IH; reflexivity.
  - cbn [app unescape].
    rewrite (regexSpecial_backslash c E), E, IH; reflexivity.
Qed.

(** X26. Escaping an alias is reversible and leaves no bare syntax
    character: in the escaped text every character of
    [. * + ? ^ $ { } ( ) | [ ] \ ] is preceded by a backslash and no other
    character is, so the text stands for the alias itself; the pattern text
    is read by the compiler as the sequence of the characters of the
    alias, and two different aliases never get the same escaped text. *)
Theorem escaping_is_reversible `{Unicode} (b b' : jsstring) :
  unescape (escapeRegExp b) = Some b
  /\ atoms (escapeRegExp b) = lit b
  /\ (escapeRegExp b = escapeRegExp b' -> b = b').
Proof.
  split; [apply unescape_escape|]; split; [apply atoms_escape|].
  intros E; pose proof (unescape_escape b) as Hb.
  rewrite E, unescape_escape in Hb; congruence.
Qed.

(** X27. The count [results.filter(r => r.brand).length] printed at the
    end of [assignBrandIfKnown] is 0 for every results array: the records
    carry the properties [product], [matchedBrands], [assignedBrand] and
    [priorityBrand], and none named [brand]. *)
Theorem brands_assigned_count_is_zero (results : list MatchResult) :
  brandsAssigned results = 0.
Proof.
  unfold brandsAssigned.
  induction results as [|r results IH]; [reflexivity|].
  cbn [filter]; unfold resultObject at 1.
  change (mapGet _ (js "brand")) with (@None jsvalue); exact IH.
Qed.

(* ------------------------------------------------------------------ *)
(** ** The two per-call versions against each other *)

Section PerCallResults.
Context {U : Unicode}.

Lemma gated_direct_matched t (g : BrandsMapping) :
  arrayPrototype g = None ->
  Gated.matchBrands t g = Direct.matchBrands t (allBrandsOf g).
Proof.
  intros Hplain.
  rewrite Gated_matchBrands_collect, Direct_matchBrands_collect.
  rewrite (forInValues_plain _ Hplain), allBrandsOf_concat, collect_of_set.
  symmetry; apply collect_ext, per_call_verdicts.
Qed.

Lemma direct_loop lookup (g : BrandsMapping) all items : forall acc,
  fold_left
    (fun results p => (results ++ [Direct.processProduct lookup g all p])%list)
    items acc
  = (acc ++ map (Direct.processProduct lookup g all) items)%list.
Proof.
  induction items as [|p items IH]; intros acc; simpl.
  - rewrite app_nil_r; reflexivity.
  - rewrite IH, <- app_assoc; reflexivity.
Qed.

Lemma direct_fields lookup (g : BrandsMapping) all p :
  Direct.productTitle (Direct.processProduct lookup g all p) = title p
  /\ Direct.matchedBrands (Direct.processProduct lookup g all p)
     = Direct.matchBrands (title p) all.
Proof.
  unfold Direct.processProduct; cbv zeta.
  destruct (0 <? length (Direct.matchBrands (title p) all)); auto.
Qed.

(** The matched products of the gated loop against the records with a
    matched alias of the loop that pushes a record for every product. *)
Lemma gated_against_direct lookup (g : BrandsMapping) items :
  arrayPrototype g = None ->
  map (fun p => (title p, Gated.matchBrands (title p) g))
    (filter (fun p => 0 <? length (Gated.matchBrands (title p) g)) items)
  = map (fun r => (Direct.productTitle r, Direct.matchedBrands r))
      (filter (fun r => 0 <? length (Direct.matchedBrands r))
         (map (Direct.processProduct lookup g (allBrandsOf g)) items)).
Proof.
  intros Hplain.
  induction items as [|p items IH]; [reflexivity|].
  cbn [map filter].
  destruct (direct_fields lookup g (allBrandsOf g) p) as [Ht Hm].
  rewrite Hm, <- (gated_direct_matched _ g Hplain).
  destruct (0 <? length (Gated.matchBrands (title p) g)); [|exact IH].
  cbn [map]; rewrite Ht, Hm, <- (gated_direct_matched _ g Hplain), IH.
  reflexivity.
Qed.

End PerCallResults.

(** X28. When no array was made the prototype of the mapping (no row names
    the alias [__proto__]), the two per-call versions agree on which
    products match and on their matched lists: the records that the
    part_000 version pushes are, title and matched list, the records with a
    non-empty matched list of the version that pushes a record for every
    product, in the same order. *)
Theorem gated_records_are_matched_direct_records `{Unicode}
  (connections : list BrandConnection) (items : list Product)
  (directResults : list Direct.Result) (gatedResults : list Gated.Result) :
  arrayPrototype (getBrandsMapping connections) = None ->
  Direct.assignBrandIfKnown connections items = Some directResults ->
  Gated.assignBrandIfKnown connections items = Some gatedResults ->
  map (fun r => (Gated.productTitle r, Gated.matchedBrands r)) gatedResults
  = map (fun r => (Direct.productTitle r, Direct.matchedBrands r))
      (filter (fun r => 0 <? length (Direct.matchedBrands r))
         directResults).
Proof.
  intros Hplain.
  unfold Direct.assignBrandIfKnown, Gated.assignBrandIfKnown; cbv zeta.
  destruct (buildCanonicalLookup (getBrandsMapping connections))
    as [lookup|]; [|discriminate].
  intros Ed Eg; injection Ed as <-.
  rewrite direct_loop; simpl.
  destruct (gated_loop lookup (getBrandsMapping connections) items []
              gatedResults Eg) as (rs & -> & Hp & _).
  simpl; rewrite Hp.
  apply gated_against_direct, Hplain.
Qed.

Open Scope string_scope.

Lemma gated_records_are_matched_direct_records_witness :
  let directResults :=
    [{| Direct.productTitle := js "Generic Vitamin C Tablets";
        Direct.matchedBrands := [];
        Direct.priorityBrand := None;
        Direct.assignedBrand := None |};
     {| Direct.productTitle := js "Gum Paste Relief";
        Direct.matchedBrands := [js "gum"];
        Direct.priorityBrand := Some (js "gum");
        Direct.assignedBrand := Some (js "gum") |}] in
  let gatedResults :=
    [{| Gated.productTitle := js "Gum Paste Relief";
        Gated.matchedBrands := [js "gum"];
        Gated.priorityBrand := Some (js "gum");
        Gated.assignedBrand := Some (js "gum") |}] in
  map (fun r => (Gated.productTitle r, Gated.matchedBrands r)) gatedResults
  = map (fun r => (Direct.productTitle r, Direct.matchedBrands r))
      (filter (fun r => (0 <? length (Direct.matchedBrands r))%nat)
         directResults).
Proof.
  apply (@gated_records_are_matched_direct_records UnicodeFragment
           [connection "gum" "sunstar"]
           [item "Generic Vitamin C Tablets"; item "Gum Paste Relief"]);
    vm_compute; reflexivity.
Defined.

Close Scope string_scope.
